(** * Sweep-line preprocessing of the allocation planner (sweeper.cc)

    A shallow embedding of [Sweep] and [SweepResult::CalculateCuts] and the
    properties of the sections, partitions, section spans, overlaps and cut
    counts they compute. *)

From Stdlib Require Import ZArith List Bool Lia Sorted Permutation Arith.
Import ListNotations.
Open Scope Z_scope.

(** ** Data model *)

(** [BufferIdx] is the position of a buffer in [problem.buffers]; the code
    only produces it from the loop counter of the generating loop and only
    compares it, so it is a natural number here. *)
Definition BufferIdx := nat.
Definition TimeValue := Z.
Definition SectionIdx := Z.
Definition CutCount := Z.

(** Modelled from the spec: the interval type of the problem header, a pair
    of bounds [lower, upper); a value-initialised interval is [0, 0). *)
Record Interval : Type := mkInterval { lower : Z; upper : Z }.

Definition Window := Interval.
Definition SectionRange := Interval.

(** Modelled from the spec: a gap is a sub-interval of its buffer's lifespan
    with an optional window. *)
Record Gap : Type := mkGap {
  gap_lifespan : Interval;
  gap_window : option Window
}.

(** Modelled from the spec: the fields of a buffer the sweep reads. *)
Record Buffer : Type := mkBuffer {
  lifespan : Interval;
  size : Z;
  gaps : list Gap
}.

Record Problem : Type := mkProblem { buffers : list Buffer }.

(** [Section] is a [btree_set<BufferIdx>]: kept as a strictly increasing
    list, which is also the order in which the code iterates it. *)
Definition Section := list BufferIdx.

Fixpoint set_insert (x : BufferIdx) (s : Section) : Section :=
  match s with
  | [] => [x]
  | y :: s' =>
      if (x <? y)%nat then x :: s
      else if (x =? y)%nat then s
      else y :: set_insert x s'
  end.

Fixpoint set_erase (x : BufferIdx) (s : Section) : Section :=
  match s with
  | [] => []
  | y :: s' => if (x =? y)%nat then s' else y :: set_erase x s'
  end.

(** Result records, with the fields sweeper.cc reads and writes. *)
Record SectionSpan : Type := mkSectionSpan {
  span_range : SectionRange;
  span_window : Window
}.

Record Partition : Type := mkPartition {
  buffer_idxs : list BufferIdx;
  section_range : SectionRange
}.

Record Overlap : Type := mkOverlap {
  overlap_idx : BufferIdx;
  effective : Z
}.

(** [Overlap::operator<]. *)
Definition Overlap_lt (a x : Overlap) : bool :=
  if negb (overlap_idx a =? overlap_idx x)%nat
  then (overlap_idx a <? overlap_idx x)%nat
  else effective a <? effective x.

(** [btree_set<Overlap>::insert]. *)
Fixpoint overlaps_insert (o : Overlap) (s : list Overlap) : list Overlap :=
  match s with
  | [] => [o]
  | y :: s' =>
      if Overlap_lt o y then o :: s
      else if Overlap_lt y o then y :: overlaps_insert o s'
      else s
  end.

Record BufferData : Type := mkBufferData {
  section_spans : list SectionSpan;
  overlaps : list Overlap
}.

Record SweepResult : Type := mkSweepResult {
  sections : list Section;
  partitions : list Partition;
  buffer_data : list BufferData
}.

(** ** Events *)

Inductive PointType : Type := kRightGap | kRight | kLeft | kLeftGap.

(** The enumerator values, in declaration order. *)
Definition PointType_value (t : PointType) : Z :=
  match t with kRightGap => 0 | kRight => 1 | kLeft => 2 | kLeftGap => 3 end.

Record Point : Type := mkPoint {
  buffer_idx : BufferIdx;
  time_value : TimeValue;
  point_type : PointType;
  window : option Window
}.

(** [Point::operator<]. *)
Definition Point_lt (p x : Point) : bool :=
  if negb (time_value p =? time_value x) then time_value p <? time_value x
  else if negb (PointType_value (point_type p) =? PointType_value (point_type x))
       then PointType_value (point_type p) <? PointType_value (point_type x)
       else (buffer_idx p <? buffer_idx x)%nat.

(** The two points of one gap. *)
Definition gap_points (idx : BufferIdx) (g : Gap) : list Point :=
  [ mkPoint idx (lower (gap_lifespan g)) kRightGap (gap_window g);
    mkPoint idx (upper (gap_lifespan g)) kLeftGap (gap_window g) ].

(** The points pushed by one iteration of the generating loop. *)
Definition buffer_points (idx : BufferIdx) (b : Buffer) : list Point :=
  mkPoint idx (lower (lifespan b)) kLeft None
    :: flat_map (gap_points idx) (gaps b)
    ++ [ mkPoint idx (upper (lifespan b)) kRight None ].

Fixpoint points_from (idx : BufferIdx) (bs : list Buffer) : list Point :=
  match bs with
  | [] => []
  | b :: bs' => buffer_points idx b ++ points_from (S idx) bs'
  end.

Definition make_points (problem : Problem) : list Point :=
  points_from 0%nat (buffers problem).

(** [std::sort] with [Point::operator<], as an insertion sort.  The standard
    leaves the relative order of equivalent points open; the general results
    below are therefore stated for every sorted arrangement of the points. *)
Fixpoint sort_insert (p : Point) (l : list Point) : list Point :=
  match l with
  | [] => [p]
  | x :: l' => if Point_lt x p then x :: sort_insert p l' else p :: l
  end.

Fixpoint sort_points (l : list Point) : list Point :=
  match l with
  | [] => []
  | p :: l' => sort_insert p (sort_points l')
  end.

(** The event sequence the sweep loop iterates over. *)
Definition sorted_points (problem : Problem) : list Point :=
  sort_points (make_points problem).

(** ** Machine integers *)

(** Conversion of a [size_t] to [int], as in [(int)result.sections.size()]. *)
Definition to_int (n : nat) : Z :=
  let z := Z.of_nat n mod 2 ^ 32 in
  if z <? 2 ^ 31 then z else z - 2 ^ 32.

(** [sections.size() - 1] in 64-bit unsigned arithmetic. *)
Definition size_minus_one (n : nat) : Z := (Z.of_nat n - 1) mod 2 ^ 64.

(** ** Vectors indexed by buffer *)

Fixpoint vec_set {A : Type} (l : list A) (i : nat) (x : A) : list A :=
  match l, i with
  | [], _ => []
  | _ :: l', O => x :: l'
  | y :: l', S i' => y :: vec_set l' i' x
  end.

(** An access outside the vector is undefined in the source; it is an error
    ([None]) here. *)
Definition vec_upd {A : Type} (l : list A) (i : nat) (f : A -> A)
  : option (list A) :=
  match nth_error l i with
  | Some y => Some (vec_set l i (f y))
  | None => None
  end.

(** [v.back() = f (v.back())]; undefined on an empty vector. *)
Fixpoint upd_back {A : Type} (l : list A) (f : A -> A) : option (list A) :=
  match l with
  | [] => None
  | [y] => Some [f y]
  | y :: l' =>
      match upd_back l' f with
      | Some r => Some (y :: r)
      | None => None
      end
  end.

Notation "x <- c ;; k" :=
  (match c with Some x => k | None => None end)
  (at level 61, c at next level, right associativity).

(** ** The sweep *)

(** The local variables of [Sweep] that live across iterations of the main
    loop. *)
Record SweepState : Type := mkState {
  actives : Section;
  alive : Section;
  last_section_time : TimeValue;
  last_section_idx : SectionIdx;
  buffer_idx_to_section_start : list SectionIdx;
  buffer_idx_to_window : list Window;
  result : SweepResult
}.

Definition with_actives (st : SweepState) (s : Section) : SweepState :=
  mkState s (alive st) (last_section_time st) (last_section_idx st)
    (buffer_idx_to_section_start st) (buffer_idx_to_window st) (result st).

Definition with_alive (st : SweepState) (s : Section) : SweepState :=
  mkState (actives st) s (last_section_time st) (last_section_idx st)
    (buffer_idx_to_section_start st) (buffer_idx_to_window st) (result st).

Definition with_time (st : SweepState) (t : TimeValue) : SweepState :=
  mkState (actives st) (alive st) t (last_section_idx st)
    (buffer_idx_to_section_start st) (buffer_idx_to_window st) (result st).

Definition with_idx (st : SweepState) (i : SectionIdx) : SweepState :=
  mkState (actives st) (alive st) (last_section_time st) i
    (buffer_idx_to_section_start st) (buffer_idx_to_window st) (result st).

Definition with_starts (st : SweepState) (v : list SectionIdx) : SweepState :=
  mkState (actives st) (alive st) (last_section_time st) (last_section_idx st)
    v (buffer_idx_to_window st) (result st).

Definition with_windows (st : SweepState) (v : list Window) : SweepState :=
  mkState (actives st) (alive st) (last_section_time st) (last_section_idx st)
    (buffer_idx_to_section_start st) v (result st).

Definition with_result (st : SweepState) (r : SweepResult) : SweepState :=
  mkState (actives st) (alive st) (last_section_time st) (last_section_idx st)
    (buffer_idx_to_section_start st) (buffer_idx_to_window st) r.

Definition with_sections (st : SweepState) (s : list Section) : SweepState :=
  with_result st
    (mkSweepResult s (partitions (result st)) (buffer_data (result st))).

Definition with_partitions (st : SweepState) (p : list Partition)
  : SweepState :=
  with_result st
    (mkSweepResult (sections (result st)) p (buffer_data (result st))).

Definition with_buffer_data (st : SweepState) (d : list BufferData)
  : SweepState :=
  with_result st
    (mkSweepResult (sections (result st)) (partitions (result st)) d).

(** The six classifications of a point computed at the top of the loop. *)
Definition isLeft (p : Point) : bool :=
  match point_type p with kLeft => true | _ => false end.
Definition isRight (p : Point) : bool :=
  match point_type p with kRight => true | _ => false end.
Definition isEmptyLeftGap (p : Point) : bool :=
  match point_type p, window p with kLeftGap, None => true | _, _ => false end.
Definition isEmptyRightGap (p : Point) : bool :=
  match point_type p, window p with kRightGap, None => true | _, _ => false end.
Definition isWindowedLeftGap (p : Point) : bool :=
  match point_type p, window p with
  | kLeftGap, Some _ => true | _, _ => false end.
Definition isWindowedRightGap (p : Point) : bool :=
  match point_type p, window p with
  | kRightGap, Some _ => true | _, _ => false end.

(** The points at which a span is closed and a section may be flushed. *)
Definition closes (p : Point) : bool :=
  isRight p || isEmptyRightGap p || isWindowedRightGap p
  || isWindowedLeftGap p.

(** The points that (re)activate their buffer. *)
Definition activates (p : Point) : bool := isLeft p || isEmptyLeftGap p.

(** The points after which a span start is recorded. *)
Definition opens (p : Point) : bool :=
  isLeft p || isEmptyLeftGap p || isWindowedLeftGap p || isWindowedRightGap p.

Section Sweeper.

(** The collaborator [Buffer::effective_size], opaque to the sweep. *)
Variable effective_size : Buffer -> Buffer -> option Z.

Variable problem : Problem.

(** [if (last_section_time == -1) last_section_time = time_value;] *)
Definition init_time (p : Point) (st : SweepState) : SweepState :=
  if last_section_time st =? -1 then with_time st (time_value p) else st.

(** Lines 129-131. *)
Definition reset_window (p : Point) (buffer : Buffer) (st : SweepState)
  : option SweepState :=
  if isWindowedRightGap p then
    v <- vec_upd (buffer_idx_to_window st) (buffer_idx p)
           (fun _ => mkInterval 0 (size buffer)) ;;
    Some (with_windows st v)
  else Some st.

(** Lines 132-138. *)
Definition flush_section (p : Point) (st : SweepState) : SweepState :=
  if closes p then
    if last_section_time st <? time_value p then
      with_sections (with_time st (time_value p))
        (sections (result st) ++ [actives st])
    else st
  else st.

(** Lines 139-144. *)
Definition erase_buffer (p : Point) (st : SweepState) : SweepState :=
  let st1 :=
    if isRight p || isEmptyRightGap p
    then with_actives st (set_erase (buffer_idx p) (actives st)) else st in
  if isRight p then with_alive st1 (set_erase (buffer_idx p) (alive st1))
  else st1.

Definition push_span (s : SectionSpan) (d : BufferData) : BufferData :=
  mkBufferData (section_spans d ++ [s]) (overlaps d).

Definition set_range (r : SectionRange) (q : Partition) : Partition :=
  mkPartition (buffer_idxs q) r.

(** Lines 154-159. *)
Definition close_partition (st : SweepState) : option SweepState :=
  match alive st with
  | [] =>
      let n := to_int (length (sections (result st))) in
      ps <- upd_back (partitions (result st))
              (set_range (mkInterval (last_section_idx st) n)) ;;
      Some (with_idx (with_partitions st ps) n)
  | _ :: _ => Some st
  end.

(** Lines 145-162. *)
Definition close_span (p : Point) (st : SweepState) : option SweepState :=
  if closes p then
    start <- nth_error (buffer_idx_to_section_start st) (buffer_idx p) ;;
    if negb (start =? -1) then
      w <- nth_error (buffer_idx_to_window st) (buffer_idx p) ;;
      let section_span :=
        mkSectionSpan
          (mkInterval start (to_int (length (sections (result st))))) w in
      d <- vec_upd (buffer_data (result st)) (buffer_idx p)
             (push_span section_span) ;;
      st1 <- close_partition (with_buffer_data st d) ;;
      Some (with_starts st1
              (vec_set (buffer_idx_to_section_start st1) (buffer_idx p) (-1)))
    else Some st
  else Some st.

(** Lines 163-165. *)
Definition override_window (p : Point) (st : SweepState)
  : option SweepState :=
  match point_type p, window p with
  | kLeftGap, Some w =>
      v <- vec_upd (buffer_idx_to_window st) (buffer_idx p) (fun _ => w) ;;
      Some (with_windows st v)
  | _, _ => Some st
  end.

(** Lines 166-169. *)
Definition open_partition (p : Point) (st : SweepState) : SweepState :=
  if activates p then
    match alive st with
    | [] =>
        with_partitions st
          (partitions (result st) ++ [mkPartition [] (mkInterval 0 0)])
    | _ :: _ => st
    end
  else st.

Definition push_idx (i : BufferIdx) (q : Partition) : Partition :=
  mkPartition (buffer_idxs q ++ [i]) (section_range q).

(** Lines 170-173. *)
Definition join_partition (p : Point) (st : SweepState)
  : option SweepState :=
  if isLeft p then
    ps <- upd_back (partitions (result st)) (push_idx (buffer_idx p)) ;;
    Some (with_partitions st ps)
  else Some st.

Definition push_overlap (o : Overlap) (d : BufferData) : BufferData :=
  mkBufferData (section_spans d) (overlaps_insert o (overlaps d)).

(** One iteration of the loop of lines 175-187. *)
Definition pair_with (idx : BufferIdx) (buffer : Buffer)
  (d : list BufferData) (active_idx : BufferIdx) : option (list BufferData) :=
  active <- nth_error (buffers problem) active_idx ;;
  d1 <- match effective_size active buffer with
        | Some s => vec_upd d active_idx (push_overlap (mkOverlap idx s))
        | None => Some d
        end ;;
  match effective_size buffer active with
  | Some s => vec_upd d1 idx (push_overlap (mkOverlap active_idx s))
  | None => Some d1
  end.

Fixpoint pair_all (idx : BufferIdx) (buffer : Buffer)
  (d : list BufferData) (acts : list BufferIdx) : option (list BufferData) :=
  match acts with
  | [] => Some d
  | a :: acts' =>
      d1 <- pair_with idx buffer d a ;;
      pair_all idx buffer d1 acts'
  end.

(** Lines 174-188. *)
Definition record_overlaps (p : Point) (buffer : Buffer) (st : SweepState)
  : option SweepState :=
  if activates p then
    d <- pair_all (buffer_idx p) buffer (buffer_data (result st))
           (actives st) ;;
    Some (with_buffer_data st d)
  else Some st.

(** Lines 189-195. *)
Definition insert_buffer (p : Point) (st : SweepState) : SweepState :=
  let st1 :=
    if activates p
    then with_actives st (set_insert (buffer_idx p) (actives st)) else st in
  if isLeft p then with_alive st1 (set_insert (buffer_idx p) (alive st1))
  else st1.

(** Lines 196-198. *)
Definition open_span (p : Point) (st : SweepState) : option SweepState :=
  if opens p then
    v <- vec_upd (buffer_idx_to_section_start st) (buffer_idx p)
           (fun _ => to_int (length (sections (result st)))) ;;
    Some (with_starts st v)
  else Some st.

(** The body of the main loop. *)
Definition step (st : SweepState) (p : Point) : option SweepState :=
  buffer <- nth_error (buffers problem) (buffer_idx p) ;;
  st1 <- reset_window p buffer (init_time p st) ;;
  st2 <- close_span p (erase_buffer p (flush_section p st1)) ;;
  st3 <- override_window p st2 ;;
  st4 <- join_partition p (open_partition p st3) ;;
  st5 <- record_overlaps p buffer st4 ;;
  open_span p (insert_buffer p st5).

Fixpoint run (st : SweepState) (pts : list Point) : option SweepState :=
  match pts with
  | [] => Some st
  | p :: pts' => st1 <- step st p ;; run st1 pts'
  end.

Definition initial_state : SweepState :=
  let n := length (buffers problem) in
  mkState [] [] (-1) 0
    (repeat (-1) n)
    (map (fun b => mkInterval 0 (size b)) (buffers problem))
    (mkSweepResult [] [] (repeat (mkBufferData [] []) n)).

(** [Sweep] over an arbitrary arrangement of the points. *)
Definition sweep_points (pts : list Point) : option SweepResult :=
  st <- run initial_state pts ;; Some (result st).

Definition Sweep : option SweepResult := sweep_points (sorted_points problem).

End Sweeper.

(** ** Cut counts *)

(** [++cuts[s_idx]]; an index outside the vector is undefined in the source
    and an error here. *)
Definition bump (cuts : list CutCount) (s_idx : SectionIdx)
  : option (list CutCount) :=
  if s_idx <? 0 then None
  else vec_upd cuts (Z.to_nat s_idx) (fun c => c + 1).

(** The inner [for] loop of [CalculateCuts], from [s_idx] while
    [s_idx + 1 < hi]; [fuel] bounds the number of iterations. *)
Fixpoint cut_loop (fuel : nat) (s_idx hi : SectionIdx) (cuts : list CutCount)
  : option (list CutCount) :=
  match fuel with
  | O => Some cuts
  | S fuel' =>
      if s_idx + 1 <? hi then
        c <- bump cuts s_idx ;; cut_loop fuel' (s_idx + 1) hi c
      else Some cuts
  end.

(** [front()] and [back()] of the span vector; undefined when it is empty. *)
Definition front_lower (d : BufferData) : option SectionIdx :=
  match section_spans d with
  | [] => None
  | s :: _ => Some (lower (span_range s))
  end.

Definition back_upper (d : BufferData) : option SectionIdx :=
  match section_spans d with
  | [] => None
  | s :: l => Some (upper (span_range (last l s)))
  end.

Definition cut_buffer (cuts : list CutCount) (d : BufferData)
  : option (list CutCount) :=
  lo <- front_lower d ;;
  hi <- back_upper d ;;
  cut_loop (Z.to_nat (hi - lo)) lo hi cuts.

Fixpoint cut_all (cuts : list CutCount) (ds : list BufferData)
  : option (list CutCount) :=
  match ds with
  | [] => Some cuts
  | d :: ds' => c <- cut_buffer cuts d ;; cut_all c ds'
  end.

(** [SweepResult::CalculateCuts]. *)
Definition CalculateCuts (r : SweepResult) : option (list CutCount) :=
  cut_all (repeat 0 (Z.to_nat (size_minus_one (length (sections r)))))
    (buffer_data r).

(** ** Scenarios *)

(** One buffer, lifespan [0,10), size 10, with the windowed gap [3,7) of
    window {0,2}. *)
Definition windowed_gap_problem : Problem :=
  mkProblem
    [ mkBuffer (mkInterval 0 10) 10
        [ mkGap (mkInterval 3 7) (Some (mkInterval 0 2)) ] ].

(** Buffers A = [0,10) and B = [5,15), both of size 4, no gaps. *)
Definition two_overlapping_problem : Problem :=
  mkProblem
    [ mkBuffer (mkInterval 0 10) 4 []; mkBuffer (mkInterval 5 15) 4 [] ].

(** The windows of the recorded spans of buffer [idx]. *)
Definition span_windows (r : SweepResult) (idx : BufferIdx) : list Window :=
  match nth_error (buffer_data r) idx with
  | Some d => map span_window (section_spans d)
  | None => []
  end.

Definition span_ranges (r : SweepResult) (idx : BufferIdx)
  : list SectionRange :=
  match nth_error (buffer_data r) idx with
  | Some d => map span_range (section_spans d)
  | None => []
  end.

(** ** The event order in the words of the specification *)

(** The four tiers: gap start < true end < true start < gap end, whatever
    the window of a gap event. *)
Definition tier (p : Point) : nat :=
  match point_type p with
  | kRightGap => 0
  | kRight => 1
  | kLeft => 2
  | kLeftGap => 3
  end.

(** Time ascending, then tier ascending, then buffer index ascending. *)
Definition event_le (a b : Point) : Prop :=
  time_value a < time_value b \/
  (time_value a = time_value b /\
   ((tier a < tier b)%nat \/
    (tier a = tier b /\ (buffer_idx a <= buffer_idx b)%nat))).

(** A collaborator that never reports a conflict. *)
Definition no_conflict (a b : Buffer) : option Z := None.

(** The state of the loop after its first [n] iterations. *)
Definition state_after (es : Buffer -> Buffer -> option Z)
  (problem : Problem) (n : nat) : option SweepState :=
  run es problem (initial_state problem) (firstn n (sorted_points problem)).

(** Two consecutive states of the windowed-gap scenario: after the true
    start at time 0, and after the gap start at time 3. *)
Definition gap_start_point : Point :=
  mkPoint 0%nat 3 kRightGap (Some (mkInterval 0 2)).

Definition state_before_gap : SweepState :=
  Eval vm_compute in
    match state_after no_conflict windowed_gap_problem 1 with
    | Some st => st
    | None => initial_state windowed_gap_problem
    end.

Definition state_in_gap : SweepState :=
  Eval vm_compute in
    match state_after no_conflict windowed_gap_problem 2 with
    | Some st => st
    | None => initial_state windowed_gap_problem
    end.

(** ** Cut counts in the words of the specification *)





(** The result of sweeping a problem without buffers. *)
Definition empty_result : SweepResult := mkSweepResult [] [] [].


(** The overlap set recorded for buffer [i]. *)
Definition overlaps_of (d : list BufferData) (i : BufferIdx) : list Overlap :=
  match nth_error d i with
  | Some x => overlaps x
  | None => []
  end.










(** ** Well-formed problems *)

(** The gaps of a buffer, in the order listed, are non-empty, strictly
    separated from each other and within [lo, hi].  The first gap may start
    at [lo] (it must start after [lo] when [strict] is set, that is, when
    [lo] is the end of the gap before); only a gap with a window may last
    to [hi]. *)
Fixpoint gaps_inside (strict : bool) (lo hi : TimeValue) (gs : list Gap)
  : Prop :=
  match gs with
  | [] => lo < hi
  | g :: gs' =>
      (if strict then lo < lower (gap_lifespan g)
       else lo <= lower (gap_lifespan g)) /\
      lower (gap_lifespan g) < upper (gap_lifespan g) /\
      match gs' with
      | [] =>
          upper (gap_lifespan g) < hi \/
          (upper (gap_lifespan g) = hi /\ gap_window g <> None)
      | _ :: _ => gaps_inside true (upper (gap_lifespan g)) hi gs'
      end
  end.

(** A non-negative, non-empty lifespan with its gaps inside. *)
Definition wf_buffer (b : Buffer) : Prop :=
  0 <= lower (lifespan b) /\
  gaps_inside false (lower (lifespan b)) (upper (lifespan b)) (gaps b).

Definition wf_problem (problem : Problem) : Prop :=
  Forall wf_buffer (buffers problem).

(** ** The state of a buffer along the sweep *)

(** [Fresh]: no event yet.  [PreClosed], [PreOpened t]: a gap start seen
    before the true start, without or with a span start recorded at time
    [t].  [Closed]: alive with no span open.  [Opened t]: alive with a span
    opened at time [t].  [Dead t]: ended at time [t].  [Done]: ended, and a
    span start recorded by the end of a gap that lasts to the end. *)
Inductive Status : Type :=
  | Fresh | PreClosed | PreOpened (t : TimeValue)
  | Closed | Opened (t : TimeValue)
  | Dead (t : TimeValue) | Done.

Definition live (s : Status) : bool :=
  match s with Closed | Opened _ => true | _ => false end.

Definition pending (s : Status) : bool :=
  match s with PreClosed | PreOpened _ => true | _ => false end.

Definition next_status (s : Status) (e : Point) : Status :=
  match point_type e, window e with
  | kLeft, _ => Opened (time_value e)
  | kRight, _ => Dead (time_value e)
  | kRightGap, None =>
      match s with Fresh => PreClosed | _ => Closed end
  | kRightGap, Some _ =>
      match s with
      | Fresh => PreOpened (time_value e)
      | _ => Opened (time_value e)
      end
  | kLeftGap, None => Opened (time_value e)
  | kLeftGap, Some _ =>
      match s with Dead _ => Done | _ => Opened (time_value e) end
  end.

(** The events a buffer in state [s] may meet. *)
Definition legal (s : Status) (e : Point) : Prop :=
  match s with
  | Fresh => point_type e = kLeft \/ point_type e = kRightGap
  | PreClosed | PreOpened _ => point_type e = kLeft
  | Closed => isEmptyLeftGap e = true
  | Opened t0 =>
      (closes e = true /\ t0 < time_value e) \/ isEmptyLeftGap e = true
  | Dead t0 => isWindowedLeftGap e = true /\ time_value e <= t0
  | Done => False
  end.

Fixpoint run_status (s : Status) (l : list Point) : Status :=
  match l with
  | [] => s
  | e :: l' => run_status (next_status s e) l'
  end.

Fixpoint legal_run (s : Status) (l : list Point) : Prop :=
  match l with
  | [] => True
  | e :: l' => legal s e /\ legal_run (next_status s e) l'
  end.

Fixpoint last_opt {A : Type} (l : list A) : option A :=
  match l with
  | [] => None
  | [x] => Some x
  | _ :: l' => last_opt l'
  end.

Definition of_buffer (b : BufferIdx) (e : Point) : bool :=
  (buffer_idx e =? b)%nat.

(** The state of buffer [b] after the events [l] of all buffers. *)
Definition status_after (l : list Point) (b : BufferIdx) : Status :=
  run_status Fresh (filter (of_buffer b) l).

(** The time of the last event of [l]. *)
Definition now (l : list Point) : TimeValue :=
  match last_opt l with
  | Some e => time_value e
  | None => -1
  end.

Definition upd_status (sigma : BufferIdx -> Status) (b : BufferIdx)
  (x : Status) : BufferIdx -> Status :=
  fun b' => if (b' =? b)%nat then x else sigma b'.

(** ** Ranges in sequence *)

(** Non-empty ranges, each starting at or after the end of the one before,
    the first at or after [lo]. *)
Fixpoint increasing_from (lo : Z) (l : list SectionRange) : Prop :=
  match l with
  | [] => True
  | r :: l' => lo <= lower r /\ lower r < upper r /\
               increasing_from (upper r) l'
  end.

Fixpoint last_upper (lo : Z) (l : list SectionRange) : Z :=
  match l with
  | [] => lo
  | r :: l' => last_upper (upper r) l'
  end.

(** Ranges that follow each other without gap from [lo] to [hi]. *)
Fixpoint chain (lo : Z) (l : list SectionRange) (hi : Z) : Prop :=
  match l with
  | [] => lo = hi
  | r :: l' => lower r = lo /\ lo <= upper r /\ chain (upper r) l' hi
  end.

Definition ranges_of (d : BufferData) : list SectionRange :=
  map span_range (section_spans d).

(** The partitions against the sections: with no buffer alive every
    partition is closed, up to [lidx], and [lidx] is the number of sections
    unless a buffer is about to start ([quiet] fails); with a buffer alive
    the last partition is still open. *)
Definition parts_ok (alv : Section) (ps : list Partition)
  (lidx nsec : Z) (quiet : Prop) : Prop :=
  match alv with
  | [] => chain 0 (map section_range ps) lidx /\ lidx <= nsec /\
          (quiet -> lidx = nsec)
  | _ :: _ =>
      exists ps0 q, ps = ps0 ++ [q] /\
        chain 0 (map section_range ps0) lidx /\ lidx <= nsec
  end.

(** ** The loop invariant *)

Record Inv (n : nat) (sigma : BufferIdx -> Status) (N : Z)
  (tnow : TimeValue) (st : SweepState) : Prop := mkInv {
  inv_len_starts : length (buffer_idx_to_section_start st) = n;
  inv_len_windows : length (buffer_idx_to_window st) = n;
  inv_len_data : length (buffer_data (result st)) = n;
  inv_actives : forall a, In a (actives st) -> (a < n)%nat;
  inv_alive_sorted : StronglySorted lt (alive st);
  inv_alive : forall b, In b (alive st) <-> live (sigma b) = true;
  inv_secs : Z.of_nat (length (sections (result st))) <= N;
  inv_time :
    last_section_time st <= tnow /\ -1 <= last_section_time st /\
    (last_section_time st = -1 -> forall b, sigma b = Fresh);
  inv_dead : forall b t0, sigma b = Dead t0 -> t0 <= last_section_time st;
  inv_start : forall b s,
    nth_error (buffer_idx_to_section_start st) b = Some s ->
    match sigma b with
    | Opened t0 | PreOpened t0 =>
        0 <= s <= Z.of_nat (length (sections (result st))) /\
        (s < Z.of_nat (length (sections (result st))) \/
         last_section_time st <= t0)
    | Done => 0 <= s
    | _ => s = -1
    end;
  inv_spans : forall b d,
    nth_error (buffer_data (result st)) b = Some d ->
    increasing_from 0 (ranges_of d) /\
    last_upper 0 (ranges_of d)
      <= Z.of_nat (length (sections (result st))) /\
    (forall s, nth_error (buffer_idx_to_section_start st) b = Some s ->
               s <> -1 -> last_upper 0 (ranges_of d) <= s);
  inv_parts :
    parts_ok (alive st) (partitions (result st)) (last_section_idx st)
      (Z.of_nat (length (sections (result st))))
      (forall b, pending (sigma b) = false)
}.

(** What the sorted events of a well-formed problem satisfy, and all the
    invariant needs of them. *)
Record Protocol (n : nat) (pts : list Point) : Prop := mkProtocol {
  proto_idx : forall e, In e pts -> (buffer_idx e < n)%nat;
  proto_nonneg : forall e, In e pts -> 0 <= time_value e;
  proto_time : forall l1 e l2, pts = l1 ++ e :: l2 -> now l1 <= time_value e;
  proto_legal : forall l1 e l2, pts = l1 ++ e :: l2 ->
                legal (status_after l1 (buffer_idx e)) e;
  proto_end : forall b, live (status_after pts b) = false /\
                        pending (status_after pts b) = false
}.

(** ** The guarantees on partitions and spans *)

(** The ranges are in increasing order, pairwise disjoint, and cover
    exactly the indices in [0, n). *)
Definition covers (rs : list SectionRange) (n : Z) : Prop :=
  (forall r, In r rs -> lower r <= upper r) /\
  (forall i j ri rj, (i < j)%nat ->
     nth_error rs i = Some ri -> nth_error rs j = Some rj ->
     upper ri <= lower rj) /\
  (forall k, 0 <= k < n <-> exists r, In r rs /\ lower r <= k < upper r).


(** ** Auxiliary states *)

(** What [gaps_inside] asks of the gaps after [g]. *)
Definition tail_ok (hi : TimeValue) (g : Gap) (gs : list Gap) : Prop :=
  match gs with
  | [] => upper (gap_lifespan g) < hi \/
          (upper (gap_lifespan g) = hi /\ gap_window g <> None)
  | _ :: _ => gaps_inside true (upper (gap_lifespan g)) hi gs
  end.

(** The states in which a buffer can be inside its gap [g]. *)
Definition in_gap (s : Status) (g : Gap) : Prop :=
  (exists t0, s = Opened t0 /\ t0 < upper (gap_lifespan g)) \/
  (s = Closed /\ gap_window g = None).

(** The state a buffer in state [s] is in once a span start is recorded
    for it at time [t]. *)
Definition open_status (s : Status) (t : TimeValue) : Status :=
  match s with
  | Closed | Opened _ => Opened t
  | Fresh | PreClosed | PreOpened _ => PreOpened t
  | Dead _ | Done => Done
  end.

(** The state a buffer in state [s] is in once it has been activated. *)
Definition act_status (s : Status) : Status :=
  match s with
  | Fresh | PreClosed => Closed
  | PreOpened t0 => Opened t0
  | _ => s
  end.

(** ** The events of one buffer in sorted order *)

(** Earlier, or at the same time in a lower tier. *)
Definition key_lt (a b : Point) : Prop :=
  time_value a < time_value b \/
  (time_value a = time_value b /\ (tier a < tier b)%nat).

Definition gap_start (idx : BufferIdx) (g : Gap) : Point :=
  mkPoint idx (lower (gap_lifespan g)) kRightGap (gap_window g).

Definition gap_end (idx : BufferIdx) (g : Gap) : Point :=
  mkPoint idx (upper (gap_lifespan g)) kLeftGap (gap_window g).

Definition true_start (idx : BufferIdx) (b : Buffer) : Point :=
  mkPoint idx (lower (lifespan b)) kLeft None.

Definition true_end (idx : BufferIdx) (hi : TimeValue) : Point :=
  mkPoint idx hi kRight None.

(** The events that follow the start of gap [g]: its end and the events of
    the later gaps, the true end coming before the end of a last gap that
    lasts to [hi]. *)
Fixpoint after_gap_start (idx : BufferIdx) (hi : TimeValue) (g : Gap)
  (gs : list Gap) : list Point :=
  match gs with
  | [] =>
      if upper (gap_lifespan g) =? hi
      then [true_end idx hi; gap_end idx g]
      else [gap_end idx g; true_end idx hi]
  | g' :: gs' =>
      gap_end idx g :: gap_start idx g' :: after_gap_start idx hi g' gs'
  end.

(** The events of buffer [b] in the order of [Point::operator<]. *)
Definition arranged_points (idx : BufferIdx) (b : Buffer) : list Point :=
  match gaps b with
  | [] => [true_start idx b; true_end idx (upper (lifespan b))]
  | g :: gs =>
      if lower (gap_lifespan g) =? lower (lifespan b)
      then gap_start idx g :: true_start idx b
             :: after_gap_start idx (upper (lifespan b)) g gs
      else true_start idx b :: gap_start idx g
             :: after_gap_start idx (upper (lifespan b)) g gs
  end.

(** The buffer data [d'] holds the spans of [d]; only overlaps differ. *)
Definition same_spans (d d' : list BufferData) : Prop :=
  length d' = length d /\
  forall j x', nth_error d' j = Some x' ->
    exists x, nth_error d j = Some x /\ section_spans x' = section_spans x.


(** ** Well-formedness in the words of the specification *)

(** The gaps are non-empty sub-intervals of [lo, hi], listed in order and
    pairwise disjoint. *)
Fixpoint gaps_within (lo hi : TimeValue) (gs : list Gap) : Prop :=
  match gs with
  | [] => lo <= hi
  | g :: gs' =>
      lo <= lower (gap_lifespan g) /\
      lower (gap_lifespan g) < upper (gap_lifespan g) /\
      gaps_within (upper (gap_lifespan g)) hi gs'
  end.

(** A non-negative, non-empty lifespan, a non-negative size, and gaps that
    are sub-intervals of the lifespan. *)
Definition contract_buffer (b : Buffer) : Prop :=
  0 <= lower (lifespan b) /\ lower (lifespan b) < upper (lifespan b) /\
  0 <= size b /\
  gaps_within (lower (lifespan b)) (upper (lifespan b)) (gaps b).

Definition contract_problem (problem : Problem) : Prop :=
  Forall contract_buffer (buffers problem).

(** One buffer [0,10) whose windowless gap [3,10) lasts to its end. *)
Definition gap_to_end_problem : Problem :=
  mkProblem [ mkBuffer (mkInterval 0 10) 4 [ mkGap (mkInterval 3 10) None ] ].


(** Buffer A = [0,10) with a windowed gap [0,3) from its start and a
    windowed gap [6,10) to its end; buffer B = [2,8) with a windowless gap
    [2,4) from its start. *)
Definition edge_gaps_problem : Problem :=
  mkProblem
    [ mkBuffer (mkInterval 0 10) 4
        [ mkGap (mkInterval 0 3) (Some (mkInterval 0 2));
          mkGap (mkInterval 6 10) (Some (mkInterval 1 3)) ];
      mkBuffer (mkInterval 2 8) 3 [ mkGap (mkInterval 2 4) None ] ].


(** ** Equality of results *)

(** [std::vector::operator==] and [btree_set::operator==]: equal sizes and
    element-wise equal, in order. *)
Fixpoint list_eqb {A : Type} (eqb : A -> A -> bool) (l l' : list A) : bool :=
  match l, l' with
  | [], [] => true
  | x :: t, y :: t' => eqb x y && list_eqb eqb t t'
  | _, _ => false
  end.

(** Modelled from the spec: equality of intervals of the problem header,
    bound by bound. *)
Definition Interval_eqb (a x : Interval) : bool :=
  (lower a =? lower x) && (upper a =? upper x).

(** [SectionSpan::operator==]. *)
Definition SectionSpan_eqb (a x : SectionSpan) : bool :=
  Interval_eqb (span_range a) (span_range x)
  && Interval_eqb (span_window a) (span_window x).

(** [Partition::operator==]. *)
Definition Partition_eqb (a x : Partition) : bool :=
  list_eqb Nat.eqb (buffer_idxs a) (buffer_idxs x)
  && Interval_eqb (section_range a) (section_range x).

(** [Overlap::operator==]. *)
Definition Overlap_eqb (a x : Overlap) : bool :=
  (overlap_idx a =? overlap_idx x)%nat && (effective a =? effective x).

(** [BufferData::operator==]. *)
Definition BufferData_eqb (a x : BufferData) : bool :=
  list_eqb SectionSpan_eqb (section_spans a) (section_spans x)
  && list_eqb Overlap_eqb (overlaps a) (overlaps x).

(** [SweepResult::operator==]. *)
Definition SweepResult_eqb (a x : SweepResult) : bool :=
  list_eqb (list_eqb Nat.eqb) (sections a) (sections x)
  && list_eqb Partition_eqb (partitions a) (partitions x)
  && list_eqb BufferData_eqb (buffer_data a) (buffer_data x).

(** The number of gaps of all buffers. *)
Definition gap_count (problem : Problem) : nat :=
  list_sum (map (fun b => length (gaps b)) (buffers problem)).

(** ** What every result of the sweep satisfies *)








(** The members of all partitions, in order. *)
Definition members (r : SweepResult) : list BufferIdx :=
  concat (map buffer_idxs (partitions r)).

(** A collaborator that answers the sum of the two sizes for every pair. *)
Definition size_sum (a b : Buffer) : option Z := Some (size a + size b).


(** Buffer A = [0,10) and a buffer B whose lifespan [5,5) is empty. *)
Definition empty_lifespan_problem : Problem :=
  mkProblem
    [ mkBuffer (mkInterval 0 10) 4 []; mkBuffer (mkInterval 5 5) 4 [] ].

(** The result of sweeping it: buffer B has no span. *)
Definition empty_lifespan_result : SweepResult :=
  Eval vm_compute in
    match Sweep no_conflict empty_lifespan_problem with
    | Some r => r
    | None => empty_result
    end.

(** ** Buffers that have ended, partitions that have members *)

(** The buffer has met its true end. *)
Definition ended (s : Status) : bool :=
  match s with Dead _ | Done => true | _ => false end.

(** Every buffer that has ended has a span, and every partition a member. *)
Definition Settled (sigma : BufferIdx -> Status) (st : SweepState) : Prop :=
  (forall b d, nth_error (buffer_data (result st)) b = Some d ->
               ended (sigma b) = true -> section_spans d <> []) /\
  Forall (fun q => buffer_idxs q <> []) (partitions (result st)).

(** ** The active set along the sweep *)

Definition opened (s : Status) : bool :=
  match s with Opened _ => true | _ => false end.

(** The active buffers are those with a span open after their true
    start. *)
Definition Act (sigma : BufferIdx -> Status) (st : SweepState) : Prop :=
  StronglySorted lt (actives st) /\
  forall a, In a (actives st) <-> opened (sigma a) = true.

(** The lifespans of two buffers share a time. *)
Definition lifespans_meet (a b : Buffer) : Prop :=
  lower (lifespan a) < upper (lifespan b) /\
  lower (lifespan b) < upper (lifespan a).

(** The result of the two-overlapping-buffers scenario when the collaborator
    answers the sum of the sizes. *)
Definition two_overlapping_sum_result : SweepResult :=
  Eval vm_compute in
    match Sweep size_sum two_overlapping_problem with
    | Some r => r
    | None => empty_result
    end.

(** ** Sections against partitions *)

(** The sections with index in [lo, hi) hold only buffers of [idxs]. *)
Definition sec_in (secs : list Section) (lo hi : Z) (idxs : list BufferIdx)
  : Prop :=
  forall (k : nat) s a,
    lo <= Z.of_nat k < hi -> nth_error secs k = Some s -> In a s ->
    In a idxs.

(** A partition whose range is set: it ends within the sections recorded
    and its sections hold only its members. *)
Definition closed_ok (secs : list Section) (q : Partition) : Prop :=
  upper (section_range q) <= Z.of_nat (length secs) /\
  sec_in secs (lower (section_range q)) (upper (section_range q))
    (buffer_idxs q).

(** The partitions [ps0] are closed; [cur] are the members of the partition
    being built, if any.  The active buffers are alive, the alive buffers
    are members of the partition being built, and so are the buffers of the
    sections recorded since the last partition was closed. *)
Definition Indep (st : SweepState) : Prop :=
  exists ps0 cur,
    ((alive st = [] /\ partitions (result st) = ps0 /\ cur = []) \/
     (alive st <> [] /\
      exists q, partitions (result st) = ps0 ++ [q] /\
                cur = buffer_idxs q)) /\
    Forall (closed_ok (sections (result st))) ps0 /\
    (forall a, In a (alive st) -> In a cur) /\
    StronglySorted lt (actives st) /\
    (forall a, In a (actives st) -> In a (alive st)) /\
    sec_in (sections (result st)) (last_section_idx st)
      (Z.of_nat (length (sections (result st)))) cur.

(** ** Spans against partitions *)





(** * Properties *)

(** ** Ordered sets, conversions and sequences of ranges *)

Lemma set_insert_In x y s : In x (set_insert y s) <-> x = y \/ In x s.
Proof.
  induction s as [|z s IH]; simpl.
  - intuition congruence.
  - destruct (y <? z)%nat eqn:E1; simpl; [ intuition congruence | ].
    destruct (y =? z)%nat eqn:E2; simpl.
    + apply Nat.eqb_eq in E2. subst. intuition congruence.
    + rewrite IH. intuition congruence.
Qed.

Lemma set_insert_sorted y s :
  StronglySorted lt s -> StronglySorted lt (set_insert y s).
Proof.
  induction 1 as [|z s Hs IH Hz]; simpl.
  - repeat constructor.
  - destruct (y <? z)%nat eqn:E1.
    + apply Nat.ltb_lt in E1. constructor; [ constructor; assumption | ].
      constructor; [ exact E1 | ].
      eapply Forall_impl; [ | exact Hz ]. simpl. intros. lia.
    + destruct (y =? z)%nat eqn:E2; [ constructor; assumption | ].
      apply Nat.ltb_ge in E1. apply Nat.eqb_neq in E2.
      constructor; [ exact IH | ].
      apply Forall_forall. intros x Hx. apply set_insert_In in Hx.
      destruct Hx as [-> | Hx]; [ lia | ].
      rewrite Forall_forall in Hz. apply Hz, Hx.
Qed.

Lemma set_insert_not_nil y s : set_insert y s <> [].
Proof.
  destruct s as [|z s]; simpl; [ discriminate | ].
  destruct (y <? z)%nat; [ discriminate | ].
  destruct (y =? z)%nat; discriminate.
Qed.

Lemma set_erase_subset x y s : In x (set_erase y s) -> In x s.
Proof.
  induction s as [|z s IH]; simpl; [ tauto | ].
  destruct (y =? z)%nat; simpl; tauto.
Qed.

Lemma set_erase_In x y s :
  StronglySorted lt s -> (In x (set_erase y s) <-> x <> y /\ In x s).
Proof.
  induction 1 as [|z s Hs IH Hz]; simpl; [ tauto | ].
  rewrite Forall_forall in Hz.
  destruct (y =? z)%nat eqn:E.
  - apply Nat.eqb_eq in E. subst z. split.
    + intro Hx. split; [ | tauto ]. apply Hz in Hx. lia.
    + intros [Hne [-> | Hx]]; [ congruence | exact Hx ].
  - apply Nat.eqb_neq in E. simpl. rewrite IH. split.
    + intros [-> | [Hne Hx]]; auto.
    + intros [Hne [-> | Hx]]; auto.
Qed.

Lemma set_erase_sorted y s :
  StronglySorted lt s -> StronglySorted lt (set_erase y s).
Proof.
  induction 1 as [|z s Hs IH Hz]; simpl; [ constructor | ].
  destruct (y =? z)%nat; [ exact Hs | ].
  constructor; [ exact IH | ].
  apply Forall_forall. intros x Hx. apply set_erase_subset in Hx.
  rewrite Forall_forall in Hz. apply Hz, Hx.
Qed.

Lemma to_int_small n : Z.of_nat n < 2 ^ 31 -> to_int n = Z.of_nat n.
Proof.
  intro H. unfold to_int.
  rewrite Z.mod_small by lia.
  destruct (Z.of_nat n <? 2 ^ 31) eqn:E; [ reflexivity | ].
  apply Z.ltb_ge in E. lia.
Qed.

Lemma last_opt_app {A} (l : list A) x : last_opt (l ++ [x]) = Some x.
Proof.
  induction l as [|y l IH]; simpl; [ reflexivity | ].
  rewrite IH. destruct (l ++ [x]) eqn:E; [ | reflexivity ].
  destruct l; discriminate.
Qed.

Lemma now_app l e : now (l ++ [e]) = time_value e.
Proof. unfold now. rewrite last_opt_app. reflexivity. Qed.

Lemma increasing_from_app l : forall lo r,
  increasing_from lo l ->
  last_upper lo l <= lower r -> lower r < upper r ->
  increasing_from lo (l ++ [r]).
Proof.
  induction l as [|x l IH]; simpl; intros lo r H Hl Hr.
  - auto.
  - destruct H as (H1 & H2 & H3). auto.
Qed.

Lemma last_upper_app l : forall lo r, last_upper lo (l ++ [r]) = upper r.
Proof.
  induction l as [|x l IH]; simpl; intros lo r; auto.
Qed.

Lemma chain_app l : forall lo mid hi,
  chain lo l mid -> mid <= hi -> chain lo (l ++ [mkInterval mid hi]) hi.
Proof.
  induction l as [|x l IH]; simpl; intros lo mid hi H Hle.
  - subst. auto.
  - destruct H as (H1 & H2 & H3). auto.
Qed.

Lemma upd_back_inv {A} (l l' : list A) f :
  upd_back l f = Some l' ->
  exists ps q, l = ps ++ [q] /\ l' = ps ++ [f q].
Proof.
  revert l'. induction l as [|y l IH]; simpl; intros l' H; [ discriminate | ].
  destruct l as [|z l].
  - injection H as <-. exists [], y. auto.
  - destruct (upd_back (z :: l) f) as [r|]; [ | discriminate ].
    injection H as <-.
    destruct (IH r eq_refl) as (ps & q & E1 & E2).
    exists (y :: ps), q. simpl. rewrite E1, E2. auto.
Qed.

Lemma upd_back_app {A} (ps : list A) q f :
  upd_back (ps ++ [q]) f = Some (ps ++ [f q]).
Proof.
  induction ps as [|y ps IH]; simpl; [ reflexivity | ].
  rewrite IH. destruct (ps ++ [q]) eqn:E; [ | reflexivity ].
  destruct ps; discriminate.
Qed.

(** ** Evaluating the loop on concrete problems *)

Lemma run_cons es problem st p pts st1 :
  step es problem st p = Some st1 ->
  run es problem st (p :: pts) = run es problem st1 pts.
Proof. intro H. simpl. rewrite H. reflexivity. Qed.

Ltac run_step := erewrite run_cons by (vm_compute; reflexivity).

(** A step in which the collaborator is consulted: its two answers are
    supplied as equations. *)
Ltac run_step_with E1 E2 :=
  erewrite run_cons by (cbn; rewrite ?E1, ?E2; vm_compute; reflexivity).

(** C1 (code at the scenario's input): for the buffer with lifespan [0,10),
    size 10 and the gap [3,7) of window {0,2}, the sweep records three spans
    [0,1), [1,2), [2,3); the middle span, which covers the gap, carries the
    full window {0,10} and the last span, after the gap, carries the gap's
    window {0,2}. *)
Theorem windowed_gap_spans_shifted :
  forall es : Buffer -> Buffer -> option Z,
  exists r,
    Sweep es windowed_gap_problem = Some r /\
    span_ranges r 0%nat = [mkInterval 0 1; mkInterval 1 2; mkInterval 2 3] /\
    span_windows r 0%nat = [mkInterval 0 10; mkInterval 0 10; mkInterval 0 2].
Proof.
  intro es. eexists. split; [ vm_compute; reflexivity | ].
  split; vm_compute; reflexivity.
Qed.

Lemma two_overlapping_run (es : Buffer -> Buffer -> option Z) :
  exists r,
    Sweep es two_overlapping_problem = Some r /\
    sections r = [[0%nat; 1%nat]; [1%nat]] /\
    partitions r = [mkPartition [0%nat; 1%nat] (mkInterval 0 2)] /\
    CalculateCuts r = Some [1].
Proof.
  unfold Sweep, sweep_points.
  replace (sorted_points two_overlapping_problem)
    with [ mkPoint 0%nat 0 kLeft None; mkPoint 1%nat 5 kLeft None;
           mkPoint 0%nat 10 kRight None; mkPoint 1%nat 15 kRight None ]
    by (vm_compute; reflexivity).
  destruct (es (mkBuffer (mkInterval 0 10) 4 [])
              (mkBuffer (mkInterval 5 15) 4 [])) as [s1|] eqn:E1;
    destruct (es (mkBuffer (mkInterval 5 15) 4 [])
                (mkBuffer (mkInterval 0 10) 4 [])) as [s2|] eqn:E2.
  all: run_step; run_step_with E1 E2; run_step; run_step.
  all: eexists; split; [ reflexivity | ].
  all: split; [ reflexivity | split; [ reflexivity | vm_compute; reflexivity ] ].
Qed.

(** C3 (as stated, refuted): the sweep of A = [0,10), B = [5,15) does not
    produce the three sections {A}, {A,B}, {B} with a partition over three
    sections and two cut counts. *)
Lemma two_overlapping_not_three_sections :
  ~ exists (es : Buffer -> Buffer -> option Z) (r : SweepResult),
      Sweep es two_overlapping_problem = Some r /\
      sections r = [[0%nat]; [0%nat; 1%nat]; [1%nat]] /\
      (exists q, partitions r = [q] /\ section_range q = mkInterval 0 3) /\
      CalculateCuts r = Some [1; 1].
Proof.
  intros (es & r & Hr & Hs & _).
  destruct (two_overlapping_run es) as (r' & Hr' & Hs' & _).
  rewrite Hr in Hr'. injection Hr' as <-.
  rewrite Hs in Hs'. discriminate Hs'.
Qed.

(** C3 (amended): the sweep of A = [0,10), B = [5,15), both of size 4,
    produces exactly the two sections {A,B}, {B}, exactly one partition,
    holding A and B and spanning both sections, and [CalculateCuts] returns
    exactly one entry, equal to 1. *)
Theorem two_overlapping_sweep :
  forall es : Buffer -> Buffer -> option Z,
  exists r,
    Sweep es two_overlapping_problem = Some r /\
    sections r = [[0%nat; 1%nat]; [1%nat]] /\
    partitions r = [mkPartition [0%nat; 1%nat] (mkInterval 0 2)] /\
    CalculateCuts r = Some [1].
Proof. exact two_overlapping_run. Qed.

(** ** The order of the events *)

Lemma Point_lt_true a b : Point_lt a b = true -> event_le a b.
Proof.
  unfold Point_lt, event_le, tier.
  destruct (time_value a =? time_value b) eqn:Et; simpl.
  - apply Z.eqb_eq in Et.
    destruct (point_type a), (point_type b); simpl; intro H;
      try discriminate; try apply Nat.ltb_lt in H; lia.
  - intro H. apply Z.ltb_lt in H. left. exact H.
Qed.

Lemma Point_lt_false a b : Point_lt a b = false -> event_le b a.
Proof.
  unfold Point_lt, event_le, tier.
  destruct (time_value a =? time_value b) eqn:Et; simpl.
  - apply Z.eqb_eq in Et.
    destruct (point_type a), (point_type b); simpl; intro H;
      try discriminate; try apply Nat.ltb_ge in H; lia.
  - apply Z.eqb_neq in Et. intro H. apply Z.ltb_ge in H. left. lia.
Qed.

Lemma event_le_trans a b c : event_le a b -> event_le b c -> event_le a c.
Proof. unfold event_le. intros H1 H2. lia. Qed.

Lemma sort_insert_In p l x : In x (sort_insert p l) <-> x = p \/ In x l.
Proof.
  induction l as [|y l IH]; simpl.
  - intuition congruence.
  - destruct (Point_lt y p); simpl; [ rewrite IH | ]; intuition congruence.
Qed.

Lemma sort_insert_sorted p l :
  StronglySorted event_le l -> StronglySorted event_le (sort_insert p l).
Proof.
  induction 1 as [|y l Hs IH Hy]; simpl.
  - constructor; constructor.
  - destruct (Point_lt y p) eqn:E.
    + constructor; [ exact IH | ].
      apply Forall_forall. intros x Hx. apply sort_insert_In in Hx.
      destruct Hx as [-> | Hx].
      * apply Point_lt_true, E.
      * rewrite Forall_forall in Hy. apply Hy, Hx.
    + constructor; [ constructor; assumption | ].
      apply Point_lt_false in E. constructor; [ exact E | ].
      eapply Forall_impl; [ | exact Hy ].
      intros x Hx. eapply event_le_trans; eassumption.
Qed.

Lemma sort_points_sorted l : StronglySorted event_le (sort_points l).
Proof.
  induction l as [|p l IH]; simpl.
  - constructor.
  - apply sort_insert_sorted, IH.
Qed.

Lemma sort_insert_perm p l : Permutation (p :: l) (sort_insert p l).
Proof.
  induction l as [|y l IH]; simpl.
  - reflexivity.
  - destruct (Point_lt y p).
    + rewrite perm_swap. apply perm_skip, IH.
    + reflexivity.
Qed.

Lemma sort_points_perm l : Permutation l (sort_points l).
Proof.
  induction l as [|p l IH]; simpl.
  - reflexivity.
  - rewrite <- sort_insert_perm. apply perm_skip, IH.
Qed.

(** C6: the sequence of events the sweep loop consumes holds exactly the
    generated events and is sorted by time ascending, then by tier
    (gap start < true end < true start < gap end, the window playing no
    part), then by buffer index ascending. *)
Theorem sorted_points_ordered (problem : Problem) :
  StronglySorted event_le (sorted_points problem) /\
  Permutation (make_points problem) (sorted_points problem) /\
  (forall es, Sweep es problem = sweep_points es problem (sorted_points problem)).
Proof.
  split; [ apply sort_points_sorted | ].
  split; [ apply sort_points_perm | reflexivity ].
Qed.

(** ** The shape of one loop iteration *)

Ltac break_match H :=
  repeat match type of H with
    | context [match ?x with _ => _ end] =>
        destruct x eqn:?; try discriminate H
    end.

Lemma step_inv es problem st p st' :
  step es problem st p = Some st' ->
  exists buffer st1 st2 st3 st4 st5,
    nth_error (buffers problem) (buffer_idx p) = Some buffer /\
    reset_window p buffer (init_time p st) = Some st1 /\
    close_span p (erase_buffer p (flush_section p st1)) = Some st2 /\
    override_window p st2 = Some st3 /\
    join_partition p (open_partition p st3) = Some st4 /\
    record_overlaps es problem p buffer st4 = Some st5 /\
    open_span p (insert_buffer p st5) = Some st'.
Proof.
  unfold step. intro H.
  destruct (nth_error (buffers problem) (buffer_idx p)) as [b|];
    [ | discriminate ].
  destruct (reset_window p b (init_time p st)) as [st1|] eqn:E1;
    [ | discriminate ].
  destruct (close_span p (erase_buffer p (flush_section p st1)))
    as [st2|] eqn:E2; [ | discriminate ].
  destruct (override_window p st2) as [st3|] eqn:E3; [ | discriminate ].
  destruct (join_partition p (open_partition p st3)) as [st4|] eqn:E4;
    [ | discriminate ].
  destruct (record_overlaps es problem p b st4) as [st5|] eqn:E5;
    [ | discriminate ].
  exists b, st1, st2, st3, st4, st5. repeat split; assumption.
Qed.

Lemma with_windows_eta st : with_windows st (buffer_idx_to_window st) = st.
Proof. destruct st; reflexivity. Qed.

Lemma with_partitions_eta st : with_partitions st (partitions (result st)) = st.
Proof. destruct st as [? ? ? ? ? ? []]; reflexivity. Qed.

Lemma with_buffer_data_eta st :
  with_buffer_data st (buffer_data (result st)) = st.
Proof. destruct st as [? ? ? ? ? ? []]; reflexivity. Qed.

Lemma with_starts_eta st :
  with_starts st (buffer_idx_to_section_start st) = st.
Proof. destruct st; reflexivity. Qed.

Lemma reset_window_frame p b st st' :
  reset_window p b st = Some st' ->
  st' = with_windows st (buffer_idx_to_window st').
Proof.
  unfold reset_window. intro H. break_match H; injection H as <-.
  - reflexivity.
  - symmetry. apply with_windows_eta.
Qed.

Lemma override_window_frame p st st' :
  override_window p st = Some st' ->
  st' = with_windows st (buffer_idx_to_window st').
Proof.
  unfold override_window. intro H.
  break_match H; injection H as <-;
    solve [ reflexivity | symmetry; apply with_windows_eta ].
Qed.

Lemma join_partition_frame p st st' :
  join_partition p st = Some st' ->
  st' = with_partitions st (partitions (result st')).
Proof.
  unfold join_partition. intro H. break_match H; injection H as <-.
  - reflexivity.
  - symmetry. apply with_partitions_eta.
Qed.

Lemma record_overlaps_frame es problem p b st st' :
  record_overlaps es problem p b st = Some st' ->
  st' = with_buffer_data st (buffer_data (result st')).
Proof.
  unfold record_overlaps. intro H. break_match H; injection H as <-.
  - reflexivity.
  - symmetry. apply with_buffer_data_eta.
Qed.

Lemma open_span_frame p st st' :
  open_span p st = Some st' ->
  st' = with_starts st (buffer_idx_to_section_start st').
Proof.
  unfold open_span. intro H. break_match H; injection H as <-.
  - reflexivity.
  - symmetry. apply with_starts_eta.
Qed.

Lemma close_partition_frame st st' :
  close_partition st = Some st' ->
  st' = with_idx (with_partitions st (partitions (result st')))
          (last_section_idx st').
Proof.
  unfold close_partition. intro H. break_match H; injection H as <-;
    solve [ reflexivity | destruct st as [? ? ? ? ? ? []]; reflexivity ].
Qed.

Lemma close_span_frame p st st' :
  close_span p st = Some st' ->
  actives st' = actives st /\ alive st' = alive st /\
  last_section_time st' = last_section_time st /\
  buffer_idx_to_window st' = buffer_idx_to_window st /\
  sections (result st') = sections (result st).
Proof.
  unfold close_span. intro H. break_match H; try (injection H as <-; tauto).
  injection H as <-.
  match goal with E : close_partition _ = Some _ |- _ =>
    apply close_partition_frame in E; rewrite E end.
  simpl. tauto.
Qed.

Lemma flush_section_sections p st :
  sections (result (flush_section p st)) =
    if closes p && (last_section_time st <? time_value p)
    then sections (result st) ++ [actives st]
    else sections (result st).
Proof.
  unfold flush_section.
  destruct (closes p); simpl; [ | reflexivity ].
  destruct (last_section_time st <? time_value p); reflexivity.
Qed.

Lemma erase_buffer_sections p st :
  sections (result (erase_buffer p st)) = sections (result st).
Proof.
  unfold erase_buffer.
  destruct (isRight p), (isEmptyRightGap p); reflexivity.
Qed.

Lemma open_partition_sections p st :
  sections (result (open_partition p st)) = sections (result st).
Proof.
  unfold open_partition.
  destruct (activates p); [ destruct (alive st) | ]; reflexivity.
Qed.

Lemma insert_buffer_sections p st :
  sections (result (insert_buffer p st)) = sections (result st).
Proof.
  unfold insert_buffer. destruct (activates p), (isLeft p); reflexivity.
Qed.

Lemma step_sections es problem st p st' :
  step es problem st p = Some st' ->
  sections (result st') =
    if closes p && (last_section_time (init_time p st) <? time_value p)
    then sections (result st) ++ [actives st]
    else sections (result st).
Proof.
  intro H. apply step_inv in H.
  destruct H as (b & st1 & st2 & st3 & st4 & st5 & _ & H1 & H2 & H3 & H4 & H5 & H6).
  rewrite (open_span_frame _ _ _ H6). simpl.
  rewrite insert_buffer_sections.
  rewrite (record_overlaps_frame _ _ _ _ _ _ H5). simpl.
  rewrite (join_partition_frame _ _ _ H4). simpl.
  rewrite open_partition_sections.
  rewrite (override_window_frame _ _ _ H3). simpl.
  destruct (close_span_frame _ _ _ H2) as (_ & _ & _ & _ & ->).
  rewrite erase_buffer_sections, flush_section_sections.
  rewrite (reset_window_frame _ _ _ _ H1). simpl.
  unfold init_time. destruct (last_section_time st =? -1); reflexivity.
Qed.

Lemma activates_not_closes p : activates p = true -> closes p = false.
Proof.
  unfold activates, closes, isLeft, isRight, isEmptyLeftGap,
    isEmptyRightGap, isWindowedLeftGap, isWindowedRightGap.
  destruct (point_type p), (window p); simpl; congruence.
Qed.

(** C5: one iteration of the loop either leaves the sections as they are or
    appends exactly one section, the [actives] set as it stands when the
    event is reached; it appends only at a true end, an empty gap start, a
    windowed gap start or a windowed gap end whose time is strictly greater
    than the recorded last-flush time, and never at a true start or an empty
    gap end. *)
Theorem section_appended_only_on_shrink es problem st p st' :
  step es problem st p = Some st' ->
  (sections (result st') = sections (result st) \/
   (sections (result st') = sections (result st) ++ [actives st] /\
    (isRight p = true \/ isEmptyRightGap p = true \/
     isWindowedRightGap p = true \/ isWindowedLeftGap p = true) /\
    last_section_time st < time_value p)) /\
  (isLeft p = true \/ isEmptyLeftGap p = true ->
   sections (result st') = sections (result st)).
Proof.
  intro H. apply step_sections in H. split.
  - destruct (closes p) eqn:Ec; simpl in H; [ | left; exact H ].
    destruct (last_section_time (init_time p st) <? time_value p) eqn:Et;
      [ | left; exact H ].
    right. split; [ exact H | ]. split.
    + unfold closes in Ec.
      destruct (isRight p), (isEmptyRightGap p), (isWindowedRightGap p),
        (isWindowedLeftGap p); simpl in Ec; try discriminate; tauto.
    + apply Z.ltb_lt in Et. unfold init_time in Et.
      destruct (last_section_time st =? -1) eqn:E1; simpl in Et; lia.
  - intro Ha.
    assert (Hc : closes p = false).
    { apply activates_not_closes. unfold activates.
      destruct Ha as [-> | ->]; [ reflexivity | apply orb_true_r ]. }
    rewrite Hc in H. exact H.
Qed.

(** A flushing iteration: the gap start at time 3 of the windowed-gap
    scenario, reached after the true start at time 0. *)
Lemma section_appended_only_on_shrink_witness :
  step no_conflict windowed_gap_problem state_before_gap gap_start_point
    = Some state_in_gap /\
  sections (result state_in_gap) = [[0%nat]] /\
  ((sections (result state_in_gap) = sections (result state_before_gap) \/
    (sections (result state_in_gap)
       = sections (result state_before_gap) ++ [actives state_before_gap] /\
     (isRight gap_start_point = true \/
      isEmptyRightGap gap_start_point = true \/
      isWindowedRightGap gap_start_point = true \/
      isWindowedLeftGap gap_start_point = true) /\
     last_section_time state_before_gap < time_value gap_start_point)) /\
   (isLeft gap_start_point = true \/ isEmptyLeftGap gap_start_point = true ->
    sections (result state_in_gap) = sections (result state_before_gap))).
Proof.
  split; [ vm_compute; reflexivity | ].
  split; [ reflexivity | ].
  apply (section_appended_only_on_shrink no_conflict windowed_gap_problem).
  vm_compute. reflexivity.
Defined.

(** ** Cut counts *)

Lemma vec_set_length {A} (l : list A) i x : length (vec_set l i x) = length l.
Proof.
  revert i. induction l as [|y l IH]; intros [|i]; simpl; auto.
Qed.

Lemma vec_set_nth_error_eq {A} (l : list A) i x :
  (i < length l)%nat -> nth_error (vec_set l i x) i = Some x.
Proof.
  revert i. induction l as [|y l IH]; intros [|i]; simpl; intro H;
    try lia; auto. apply IH. lia.
Qed.

Lemma vec_set_nth_error_neq {A} (l : list A) i j x :
  i <> j -> nth_error (vec_set l i x) j = nth_error l j.
Proof.
  revert i j. induction l as [|y l IH]; intros [|i] [|j]; simpl; intro H;
    try congruence; auto.
Qed.

Lemma vec_upd_some {A} (l : list A) i f :
  (i < length l)%nat -> exists y,
    nth_error l i = Some y /\ vec_upd l i f = Some (vec_set l i (f y)).
Proof.
  intro H. unfold vec_upd.
  destruct (nth_error l i) as [y|] eqn:E.
  - exists y. auto.
  - apply nth_error_None in E. lia.
Qed.

Lemma vec_upd_inv {A} (l l' : list A) i f :
  vec_upd l i f = Some l' ->
  exists y, nth_error l i = Some y /\ l' = vec_set l i (f y) /\
            (i < length l)%nat.
Proof.
  unfold vec_upd. destruct (nth_error l i) as [y|] eqn:E; [ | discriminate ].
  intro H. injection H as <-. exists y. repeat split.
  apply nth_error_Some. congruence.
Qed.

















(** ** Activation: pairing and insertion *)

Lemma Overlap_lt_neither o y :
  Overlap_lt o y = false -> Overlap_lt y o = false -> o = y.
Proof.
  unfold Overlap_lt. destruct o as [i s], y as [j t]; simpl.
  rewrite (Nat.eqb_sym j i).
  destruct (i =? j)%nat eqn:E; simpl; intros H1 H2.
  - apply Nat.eqb_eq in E. apply Z.ltb_ge in H1, H2. f_equal; lia.
  - apply Nat.eqb_neq in E. apply Nat.ltb_ge in H1, H2. lia.
Qed.

Lemma overlaps_insert_In o s x :
  In x (overlaps_insert o s) <-> x = o \/ In x s.
Proof.
  induction s as [|y s IH]; simpl.
  - intuition congruence.
  - destruct (Overlap_lt o y) eqn:E1; simpl; [ intuition congruence | ].
    destruct (Overlap_lt y o) eqn:E2; simpl.
    + rewrite IH. intuition congruence.
    + pose proof (Overlap_lt_neither o y E1 E2). subst. intuition congruence.
Qed.

Lemma overlaps_of_upd d i o d' :
  vec_upd d i (push_overlap o) = Some d' ->
  forall j x, In x (overlaps_of d' j) <->
              (j = i /\ x = o) \/ In x (overlaps_of d j).
Proof.
  intros H j x. apply vec_upd_inv in H. destruct H as (y & Hy & -> & Hi).
  unfold overlaps_of. destruct (Nat.eq_dec i j) as [<- | Hne].
  - rewrite vec_set_nth_error_eq by exact Hi. rewrite Hy. simpl.
    rewrite overlaps_insert_In. intuition congruence.
  - rewrite vec_set_nth_error_neq by exact Hne. intuition congruence.
Qed.

Lemma pair_with_spec es problem idx buffer d a d' :
  pair_with es problem idx buffer d a = Some d' ->
  exists active,
    nth_error (buffers problem) a = Some active /\
    forall j x, In x (overlaps_of d' j) <->
      (j = a /\ exists s, es active buffer = Some s /\ x = mkOverlap idx s) \/
      (j = idx /\ exists s, es buffer active = Some s /\ x = mkOverlap a s) \/
      In x (overlaps_of d j).
Proof.
  unfold pair_with. intro H.
  destruct (nth_error (buffers problem) a) as [active|]; [ | discriminate ].
  exists active. split; [ reflexivity | ]. intros j x.
  destruct (es active buffer) as [s1|] eqn:E1.
  - destruct (vec_upd d a (push_overlap (mkOverlap idx s1))) as [d1|] eqn:U1;
      [ | discriminate ].
    pose proof (overlaps_of_upd _ _ _ _ U1) as P1.
    destruct (es buffer active) as [s2|] eqn:E2.
    + pose proof (overlaps_of_upd _ _ _ _ H) as P2.
      rewrite P2, P1. split.
      * intros [[-> ->] | [[-> ->] | Hx]]; eauto 8.
      * intros [[-> (s & Hs & ->)] | [[-> (s & Hs & ->)] | Hx]];
          try (injection Hs as <-); auto.
    + injection H as <-. rewrite P1. split.
      * intros [[-> ->] | Hx]; eauto 8.
      * intros [[-> (s & Hs & ->)] | [[-> (s & Hs & _)] | Hx]];
          try discriminate; try (injection Hs as <-); auto.
  - destruct (es buffer active) as [s2|] eqn:E2.
    + pose proof (overlaps_of_upd _ _ _ _ H) as P2.
      rewrite P2. split.
      * intros [[-> ->] | Hx]; eauto 8.
      * intros [[-> (s & Hs & _)] | [[-> (s & Hs & ->)] | Hx]];
          try discriminate; try (injection Hs as <-); auto.
    + injection H as <-. split; [ auto | ].
      intros [[_ (s & Hs & _)] | [[_ (s & Hs & _)] | Hx]];
        try discriminate; auto.
Qed.

(** After the pairing loop the overlap sets hold what they held before and,
    for every buffer [a] of the iterated set, the entries the collaborator
    answered in either direction. *)
Lemma pair_all_spec es problem idx buffer acts : forall d d',
  pair_all es problem idx buffer d acts = Some d' ->
  forall j x, In x (overlaps_of d' j) <->
    (exists a active s, In a acts /\
       nth_error (buffers problem) a = Some active /\
       ((j = a /\ es active buffer = Some s /\ x = mkOverlap idx s) \/
        (j = idx /\ es buffer active = Some s /\ x = mkOverlap a s))) \/
    In x (overlaps_of d j).
Proof.
  induction acts as [|a acts IH]; simpl; intros d d' H j x.
  - injection H as <-. split; [ auto | ].
    intros [(a & _ & _ & [] & _) | Hx]. exact Hx.
  - destruct (pair_with es problem idx buffer d a) as [d1|] eqn:E;
      [ | discriminate ].
    apply pair_with_spec in E. destruct E as (active & Ha & P1).
    rewrite (IH _ _ H), P1. split.
    + intros [(a' & act' & s & Hin & Hn & Hc) | [Hc | [Hc | Hx]]].
      * left. exists a', act', s. simpl. tauto.
      * destruct Hc as (-> & s & Hs & ->). left. exists a, active, s.
        simpl. tauto.
      * destruct Hc as (-> & s & Hs & ->). left. exists a, active, s.
        simpl. tauto.
      * auto.
    + intros [(a' & act' & s & [<- | Hin] & Hn & Hc) | Hx].
      * rewrite Ha in Hn. injection Hn as <-.
        destruct Hc as [(-> & Hs & ->) | (-> & Hs & ->)]; eauto 8.
      * left. exists a', act', s. tauto.
      * auto.
Qed.

Lemma insert_buffer_result p st : result (insert_buffer p st) = result st.
Proof.
  unfold insert_buffer. destruct (activates p), (isLeft p); reflexivity.
Qed.

Lemma activates_kinds p :
  isLeft p = true \/ isEmptyLeftGap p = true ->
  closes p = false /\ isRight p = false /\ isEmptyRightGap p = false /\
  isWindowedRightGap p = false /\ isWindowedLeftGap p = false /\
  activates p = true /\ opens p = true.
Proof.
  unfold closes, activates, opens, isLeft, isRight, isEmptyLeftGap,
    isEmptyRightGap, isWindowedLeftGap, isWindowedRightGap.
  destruct (point_type p), (window p); simpl; intros [H | H];
    try discriminate; repeat split.
Qed.




(** ** A buffer inside another buffer's empty gap *)



(** ** The invariant through the parts of one iteration *)

Lemma parts_ok_quiet alv ps lidx nsec (quiet quiet' : Prop) :
  (quiet' -> quiet) ->
  parts_ok alv ps lidx nsec quiet -> parts_ok alv ps lidx nsec quiet'.
Proof.
  unfold parts_ok. intros Hq. destruct alv; [ | tauto ].
  intros (H1 & H2 & H3). auto.
Qed.

Lemma Inv_ext n sigma sigma' N t st :
  (forall b, sigma b = sigma' b) -> Inv n sigma N t st -> Inv n sigma' N t st.
Proof.
  intros E [H1 H2 H3 H4 H5 H6 H7 H8 Hd H9 H10 H11].
  constructor; auto.
  - intro b. rewrite <- E. apply H6.
  - destruct H8 as (Ha & Hb & Hc). repeat split; auto.
    intros Hl b. rewrite <- E. auto.
  - intros b t0. rewrite <- E. apply Hd.
  - intros b s Hs. rewrite <- E. exact (H9 b s Hs).
  - eapply parts_ok_quiet; [ | exact H11 ].
    intros Hq b. rewrite E. apply Hq.
Qed.

Lemma Inv_weaken n sigma N N' t st :
  N <= N' -> Inv n sigma N t st -> Inv n sigma N' t st.
Proof.
  intros HN [H1 H2 H3 H4 H5 H6 H7 H8 Hd H9 H10 H11].
  constructor; auto. lia.
Qed.

Lemma upd_status_same sigma b x : upd_status sigma b x b = x.
Proof. unfold upd_status. rewrite Nat.eqb_refl. reflexivity. Qed.

Lemma upd_status_other sigma b x b' :
  b' <> b -> upd_status sigma b x b' = sigma b'.
Proof.
  intro H. unfold upd_status.
  destruct (b' =? b)%nat eqn:E; [ apply Nat.eqb_eq in E; congruence | ].
  reflexivity.
Qed.

Lemma upd_status_twice sigma b x y b' :
  upd_status (upd_status sigma b x) b y b' = upd_status sigma b y b'.
Proof. unfold upd_status. destruct (b' =? b)%nat; reflexivity. Qed.

Lemma init_time_inv n sigma N tnow st e :
  Inv n sigma N tnow st ->
  tnow <= time_value e -> 0 <= time_value e ->
  Inv n sigma N (time_value e) (init_time e st) /\
  0 <= last_section_time (init_time e st).
Proof.
  intros [H1 H2 H3 H4 H5 H6 H7 (Ha & Hb & Hc) Hd H9 H10 H11] Ht H0.
  unfold init_time. destruct (last_section_time st =? -1) eqn:E.
  - apply Z.eqb_eq in E. split; [ | simpl; lia ].
    constructor; simpl; auto.
    + repeat split; try lia.
    + intros b t0 Hb0. rewrite (Hc E b) in Hb0. discriminate.
    + intros b s Hs. specialize (H9 b s Hs). rewrite (Hc E b) in *. exact H9.
  - apply Z.eqb_neq in E. split; [ | lia ].
    constructor; simpl; auto.
    repeat split; auto; lia.
Qed.

Lemma with_windows_inv n sigma N t st v :
  Inv n sigma N t st -> length v = n -> Inv n sigma N t (with_windows st v).
Proof.
  intros [H1 H2 H3 H4 H5 H6 H7 H8 Hd H9 H10 H11] Hv.
  constructor; simpl; auto.
Qed.

Lemma open_span_inv n sigma N t st e b :
  Inv n sigma N t st ->
  0 <= last_section_time st ->
  opens e = true -> buffer_idx e = b -> (b < n)%nat ->
  N < 2 ^ 31 ->
  exists st', open_span e st = Some st' /\
    Inv n (upd_status sigma b (open_status (sigma b) t)) N t st'.
Proof.
  intros [H1 H2 H3 H4 H5 H6 H7 (Ha & Hb & Hc) Hd H9 H10 H11]
    Hl0 Ho Eb Hn HN.
  unfold open_span. rewrite Ho, Eb.
  destruct (vec_upd_some (buffer_idx_to_section_start st) b
              (fun _ => to_int (length (sections (result st)))))
    as (y & Hy & ->); [ lia | ].
  eexists. split; [ reflexivity | ].
  rewrite to_int_small by lia.
  constructor; simpl; auto.
  - rewrite vec_set_length. exact H1.
  - intro b'. rewrite H6. destruct (Nat.eq_dec b' b) as [-> | Hne].
    + rewrite upd_status_same. destruct (sigma b); simpl; tauto.
    + rewrite upd_status_other by exact Hne. tauto.
  - repeat split; auto. intro Hl. lia.
  - intros b' t0. destruct (Nat.eq_dec b' b) as [-> | Hne].
    + rewrite upd_status_same. destruct (sigma b); discriminate.
    + rewrite upd_status_other by exact Hne. apply Hd.
  - intros b' s Hs'. destruct (Nat.eq_dec b' b) as [-> | Hne].
    + rewrite upd_status_same.
      rewrite vec_set_nth_error_eq in Hs' by lia. injection Hs' as <-.
      destruct (sigma b); simpl; try lia; congruence.
    + rewrite upd_status_other by exact Hne.
      rewrite vec_set_nth_error_neq in Hs' by congruence.
      exact (H9 b' s Hs').
  - intros b' d Hd'. destruct (H10 b' d Hd') as (Hx & Hy' & Hz).
    repeat split; auto. intros s Hs' Hne.
    destruct (Nat.eq_dec b' b) as [-> | Hne'].
    + rewrite vec_set_nth_error_eq in Hs' by lia. injection Hs' as <-. lia.
    + rewrite vec_set_nth_error_neq in Hs' by congruence. auto.
  - eapply parts_ok_quiet; [ | exact H11 ].
    intros Hq b'. specialize (Hq b').
    destruct (Nat.eq_dec b' b) as [-> | Hne].
    + rewrite upd_status_same in Hq. destruct (sigma b); simpl in *;
        congruence.
    + rewrite upd_status_other in Hq by exact Hne. exact Hq.
Qed.

Lemma same_spans_refl d : same_spans d d.
Proof. split; [ reflexivity | ]. intros j x H. exists x. auto. Qed.

Lemma same_spans_trans d1 d2 d3 :
  same_spans d1 d2 -> same_spans d2 d3 -> same_spans d1 d3.
Proof.
  intros [L1 S1] [L2 S2]. split; [ congruence | ].
  intros j x3 H3. destruct (S2 j x3 H3) as (x2 & H2 & E2).
  destruct (S1 j x2 H2) as (x1 & H1 & E1).
  exists x1. split; [ exact H1 | congruence ].
Qed.

Lemma push_overlap_same_spans d i o :
  (i < length d)%nat ->
  exists d', vec_upd d i (push_overlap o) = Some d' /\ same_spans d d'.
Proof.
  intro Hi. destruct (vec_upd_some d i (push_overlap o) Hi) as (y & Hy & ->).
  eexists. split; [ reflexivity | ].
  split; [ apply vec_set_length | ].
  intros j x' Hx'. destruct (Nat.eq_dec i j) as [<- | Hne].
  - rewrite vec_set_nth_error_eq in Hx' by exact Hi. injection Hx' as <-.
    exists y. auto.
  - rewrite vec_set_nth_error_neq in Hx' by exact Hne. exists x'. auto.
Qed.

Lemma pair_with_some es problem idx buffer d a :
  (a < length d)%nat -> (a < length (buffers problem))%nat ->
  (idx < length d)%nat ->
  exists d', pair_with es problem idx buffer d a = Some d' /\ same_spans d d'.
Proof.
  intros Ha Hb Hi. unfold pair_with.
  destruct (nth_error (buffers problem) a) as [active|] eqn:E.
  2: { apply nth_error_None in E. lia. }
  destruct (es active buffer) as [s1|].
  - destruct (push_overlap_same_spans d a (mkOverlap idx s1) Ha)
      as (d1 & -> & S1).
    destruct (es buffer active) as [s2|].
    + destruct (push_overlap_same_spans d1 idx (mkOverlap a s2))
        as (d2 & -> & S2); [ destruct S1; lia | ].
      exists d2. split; [ reflexivity | ].
      eapply same_spans_trans; eassumption.
    + exists d1. auto.
  - destruct (es buffer active) as [s2|].
    + destruct (push_overlap_same_spans d idx (mkOverlap a s2) Hi)
        as (d2 & -> & S2).
      exists d2. auto.
    + exists d. split; [ reflexivity | apply same_spans_refl ].
Qed.

Lemma pair_all_some es problem idx buffer acts : forall d,
  (forall a, In a acts ->
     (a < length d)%nat /\ (a < length (buffers problem))%nat) ->
  (idx < length d)%nat ->
  exists d', pair_all es problem idx buffer d acts = Some d' /\
             same_spans d d'.
Proof.
  induction acts as [|a acts IH]; simpl; intros d Ha Hi.
  - exists d. split; [ reflexivity | apply same_spans_refl ].
  - destruct (Ha a (or_introl eq_refl)) as [Ha1 Ha2].
    destruct (pair_with_some es problem idx buffer d a Ha1 Ha2 Hi)
      as (d1 & -> & S1).
    destruct (IH d1) as (d2 & E2 & S2).
    + intros a' Hin. destruct (Ha a' (or_intror Hin)). destruct S1. lia.
    + destruct S1. lia.
    + exists d2. split; [ exact E2 | ].
      eapply same_spans_trans; eassumption.
Qed.


Lemma join_open_partition e st b lidx nsec quiet :
  activates e = true -> buffer_idx e = b ->
  parts_ok (alive st) (partitions (result st)) lidx nsec quiet ->
  (isLeft e = false -> alive st <> []) ->
  exists ps',
    join_partition e (open_partition e st) = Some (with_partitions st ps') /\
    forall a al quiet',
      (if isLeft e then set_insert b (alive st) else alive st) = a :: al ->
      parts_ok (a :: al) ps' lidx nsec quiet'.
Proof.
  intros Ha Eb Hp Hne. subst b. unfold join_partition, open_partition.
  rewrite Ha. destruct (isLeft e) eqn:EL.
  - destruct (alive st) as [|a0 al0] eqn:Eal; simpl in *.
    + destruct Hp as (Hc & Hl & _). rewrite upd_back_app.
      eexists. split; [ reflexivity | ].
      intros a al quiet' _. exists (partitions (result st)),
        (push_idx (buffer_idx e) (mkPartition [] (mkInterval 0 0))).
      repeat split; auto.
    + destruct Hp as (ps0 & q & E & Hc & Hl). rewrite E, upd_back_app.
      eexists. split.
      * destruct st as [? ? ? ? ? ? []]; simpl in *. subst. reflexivity.
      * intros a al quiet' _. exists ps0, (push_idx (buffer_idx e) q).
        repeat split; auto.
  - destruct (alive st) as [|a0 al0] eqn:Eal;
      [ exfalso; apply Hne; reflexivity | ].
    exists (partitions (result st)). split.
    + destruct st as [? ? ? ? ? ? []]; reflexivity.
    + intros a al quiet' E. injection E as <- <-. exact Hp.
Qed.

Lemma activation_inv es problem n sigma N t st e b buffer :
  Inv n sigma N t st ->
  0 <= last_section_time st ->
  activates e = true -> buffer_idx e = b -> (b < n)%nat ->
  length (buffers problem) = n ->
  (isLeft e = true /\ (sigma b = Fresh \/ pending (sigma b) = true)) \/
  (isLeft e = false /\ live (sigma b) = true) ->
  exists st4 st5,
    join_partition e (open_partition e st) = Some st4 /\
    record_overlaps es problem e buffer st4 = Some st5 /\
    Inv n (upd_status sigma b (act_status (sigma b))) N t
      (insert_buffer e st5).
Proof.
  intros [H1 H2 H3 H4 H5 H6 H7 (Ha & Hb & Hc) Hd H9 H10 H11]
    H0 Hact Eb Hn Hlen Hs.
  destruct (join_open_partition e st b _ _ _ Hact Eb H11) as (ps' & Hj & Hp).
  { intros EL Hnil. destruct Hs as [[HL _] | [_ Hlive]]; [ congruence | ].
    apply H6 in Hlive. rewrite Hnil in Hlive. exact Hlive. }
  exists (with_partitions st ps'). rewrite Hj.
  unfold record_overlaps. rewrite Hact, Eb. simpl.
  destruct (pair_all_some es problem b buffer (actives st)
              (buffer_data (result st))) as (d' & -> & Hlen' & Hsp).
  { intros a Hin. specialize (H4 a Hin). lia. }
  { lia. }
  eexists. split; [ reflexivity | ]. split; [ reflexivity | ].
  unfold insert_buffer. rewrite Hact, Eb. simpl.
  assert (Hdead : forall b' t0,
            upd_status sigma b (act_status (sigma b)) b' = Dead t0 ->
            t0 <= last_section_time st).
  { intros b' t0. destruct (Nat.eq_dec b' b) as [-> | Hne].
    - rewrite upd_status_same.
      destruct Hs as [[_ [Hf | Hf]] | [_ Hf]]; destruct (sigma b);
        simpl in *; congruence.
    - rewrite upd_status_other by exact Hne. apply Hd. }
  assert (Hstart : forall b' s,
            nth_error (buffer_idx_to_section_start st) b' = Some s ->
            match upd_status sigma b (act_status (sigma b)) b' with
            | Opened t0 | PreOpened t0 =>
                0 <= s <= Z.of_nat (length (sections (result st))) /\
                (s < Z.of_nat (length (sections (result st))) \/
                 last_section_time st <= t0)
            | Done => 0 <= s
            | _ => s = -1
            end).
  { intros b' s Hs'. specialize (H9 b' s Hs').
    destruct (Nat.eq_dec b' b) as [-> | Hne].
    - rewrite upd_status_same. destruct (sigma b); simpl; exact H9.
    - rewrite upd_status_other by exact Hne. exact H9. }
  assert (Hspans : forall b' d,
            nth_error d' b' = Some d ->
            increasing_from 0 (ranges_of d) /\
            last_upper 0 (ranges_of d)
              <= Z.of_nat (length (sections (result st))) /\
            (forall s,
               nth_error (buffer_idx_to_section_start st) b' = Some s ->
               s <> -1 -> last_upper 0 (ranges_of d) <= s)).
  { intros b' d Hd'. destruct (Hsp b' d Hd') as (x & Hx & Ex).
    unfold ranges_of. rewrite Ex. exact (H10 b' x Hx). }
  assert (Htime : last_section_time st <= t /\ -1 <= last_section_time st /\
            (last_section_time st = -1 ->
             forall b', upd_status sigma b (act_status (sigma b)) b'
                        = Fresh)).
  { repeat split; auto. intro. lia. }
  destruct Hs as [[HL Hs] | [HL Hs]]; rewrite HL in *; simpl.
  - constructor; simpl; auto; try lia.
    + intros a Hin. apply set_insert_In in Hin. destruct Hin as [-> | Hin]; auto.
    + apply set_insert_sorted, H5.
    + intro b'. rewrite set_insert_In.
      destruct (Nat.eq_dec b' b) as [-> | Hne].
      * rewrite upd_status_same.
        split; [ | auto ]. intros _.
        destruct Hs as [Hf | Hf]; destruct (sigma b); simpl in *;
          congruence.
      * rewrite upd_status_other by exact Hne. rewrite <- H6.
        split; [ intros [? | ?]; [ congruence | assumption ] | auto ].
    + destruct (set_insert b (alive st)) as [|a al] eqn:E.
      * exfalso. eapply set_insert_not_nil, E.
      * apply Hp. reflexivity.
  - constructor; simpl; auto; try lia.
    + intros a Hin. apply set_insert_In in Hin. destruct Hin as [-> | Hin]; auto.
    + intro b'. rewrite H6.
      destruct (Nat.eq_dec b' b) as [-> | Hne].
      * rewrite upd_status_same. destruct (sigma b); simpl in *;
          try discriminate; tauto.
      * rewrite upd_status_other by exact Hne. tauto.
    + destruct (alive st) as [|a al] eqn:E.
      * exfalso. apply (proj2 (H6 b)). exact Hs.
      * apply Hp. reflexivity.
Qed.

Lemma flush_section_fields e st :
  closes e = true ->
  let f := last_section_time st <? time_value e in
  actives (flush_section e st) = actives st /\
  alive (flush_section e st) = alive st /\
  last_section_idx (flush_section e st) = last_section_idx st /\
  buffer_idx_to_section_start (flush_section e st)
    = buffer_idx_to_section_start st /\
  buffer_idx_to_window (flush_section e st) = buffer_idx_to_window st /\
  partitions (result (flush_section e st)) = partitions (result st) /\
  buffer_data (result (flush_section e st)) = buffer_data (result st) /\
  last_section_time (flush_section e st)
    = (if f then time_value e else last_section_time st) /\
  sections (result (flush_section e st))
    = (if f then sections (result st) ++ [actives st]
       else sections (result st)).
Proof.
  intro Hc. unfold flush_section. rewrite Hc.
  destruct (last_section_time st <? time_value e); simpl; repeat split.
Qed.

Lemma erase_buffer_fields e st :
  actives (erase_buffer e st)
    = (if isRight e || isEmptyRightGap e
       then set_erase (buffer_idx e) (actives st) else actives st) /\
  alive (erase_buffer e st)
    = (if isRight e then set_erase (buffer_idx e) (alive st) else alive st) /\
  last_section_time (erase_buffer e st) = last_section_time st /\
  last_section_idx (erase_buffer e st) = last_section_idx st /\
  buffer_idx_to_section_start (erase_buffer e st)
    = buffer_idx_to_section_start st /\
  buffer_idx_to_window (erase_buffer e st) = buffer_idx_to_window st /\
  result (erase_buffer e st) = result st.
Proof.
  unfold erase_buffer.
  destruct (isRight e), (isEmptyRightGap e); simpl; repeat split.
Qed.

Lemma close_partition_some st :
  (alive st = [] -> exists ps0 q, partitions (result st) = ps0 ++ [q]) ->
  exists st1, close_partition st = Some st1 /\
    actives st1 = actives st /\ alive st1 = alive st /\
    last_section_time st1 = last_section_time st /\
    buffer_idx_to_section_start st1 = buffer_idx_to_section_start st /\
    buffer_idx_to_window st1 = buffer_idx_to_window st /\
    sections (result st1) = sections (result st) /\
    buffer_data (result st1) = buffer_data (result st) /\
    match alive st with
    | [] =>
        exists ps0 q, partitions (result st) = ps0 ++ [q] /\
          partitions (result st1) =
            ps0 ++ [set_range
                      (mkInterval (last_section_idx st)
                         (to_int (length (sections (result st))))) q] /\
          last_section_idx st1 = to_int (length (sections (result st)))
    | _ :: _ =>
        partitions (result st1) = partitions (result st) /\
        last_section_idx st1 = last_section_idx st
    end.
Proof.
  intro H. unfold close_partition.
  destruct (alive st) as [|a al] eqn:Eal.
  - destruct (H eq_refl) as (ps0 & q & E). rewrite E, upd_back_app.
    eexists. split; [ reflexivity | ]. simpl.
    rewrite Eal. repeat split; auto.
    exists ps0, q. repeat split; auto.
  - exists st. rewrite Eal. repeat split; auto.
Qed.


Lemma kind_facts e :
  (closes e = true -> activates e = false) /\
  (activates e = true -> closes e = false /\ opens e = true /\
     isRight e = false /\ isWindowedRightGap e = false /\
     isWindowedLeftGap e = false) /\
  (isWindowedRightGap e = true ->
     opens e = true /\ isRight e = false /\ isWindowedLeftGap e = false) /\
  (isWindowedLeftGap e = true ->
     opens e = true /\ isRight e = false /\ isWindowedRightGap e = false) /\
  (closes e = true -> isWindowedRightGap e = false ->
     isWindowedLeftGap e = false -> opens e = false) /\
  (activates e = false -> isLeft e = false).
Proof.
  unfold closes, activates, opens, isLeft, isRight, isEmptyLeftGap,
    isEmptyRightGap, isWindowedLeftGap, isWindowedRightGap.
  destruct (point_type e), (window e); simpl; repeat split; congruence.
Qed.

Lemma reset_window_noop e buffer st :
  isWindowedRightGap e = false -> reset_window e buffer st = Some st.
Proof. intro H. unfold reset_window. rewrite H. reflexivity. Qed.

Lemma reset_window_some e buffer st :
  isWindowedRightGap e = true ->
  (buffer_idx e < length (buffer_idx_to_window st))%nat ->
  exists v, reset_window e buffer st = Some (with_windows st v) /\
            length v = length (buffer_idx_to_window st).
Proof.
  intros H Hlt. unfold reset_window. rewrite H.
  destruct (vec_upd_some (buffer_idx_to_window st) (buffer_idx e)
              (fun _ => mkInterval 0 (size buffer)) Hlt) as (y & _ & ->).
  eexists. split; [ reflexivity | apply vec_set_length ].
Qed.

Lemma override_window_noop e st :
  isWindowedLeftGap e = false -> override_window e st = Some st.
Proof.
  unfold isWindowedLeftGap, override_window.
  destruct (point_type e), (window e); congruence.
Qed.

Lemma override_window_some e st :
  isWindowedLeftGap e = true ->
  (buffer_idx e < length (buffer_idx_to_window st))%nat ->
  exists v, override_window e st = Some (with_windows st v) /\
            length v = length (buffer_idx_to_window st).
Proof.
  unfold isWindowedLeftGap, override_window.
  destruct (point_type e), (window e) as [w|]; try discriminate.
  intros _ Hlt.
  destruct (vec_upd_some (buffer_idx_to_window st) (buffer_idx e)
              (fun _ => w) Hlt) as (y & _ & ->).
  eexists. split; [ reflexivity | apply vec_set_length ].
Qed.

Lemma closing_noop e st :
  closes e = false ->
  close_span e (erase_buffer e (flush_section e st)) = Some st.
Proof.
  intro H. unfold close_span, erase_buffer, flush_section. rewrite H.
  unfold closes in H.
  destruct (isRight e), (isEmptyRightGap e); simpl in *;
    try discriminate; reflexivity.
Qed.

Lemma activation_noop es problem e buffer st :
  activates e = false ->
  join_partition e (open_partition e st) = Some st /\
  record_overlaps es problem e buffer st = Some st /\
  insert_buffer e st = st.
Proof.
  intro H. pose proof (proj2 (proj2 (proj2 (proj2 (proj2 (kind_facts e))))) H)
    as HL.
  unfold join_partition, open_partition, record_overlaps, insert_buffer.
  rewrite H, HL. auto.
Qed.

Lemma open_span_noop e st : opens e = false -> open_span e st = Some st.
Proof. intro H. unfold open_span. rewrite H. reflexivity. Qed.

Lemma closing_inv n sigma N t st e b t0 :
  Inv n sigma N t st ->
  0 <= last_section_time st ->
  closes e = true -> buffer_idx e = b -> time_value e = t -> (b < n)%nat ->
  sigma b = Opened t0 -> t0 < t -> N + 1 < 2 ^ 31 ->
  exists st2,
    close_span e (erase_buffer e (flush_section e st)) = Some st2 /\
    buffer_idx_to_window st2 = buffer_idx_to_window st /\
    Inv n (upd_status sigma b (if isRight e then Dead t else Closed))
      (N + 1) t st2.
Proof.
  intros [H1 H2 H3 H4 H5 H6 H7 (Ha & Hb & Hcc) Hd H9 H10 H11]
    H0 Hc Eb Et Hn Hs Ht0 HN.
  destruct (flush_section_fields e st Hc)
    as (F1 & F2 & F3 & F4 & F5 & F6 & F7 & F8 & F9).
  destruct (erase_buffer_fields e (flush_section e st))
    as (E1 & E2 & E3 & E4 & E5 & E6 & E7).
  remember (erase_buffer e (flush_section e st)) as se eqn:Ese.
  rewrite F1 in E1. rewrite F2 in E2. rewrite F8 in E3. rewrite F3 in E4.
  rewrite F4 in E5. rewrite F5 in E6.
  assert (E8 : partitions (result se) = partitions (result st))
    by (rewrite E7; exact F6).
  assert (E9 : buffer_data (result se) = buffer_data (result st))
    by (rewrite E7; exact F7).
  assert (E10 : sections (result se) =
                if last_section_time st <? time_value e
                then sections (result st) ++ [actives st]
                else sections (result st))
    by (rewrite E7; exact F9).
  clear F1 F2 F3 F4 F5 F6 F7 F8 F9 E7 Ese. rewrite Eb, Et in *.
  assert (Hin : In b (alive st)) by (apply H6; rewrite Hs; reflexivity).
  destruct (nth_error (buffer_idx_to_section_start st) b) as [s|] eqn:Es;
    [ | apply nth_error_None in Es; lia ].
  pose proof (H9 b s Es) as Hst. rewrite Hs in Hst.
  destruct Hst as (Hs0 & Hs1).
  destruct (nth_error (buffer_idx_to_window st) b) as [w|] eqn:Ew;
    [ | apply nth_error_None in Ew; lia ].
  destruct (nth_error (buffer_data (result st)) b) as [d|] eqn:Ed;
    [ | apply nth_error_None in Ed; lia ].
  assert (Hnf : Z.of_nat (length (sections (result st)))
                  <= Z.of_nat (length (sections (result se))) <= N + 1 /\
                s < Z.of_nat (length (sections (result se))) /\
                last_section_time se <= t /\ 0 <= last_section_time se /\
                t <= last_section_time se /\
                last_section_time st <= last_section_time se /\
                (Z.of_nat (length (sections (result st)))
                   < Z.of_nat (length (sections (result se))) \/
                 (sections (result se) = sections (result st) /\
                  last_section_time se = last_section_time st))).
  { rewrite E10, E3.
    destruct (last_section_time st <? t) eqn:E; [ apply Z.ltb_lt in E
                                                | apply Z.ltb_ge in E ].
    - rewrite length_app. simpl. lia.
    - repeat split; try lia. right. auto. }
  destruct Hnf as (Hn1 & Hn2 & Hn3 & Hn4 & Hn6 & Hn7 & Hn5).
  unfold close_span. rewrite Hc, Eb, E5, Es.
  replace (negb (s =? -1)) with true
    by (symmetry; apply negb_true_iff, Z.eqb_neq; lia).
  rewrite E6, Ew, E9.
  unfold vec_upd at 1. rewrite Ed.
  match goal with |- context [close_partition ?x] =>
    destruct (close_partition_some x) as
      (st1 & -> & C1 & C2 & C3 & C4 & C5 & C6 & C7 & C8) end.
  { simpl. rewrite E8, E2. intro Hnil.
    destruct (alive st) as [|a al] eqn:Eal; [ destruct Hin | ].


    destruct H11 as (ps0 & q & E & _). eauto. }
  simpl in C1, C2, C3, C4, C5, C6, C7, C8.
  rewrite to_int_small in * by lia.
  eexists. split; [ reflexivity | ].
  split; [ simpl; congruence | ].
  set (nf := Z.of_nat (length (sections (result se)))) in *.
  assert (Halive : exists ps0 q, partitions (result st) = ps0 ++ [q] /\
             chain 0 (map section_range ps0) (last_section_idx st) /\
             last_section_idx st <= Z.of_nat (length (sections (result st)))).
  { destruct (alive st) as [|a al]; [ destruct Hin | exact H11 ]. }
  constructor; simpl; rewrite ?C1, ?C2, ?C3, ?C4, ?C5, ?C6, ?C7, ?E5, ?E6.
  - rewrite vec_set_length. exact H1.
  - exact H2.
  - rewrite vec_set_length. exact H3.
  - intros a Hina. rewrite E1 in Hina. apply H4.
    destruct (isRight e || isEmptyRightGap e); auto.
    eapply set_erase_subset, Hina.
  - rewrite E2. destruct (isRight e); auto. apply set_erase_sorted, H5.
  - intro b'. rewrite E2. destruct (isRight e).
    + rewrite set_erase_In by exact H5. rewrite H6.
      destruct (Nat.eq_dec b' b) as [-> | Hne].
      * rewrite upd_status_same. simpl.
        split; [ intros [? _]; congruence | discriminate ].
      * rewrite upd_status_other by exact Hne. tauto.
    + rewrite H6. destruct (Nat.eq_dec b' b) as [-> | Hne].
      * rewrite upd_status_same, Hs. simpl. tauto.
      * rewrite upd_status_other by exact Hne. tauto.
  - fold nf. lia.
  - repeat split; lia.
  - intros b' t1. destruct (Nat.eq_dec b' b) as [-> | Hne].
    + rewrite upd_status_same. destruct (isRight e); [ | discriminate ].
      intro Hx. injection Hx as <-. lia.
    + rewrite upd_status_other by exact Hne. intro Hx.
      specialize (Hd b' t1 Hx). lia.
  - intros b' s' Hs'. destruct (Nat.eq_dec b' b) as [-> | Hne].
    + rewrite vec_set_nth_error_eq in Hs' by lia. injection Hs' as <-.
      rewrite upd_status_same. destruct (isRight e); reflexivity.
    + rewrite vec_set_nth_error_neq in Hs' by congruence.
      rewrite upd_status_other by exact Hne.
      specialize (H9 b' s' Hs'). destruct (sigma b'); auto;
        (fold nf; destruct H9 as (Hx & Hy); split; [ lia | ];
         destruct Hn5 as [Hlt | [Hsame Hlst]]; [ left; lia | ];
         unfold nf; rewrite Hsame, Hlst; exact Hy).
  - intros b' d' Hd'. fold nf. destruct (Nat.eq_dec b' b) as [-> | Hne].
    + rewrite vec_set_nth_error_eq in Hd' by lia. injection Hd' as <-.
      destruct (H10 b d Ed) as (Hx & Hy & Hz).
      assert (Hlu : last_upper 0 (ranges_of d) <= s) by (apply Hz; auto; lia).
      unfold ranges_of, push_span. simpl. rewrite map_app. simpl.
      split; [ | split ].
      * apply increasing_from_app; simpl; auto.
      * rewrite last_upper_app. simpl. lia.
      * intros s' Hs' Hne'.
        rewrite vec_set_nth_error_eq in Hs' by lia. congruence.
    + rewrite vec_set_nth_error_neq in Hd' by congruence.
      destruct (H10 b' d' Hd') as (Hx & Hy & Hz).
      split; [ exact Hx | split; [ lia | ] ].
      intros s' Hs' Hne'.
      rewrite vec_set_nth_error_neq in Hs' by congruence. auto.
  - fold nf. destruct Halive as (ps0 & q & Ep & Hch & Hle).
    destruct (alive se) as [|a al].
    + destruct C8 as (ps1 & q1 & Ep1 & -> & ->). fold nf.
      rewrite E8, Ep in Ep1. apply app_inj_tail in Ep1.
      destruct Ep1 as [<- <-]. split; [ | split; [ lia | reflexivity ] ].
      rewrite map_app. simpl. rewrite E4. apply chain_app; [ exact Hch | lia ].
    + destruct C8 as (-> & ->). rewrite E8, E4.
      exists ps0, q. repeat split; auto. lia.
Qed.


(** A closing event of a buffer that has no span open: the section may be
    flushed, nothing else changes. *)
Lemma closing_idle n sigma N t st e b s' :
  Inv n sigma N t st ->
  0 <= last_section_time st ->
  closes e = true -> isRight e = false ->
  buffer_idx e = b -> time_value e = t -> (b < n)%nat ->
  (sigma b = Fresh /\ s' = PreClosed) \/
  (exists t0, sigma b = Dead t0 /\ t <= t0 /\ s' = Dead t0) ->
  exists st2,
    close_span e (erase_buffer e (flush_section e st)) = Some st2 /\
    buffer_idx_to_window st2 = buffer_idx_to_window st /\
    buffer_idx_to_section_start st2 = buffer_idx_to_section_start st /\
    0 <= last_section_time st2 /\
    Inv n (upd_status sigma b s') (N + 1) t st2.
Proof.
  intros [H1 H2 H3 H4 H5 H6 H7 (Ha & Hb & Hcc) Hd H9 H10 H11]
    H0 Hc HR Eb Et Hn Hs.
  destruct (flush_section_fields e st Hc)
    as (F1 & F2 & F3 & F4 & F5 & F6 & F7 & F8 & F9).
  destruct (erase_buffer_fields e (flush_section e st))
    as (E1 & E2 & E3 & E4 & E5 & E6 & E7).
  remember (erase_buffer e (flush_section e st)) as se eqn:Ese.
  rewrite F1 in E1. rewrite F2 in E2. rewrite F8 in E3. rewrite F3 in E4.
  rewrite F4 in E5. rewrite F5 in E6.
  assert (E8 : partitions (result se) = partitions (result st))
    by (rewrite E7; exact F6).
  assert (E9 : buffer_data (result se) = buffer_data (result st))
    by (rewrite E7; exact F7).
  assert (E10 : sections (result se) =
                if last_section_time st <? time_value e
                then sections (result st) ++ [actives st]
                else sections (result st))
    by (rewrite E7; exact F9).
  clear F1 F2 F3 F4 F5 F6 F7 F8 F9 E7 Ese. rewrite Eb, Et, HR in *.
  assert (Hlive : live (sigma b) = false).
  { destruct Hs as [[-> _] | (t0 & -> & _)]; reflexivity. }
  assert (Hnin : ~ In b (alive st)).
  { intro Hin. apply H6 in Hin. congruence. }
  destruct (nth_error (buffer_idx_to_section_start st) b) as [s|] eqn:Es;
    [ | apply nth_error_None in Es; lia ].
  assert (Hs1 : s = -1).
  { pose proof (H9 b s Es) as Hst.
    destruct Hs as [[E _] | (t0 & E & _)]; rewrite E in Hst; exact Hst. }
  subst s.
  assert (Hnf : Z.of_nat (length (sections (result st)))
                  <= Z.of_nat (length (sections (result se))) <= N + 1 /\
                last_section_time se <= t /\ 0 <= last_section_time se /\
                last_section_time st <= last_section_time se /\
                (Z.of_nat (length (sections (result st)))
                   < Z.of_nat (length (sections (result se))) \/
                 (sections (result se) = sections (result st) /\
                  last_section_time se = last_section_time st)) /\
                (t <= last_section_time st ->
                 sections (result se) = sections (result st))).
  { rewrite E10, E3.
    destruct (last_section_time st <? t) eqn:E; [ apply Z.ltb_lt in E
                                                | apply Z.ltb_ge in E ].
    - rewrite length_app. simpl. repeat split; try lia.
    - repeat split; try lia. right. auto. }
  destruct Hnf as (Hn1 & Hn3 & Hn4 & Hn7 & Hn5 & Hn8).
  unfold close_span. rewrite Hc, Eb, E5, Es. simpl.
  eexists. split; [ reflexivity | ].
  split; [ exact E6 | ]. split; [ exact E5 | ]. split; [ exact Hn4 | ].
  set (nf := Z.of_nat (length (sections (result se)))) in *.
  constructor; rewrite ?E5, ?E6, ?E9, ?E8, ?E4, ?E2.
  - exact H1.
  - exact H2.
  - exact H3.
  - intros a Hina. rewrite E1 in Hina. apply H4.
    destruct (isEmptyRightGap e); simpl in Hina; auto.
    eapply set_erase_subset, Hina.
  - exact H5.
  - intro b'. rewrite H6. destruct (Nat.eq_dec b' b) as [-> | Hne].
    + rewrite upd_status_same, Hlive.
      destruct Hs as [[_ ->] | (t0 & _ & _ & ->)]; simpl; tauto.
    + rewrite upd_status_other by exact Hne. tauto.
  - fold nf. lia.
  - repeat split; lia.
  - intros b' t1. destruct (Nat.eq_dec b' b) as [-> | Hne].
    + rewrite upd_status_same.
      destruct Hs as [[_ ->] | (t0 & E & _ & ->)]; [ discriminate | ].
      intro Hx. injection Hx as <-. specialize (Hd b t0 E). lia.
    + rewrite upd_status_other by exact Hne. intro Hx.
      specialize (Hd b' t1 Hx). lia.
  - intros b' s0 Hs0. fold nf. destruct (Nat.eq_dec b' b) as [-> | Hne].
    + rewrite upd_status_same. rewrite Es in Hs0. injection Hs0 as <-.
      destruct Hs as [[_ ->] | (t0 & _ & _ & ->)]; reflexivity.
    + rewrite upd_status_other by exact Hne.
      specialize (H9 b' s0 Hs0). destruct (sigma b'); auto;
        (destruct H9 as (Hx & Hy); split; [ lia | ];
         destruct Hn5 as [Hlt | [Hsame Hlst]]; [ left; lia | ];
         unfold nf; rewrite Hsame, Hlst; exact Hy).
  - intros b' d' Hd'. fold nf.
    destruct (H10 b' d' Hd') as (Hx & Hy & Hz).
    split; [ exact Hx | split; [ lia | exact Hz ] ].
  - fold nf. destruct (alive st) as [|a al].
    + destruct H11 as (Hch & Hle & Hq). split; [ exact Hch | ].
      split; [ lia | ]. intro Hq'.
      destruct Hs as [[_ ->] | (t0 & E & Ht & ->)].
      * specialize (Hq' b). rewrite upd_status_same in Hq'. discriminate.
      * assert (Hsec : sections (result se) = sections (result st)).
        { apply Hn8. specialize (Hd b t0 E). lia. }
        unfold nf. rewrite Hsec. apply Hq. intro b'.
        specialize (Hq' b'). destruct (Nat.eq_dec b' b) as [-> | Hne].
        -- rewrite E. reflexivity.
        -- rewrite upd_status_other in Hq' by exact Hne. exact Hq'.
    + destruct H11 as (ps0 & q & Ep & Hch & Hle).
      exists ps0, q. repeat split; auto. lia.
Qed.

Lemma Inv_started n sigma N t st b :
  Inv n sigma N t st -> sigma b <> Fresh -> 0 <= last_section_time st.
Proof.
  intros [H1 H2 H3 H4 H5 H6 H7 (Ha & Hb & Hc) Hd H9 H10 H11] Hs.
  destruct (Z.eq_dec (last_section_time st) (-1)) as [E | E]; [ | lia ].
  exfalso. apply Hs. apply Hc. exact E.
Qed.

Lemma reset_window_inv n sigma N t st e buffer :
  Inv n sigma N t st -> (buffer_idx e < n)%nat ->
  exists st1, reset_window e buffer st = Some st1 /\
    Inv n sigma N t st1 /\ last_section_time st1 = last_section_time st.
Proof.
  intros HI Hn. destruct (isWindowedRightGap e) eqn:Kwr.
  - destruct (reset_window_some e buffer st Kwr) as (v & -> & Hv).
    { destruct HI. lia. }
    eexists. split; [ reflexivity | ]. split; [ | reflexivity ].
    apply with_windows_inv; [ exact HI | ]. destruct HI. lia.
  - rewrite (reset_window_noop _ _ _ Kwr). eauto.
Qed.

(** The tail of an iteration whose event closes a span. *)
Lemma after_close es problem n sigma N t st e b buffer :
  Inv n sigma N t st -> sigma b <> Fresh ->
  closes e = true -> buffer_idx e = b -> (b < n)%nat -> N < 2 ^ 31 ->
  exists st',
    (st3 <- override_window e st ;;
     st4 <- join_partition e (open_partition e st3) ;;
     st5 <- record_overlaps es problem e buffer st4 ;;
     open_span e (insert_buffer e st5)) = Some st' /\
    Inv n (if opens e then upd_status sigma b (open_status (sigma b) t)
           else sigma) N t st'.
Proof.
  intros HI Hs Hc Eb Hn HN.
  destruct (kind_facts e) as (K1 & K2 & K3 & K4 & K5 & K6).
  pose proof (K1 Hc) as Ka.
  pose proof (Inv_started _ _ _ _ _ _ HI Hs) as Hl.
  destruct (isWindowedLeftGap e) eqn:Kwl.
  - destruct (K4 eq_refl) as (Ko & Kr & _). rewrite Ko.
    destruct (override_window_some e st Kwl) as (v & -> & Hv).
    { destruct HI. lia. }
    assert (HI3 : Inv n sigma N t (with_windows st v)).
    { apply with_windows_inv; [ exact HI | ]. destruct HI. lia. }
    cbv beta iota.
    destruct (activation_noop es problem e buffer (with_windows st v) Ka)
      as (-> & -> & ->).
    apply (open_span_inv n sigma N t _ e b HI3 Hl Ko Eb Hn HN).
  - rewrite (override_window_noop _ _ Kwl).
    destruct (activation_noop es problem e buffer st Ka) as (-> & -> & ->).
    destruct (opens e) eqn:Ko.
    + apply (open_span_inv n sigma N t _ e b HI Hl Ko Eb Hn HN).
    + rewrite (open_span_noop _ _ Ko). eauto.
Qed.

Ltac kind_bool :=
  unfold closes, activates, opens, isLeft, isRight, isEmptyLeftGap,
    isEmptyRightGap, isWindowedLeftGap, isWindowedRightGap, next_status in *;
  repeat match goal with
         | H : point_type _ = _ |- _ => rewrite H in *; clear H
         | H : window _ = _ |- _ => rewrite H in *; clear H
         end;
  simpl in *; try discriminate; try reflexivity; auto.

Lemma isEmptyLeftGap_inv e :
  isEmptyLeftGap e = true -> point_type e = kLeftGap /\ window e = None.
Proof.
  unfold isEmptyLeftGap.
  destruct (point_type e), (window e); try discriminate; auto.
Qed.

Lemma isWindowedLeftGap_inv e :
  isWindowedLeftGap e = true ->
  point_type e = kLeftGap /\ exists w, window e = Some w.
Proof.
  unfold isWindowedLeftGap.
  destruct (point_type e), (window e); try discriminate; eauto.
Qed.

(** One iteration of the loop preserves the invariant and moves the
    buffer of the event to its next state. *)
Lemma step_preserves es problem n sigma N tnow st e buffer :
  Inv n sigma N tnow st ->
  length (buffers problem) = n ->
  nth_error (buffers problem) (buffer_idx e) = Some buffer ->
  tnow <= time_value e -> 0 <= time_value e -> N + 1 < 2 ^ 31 ->
  legal (sigma (buffer_idx e)) e ->
  exists st',
    step es problem st e = Some st' /\
    Inv n (upd_status sigma (buffer_idx e)
             (next_status (sigma (buffer_idx e)) e))
      (N + 1) (time_value e) st'.
Proof.
  intros HI Hlen Hbuf Ht H0 HN Hleg.
  assert (Hn : (buffer_idx e < n)%nat).
  { rewrite <- Hlen. apply nth_error_Some. congruence. }
  destruct (init_time_inv _ _ _ _ _ e HI Ht H0) as [HI0 Hl0].
  destruct (kind_facts e) as (K1 & K2 & K3 & K4 & K5 & K6).
  unfold step. rewrite Hbuf. cbv beta iota.
  match goal with |- ?G =>
    assert (HA : activates e = true ->
                 (isLeft e = true /\
                  (sigma (buffer_idx e) = Fresh \/
                   pending (sigma (buffer_idx e)) = true)) \/
                 (isLeft e = false /\ live (sigma (buffer_idx e)) = true) ->
                 next_status (sigma (buffer_idx e)) e
                   = Opened (time_value e) -> G);
    [ | assert (HB : forall t0,
                 closes e = true -> sigma (buffer_idx e) = Opened t0 ->
                 t0 < time_value e ->
                 (let s2 := if isRight e then Dead (time_value e)
                            else Closed in
                  if opens e then open_status s2 (time_value e) else s2)
                   = next_status (sigma (buffer_idx e)) e -> G);
      [ | assert (HC : forall s2,
                 closes e = true -> isRight e = false ->
                 (sigma (buffer_idx e) = Fresh /\ s2 = PreClosed) \/
                 (exists t0, sigma (buffer_idx e) = Dead t0 /\
                    time_value e <= t0 /\ s2 = Dead t0) ->
                 (if opens e then open_status s2 (time_value e) else s2)
                   = next_status (sigma (buffer_idx e)) e -> G) ] ]
  end.
  - (* an activating event *)
    intros Ha Hs Hnext.
    destruct (K2 Ha) as (Kc & Ko & Kr & Kwr & Kwl).
    rewrite (reset_window_noop _ _ _ Kwr), (closing_noop _ _ Kc),
      (override_window_noop _ _ Kwl).
    destruct (activation_inv es problem n sigma N _ _ e _ buffer
                HI0 Hl0 Ha eq_refl Hn Hlen Hs)
      as (st4 & st5 & -> & -> & HI5).
    assert (Hact : act_status (sigma (buffer_idx e)) <> Fresh /\
                   open_status (act_status (sigma (buffer_idx e)))
                     (time_value e) = Opened (time_value e)).
    { destruct Hs as [[_ [Hs | Hs]] | [_ Hs]];
        destruct (sigma (buffer_idx e)); simpl in *;
        try discriminate; split; congruence. }
    destruct Hact as (Hne & Hop).
    destruct (open_span_inv n _ N (time_value e) _ e (buffer_idx e) HI5) as (st' & -> & HI6);
      auto; try lia.
    { eapply Inv_started; [ exact HI5 | ].
      rewrite upd_status_same. exact Hne. }
    exists st'. split; [ reflexivity | ].
    apply Inv_weaken with (N := N); [ lia | ].
    eapply Inv_ext; [ | exact HI6 ].
    intro b'. rewrite upd_status_twice, upd_status_same, Hop, Hnext.
    reflexivity.
  - (* closing an open span *)
    intros t0 Hc Hs Ht0 Hnext.
    destruct (reset_window_inv n sigma N _ _ e buffer HI0 Hn)
      as (st1 & -> & HI1 & Hl1).
    destruct (closing_inv n sigma N _ _ e (buffer_idx e) t0 HI1) as (st2 & -> & _ & HI2);
      auto; try lia.
    destruct (after_close es problem n _ (N + 1) (time_value e) st2 e (buffer_idx e) buffer
                HI2) as (st' & -> & HI3); auto; try lia.
    { rewrite upd_status_same. destruct (isRight e); discriminate. }
    exists st'. split; [ reflexivity | ].
    eapply Inv_ext; [ | exact HI3 ].
    intro b'. rewrite <- Hnext. cbv zeta.
    destruct (opens e); [ | reflexivity ].
    rewrite upd_status_twice, upd_status_same. reflexivity.
  - (* a closing event with no span open *)
    intros s2 Hc Kr Hs Hnext.
    destruct (reset_window_inv n sigma N _ _ e buffer HI0 Hn)
      as (st1 & -> & HI1 & Hl1).
    destruct (closing_idle n sigma N _ _ e (buffer_idx e) s2 HI1)
      as (st2 & -> & _ & _ & _ & HI2); auto; try lia.
    destruct (after_close es problem n _ (N + 1) (time_value e) st2 e (buffer_idx e) buffer
                HI2) as (st' & -> & HI3); auto; try lia.
    { rewrite upd_status_same.
      destruct Hs as [[_ ->] | (t0 & _ & _ & ->)]; discriminate. }
    exists st'. split; [ reflexivity | ].
    eapply Inv_ext; [ | exact HI3 ].
    intro b'. rewrite <- Hnext.
    destruct (opens e); [ | reflexivity ].
    rewrite upd_status_twice, upd_status_same. reflexivity.
  - (* dispatch on the state of the buffer *)
    destruct (sigma (buffer_idx e)) as [| |t0| |t0|t0|] eqn:Hs;
      simpl in Hleg.
    + destruct Hleg as [Ept | Ept].
      * apply HA; [ kind_bool | left; split; [ kind_bool | auto ]
                  | kind_bool ].
      * destruct (window e) as [w|] eqn:Ew.
        -- apply (HC PreClosed); [ kind_bool | kind_bool | auto | kind_bool ].
        -- apply (HC PreClosed); [ kind_bool | kind_bool | auto | kind_bool ].
    + apply HA; [ kind_bool | left; split; [ kind_bool | auto ] | kind_bool ].
    + apply HA; [ kind_bool | left; split; [ kind_bool | auto ] | kind_bool ].
    + destruct (isEmptyLeftGap_inv e Hleg) as (Ept & Ew).
      apply HA; [ kind_bool | right; split; [ kind_bool | auto ]
                | kind_bool ].
    + destruct Hleg as [[Hc Ht0] | Hleg].
      * apply (HB t0); [ exact Hc | reflexivity | exact Ht0 | ].
        clear - Hc. destruct (point_type e) eqn:Ept;
          destruct (window e) as [w|] eqn:Ew; kind_bool.
      * destruct (isEmptyLeftGap_inv e Hleg) as (Ept & Ew).
        apply HA; [ kind_bool | right; split; [ kind_bool | auto ]
                  | kind_bool ].
    + destruct Hleg as (Hw & Ht0).
      destruct (isWindowedLeftGap_inv e Hw) as (Ept & w & Ew).
      apply (HC (Dead t0)); [ kind_bool | kind_bool | | kind_bool ].
      right. exists t0. auto.
    + destruct Hleg.
Qed.

(** ** The invariant along the loop *)

Lemma run_status_app l e : forall s,
  run_status s (l ++ [e]) = next_status (run_status s l) e.
Proof. induction l as [|x l IH]; simpl; intro s; auto. Qed.

Lemma legal_run_app l1 l2 : forall s,
  legal_run s (l1 ++ l2) <->
  legal_run s l1 /\ legal_run (run_status s l1) l2.
Proof.
  induction l1 as [|x l1 IH]; simpl; intro s; [ tauto | ].
  rewrite IH. tauto.
Qed.

Lemma status_after_app l e b' :
  status_after (l ++ [e]) b' =
    upd_status (status_after l) (buffer_idx e)
      (next_status (status_after l (buffer_idx e)) e) b'.
Proof.
  unfold status_after, upd_status. rewrite filter_app. simpl.
  unfold of_buffer at 2. rewrite (Nat.eqb_sym b' (buffer_idx e)).
  destruct (buffer_idx e =? b')%nat eqn:E.
  - apply Nat.eqb_eq in E. subst b'. apply run_status_app.
  - rewrite app_nil_r. reflexivity.
Qed.

Lemma initial_inv problem :
  Inv (length (buffers problem)) (status_after []) 0 (-1)
    (initial_state problem).
Proof.
  constructor; simpl.
  - apply repeat_length.
  - apply length_map.
  - apply repeat_length.
  - tauto.
  - constructor.
  - intro b. unfold status_after. simpl. split; [ tauto | discriminate ].
  - lia.
  - repeat split; try lia.
  - intros b t0. unfold status_after. simpl. discriminate.
  - intros b s Hs. apply nth_error_In, repeat_spec in Hs.
    unfold status_after. simpl. exact Hs.
  - intros b d Hd. apply nth_error_In, repeat_spec in Hd. subst d.
    simpl. repeat split; try lia.
    intros s Hs Hne. apply nth_error_In, repeat_spec in Hs. congruence.
  - repeat split; lia.
Qed.


(** ** From the invariant to the guarantees *)






(** ** The events of a well-formed problem follow the protocol *)

Lemma after_gap_start_perm idx hi gs : forall g,
  Permutation
    (gap_end idx g :: flat_map (gap_points idx) gs ++ [true_end idx hi])
    (after_gap_start idx hi g gs).
Proof.
  induction gs as [|g' gs IH]; intro g; simpl.
  - destruct (upper (gap_lifespan g) =? hi); [ apply perm_swap | ].
    apply Permutation_refl.
  - apply perm_skip, perm_skip, IH.
Qed.

Lemma arranged_points_perm idx b :
  Permutation (buffer_points idx b) (arranged_points idx b).
Proof.
  unfold buffer_points, arranged_points.
  destruct (gaps b) as [|g gs]; [ apply Permutation_refl | ].
  cbn [flat_map gap_points app].
  pose proof (after_gap_start_perm idx (upper (lifespan b)) gs g) as H.
  destruct (lower (gap_lifespan g) =? lower (lifespan b)).
  - eapply perm_trans; [ apply perm_swap | ].
    apply perm_skip, perm_skip, H.
  - apply perm_skip, perm_skip, H.
Qed.

Lemma key_lt_trans a b c : key_lt a b -> key_lt b c -> key_lt a c.
Proof. unfold key_lt. lia. Qed.

Lemma sorted_key_lt l : Sorted key_lt l -> StronglySorted key_lt l.
Proof.
  apply Sorted_StronglySorted. intros a b c. apply key_lt_trans.
Qed.

Lemma sorted_pair {A} (R : A -> A -> Prop) a b : R a b -> Sorted R [a; b].
Proof. intro H. repeat (constructor; auto). Qed.

Lemma after_gap_start_head idx hi g gs :
  exists e l, after_gap_start idx hi g gs = e :: l /\
              time_value e = upper (gap_lifespan g).
Proof.
  destruct gs as [|g' gs]; simpl.
  - destruct (upper (gap_lifespan g) =? hi) eqn:E; eauto.
    apply Z.eqb_eq in E. eexists _, _. split; [ reflexivity | ].
    simpl. lia.
  - eauto.
Qed.

Lemma after_gap_start_sorted idx hi gs : forall g,
  tail_ok hi g gs -> Sorted key_lt (after_gap_start idx hi g gs).
Proof.
  induction gs as [|g' gs IH]; intros g Ht; simpl in *.
  - destruct (upper (gap_lifespan g) =? hi) eqn:E.
    + apply Z.eqb_eq in E. apply sorted_pair.
      right. simpl. split; [ lia | ]. unfold tier. simpl. lia.
    + apply Z.eqb_neq in E. apply sorted_pair.
      left. simpl. lia.
  - destruct Ht as (H1 & H2 & H3).
    constructor; [ | constructor; left; simpl; lia ].
    constructor; [ apply IH, H3 | ].
    destruct (after_gap_start_head idx hi g' gs) as (e & l & -> & He).
    constructor. left. simpl. lia.
Qed.

Lemma arranged_points_sorted idx b :
  wf_buffer b -> StronglySorted key_lt (arranged_points idx b).
Proof.
  intros [H0 Hg]. apply sorted_key_lt. unfold arranged_points.
  destruct (gaps b) as [|g gs]; simpl in Hg.
  - apply sorted_pair. left. simpl. lia.
  - destruct Hg as (H1 & H2 & H3).
    pose proof (after_gap_start_sorted idx (upper (lifespan b)) gs g H3)
      as Hs.
    destruct (after_gap_start_head idx (upper (lifespan b)) g gs)
      as (e & l & El & He).
    rewrite El in *.
    destruct (lower (gap_lifespan g) =? lower (lifespan b)) eqn:E;
      [ apply Z.eqb_eq in E | apply Z.eqb_neq in E ].
    + constructor; [ constructor; [ exact Hs | ] | ].
      * constructor. left. simpl. lia.
      * constructor. right. simpl. split; [ lia | ].
        unfold tier. simpl. lia.
    + constructor; [ constructor; [ exact Hs | ] | ].
      * constructor. left. simpl. lia.
      * constructor. left. simpl. lia.
Qed.

Ltac kinds :=
  unfold legal, next_status, closes, isRight, isEmptyRightGap,
    isEmptyLeftGap, isWindowedRightGap, isWindowedLeftGap, gap_end,
    gap_start, true_start, true_end; simpl.

(** The end of a gap is legal inside the gap and reopens the buffer. *)
Lemma gap_end_legal idx g s :
  in_gap s g ->
  legal s (gap_end idx g) /\
  next_status s (gap_end idx g) = Opened (upper (gap_lifespan g)).
Proof.
  intros [(t0 & -> & Ht) | (-> & Ew)]; kinds.
  - destruct (gap_window g); simpl; auto.
  - rewrite Ew. auto.
Qed.

Lemma after_gap_start_legal idx hi gs : forall g s,
  in_gap s g -> tail_ok hi g gs ->
  legal_run s (after_gap_start idx hi g gs) /\
  live (run_status s (after_gap_start idx hi g gs)) = false /\
  pending (run_status s (after_gap_start idx hi g gs)) = false.
Proof.
  induction gs as [|g' gs IH]; intros g s Hs Ht.
  - simpl in Ht. cbn [after_gap_start].
    destruct (upper (gap_lifespan g) =? hi) eqn:E;
      [ apply Z.eqb_eq in E | apply Z.eqb_neq in E ].
    + destruct Ht as [Ht | [_ Hw]]; [ lia | ].
      destruct Hs as [(t0 & -> & Ht0) | (_ & Ew)]; [ | congruence ].
      destruct (gap_window g) as [w|] eqn:Ew; [ | congruence ].
      cbn [legal_run run_status]. kinds. rewrite Ew. simpl.
      repeat split; auto; try lia.
    + destruct Ht as [Ht | [Ht _]]; [ | lia ].
      destruct (gap_end_legal idx g s Hs) as (Hl & Hn).
      cbn [legal_run run_status]. rewrite Hn.
      split; [ split; [ exact Hl | split; [ | exact I ] ] | ].
      * kinds. left. split; [ reflexivity | lia ].
      * kinds. auto.
  - destruct Ht as (H1 & H2 & H3). fold (tail_ok hi g' gs) in H3.
    destruct (gap_end_legal idx g s Hs) as (Hl & Hn).
    cbn [after_gap_start legal_run run_status]. rewrite Hn.
    assert (Hin : in_gap (next_status (Opened (upper (gap_lifespan g)))
                            (gap_start idx g')) g').
    { unfold in_gap. kinds. destruct (gap_window g'); eauto. }
    destruct (IH g' _ Hin H3) as (Hr & He).
    split; [ | exact He ].
    split; [ exact Hl | split; [ | exact Hr ] ].
    kinds. left. split; [ | lia ]. destruct (gap_window g'); reflexivity.
Qed.

Lemma arranged_points_legal idx b :
  wf_buffer b ->
  legal_run Fresh (arranged_points idx b) /\
  live (run_status Fresh (arranged_points idx b)) = false /\
  pending (run_status Fresh (arranged_points idx b)) = false.
Proof.
  intros [H0 Hg]. unfold arranged_points.
  destruct (gaps b) as [|g gs]; simpl in Hg.
  - cbn [legal_run run_status]. kinds.
    repeat split; auto.
  - destruct Hg as (H1 & H2 & H3). fold (tail_ok (upper (lifespan b)) g gs) in H3.
    destruct (lower (gap_lifespan g) =? lower (lifespan b)) eqn:E;
      [ apply Z.eqb_eq in E | apply Z.eqb_neq in E ].
    + cbn [legal_run run_status].
      assert (Hin : in_gap
                (next_status (next_status Fresh (gap_start idx g))
                   (true_start idx b)) g).
      { left. exists (lower (lifespan b)). split; [ reflexivity | lia ]. }
      destruct (after_gap_start_legal idx _ gs g _ Hin H3) as (Hr & He).
      split; [ | exact He ].
      split; [ kinds; auto | split; [ | exact Hr ] ].
      kinds. destruct (gap_window g); reflexivity.
    + cbn [legal_run run_status].
      assert (Hin : in_gap
                (next_status (next_status Fresh (true_start idx b))
                   (gap_start idx g)) g).
      { unfold in_gap. kinds. destruct (gap_window g); eauto. }
      destruct (after_gap_start_legal idx _ gs g _ Hin H3) as (Hr & He).
      split; [ | exact He ].
      split; [ kinds; auto | split; [ | exact Hr ] ].
      kinds. left. split; [ | lia ]. destruct (gap_window g); reflexivity.
Qed.

Lemma buffer_points_idx idx b e :
  In e (buffer_points idx b) -> buffer_idx e = idx.
Proof.
  unfold buffer_points. simpl. rewrite in_app_iff, in_flat_map. simpl.
  intros [<- | [(g & _ & [<- | [<- | []]]) | [<- | []]]]; reflexivity.
Qed.

Lemma filter_all {A} (f : A -> bool) l :
  (forall x, In x l -> f x = true) -> filter f l = l.
Proof.
  induction l as [|x l IH]; simpl; intro H; [ reflexivity | ].
  rewrite (H x (or_introl eq_refl)). f_equal. apply IH. auto.
Qed.

Lemma filter_none {A} (f : A -> bool) l :
  (forall x, In x l -> f x = false) -> filter f l = [].
Proof.
  induction l as [|x l IH]; simpl; intro H; [ reflexivity | ].
  rewrite (H x (or_introl eq_refl)). apply IH. auto.
Qed.

Lemma points_from_filter b bs : forall i,
  filter (of_buffer b) (points_from i bs) =
    if (i <=? b)%nat
    then match nth_error bs (b - i) with
         | Some buf => buffer_points b buf
         | None => []
         end
    else [].
Proof.
  induction bs as [|buf bs IH]; intro i.
  - simpl. destruct (i <=? b)%nat; [ | reflexivity ].
    destruct (b - i)%nat; reflexivity.
  - cbn [points_from]. rewrite filter_app, IH.
    destruct (Nat.eq_dec i b) as [-> | Hne].
    + replace (S b <=? b)%nat with false
        by (symmetry; apply Nat.leb_gt; lia).
      rewrite Nat.leb_refl, Nat.sub_diag. cbn [nth_error].
      rewrite app_nil_r. apply filter_all.
      intros x Hx. apply buffer_points_idx in Hx. unfold of_buffer.
      apply Nat.eqb_eq, Hx.
    + rewrite (filter_none (of_buffer b) (buffer_points i buf)).
      2: { intros x Hx. apply buffer_points_idx in Hx. unfold of_buffer.
           apply Nat.eqb_neq. congruence. }
      cbn [app]. destruct (i <=? b)%nat eqn:E1.
      * apply Nat.leb_le in E1.
        replace (S i <=? b)%nat with true
          by (symmetry; apply Nat.leb_le; lia).
        replace (b - i)%nat with (S (b - S i)) by lia. reflexivity.
      * apply Nat.leb_gt in E1.
        replace (S i <=? b)%nat with false
          by (symmetry; apply Nat.leb_gt; lia).
        reflexivity.
Qed.

Lemma make_points_filter problem b :
  filter (of_buffer b) (make_points problem) =
    match nth_error (buffers problem) b with
    | Some buf => buffer_points b buf
    | None => []
    end.
Proof.
  unfold make_points. rewrite points_from_filter. simpl.
  rewrite Nat.sub_0_r. reflexivity.
Qed.

Lemma filter_perm {A} (f : A -> bool) l l' :
  Permutation l l' -> Permutation (filter f l) (filter f l').
Proof.
  induction 1 as [|x l l' H IH|x y l|l l' l'' H1 IH1 H2 IH2]; simpl.
  - constructor.
  - destruct (f x); [ constructor | ]; assumption.
  - destruct (f x), (f y); try reflexivity. apply perm_swap.
  - etransitivity; eassumption.
Qed.

Lemma filter_strongly_sorted {A} (R : A -> A -> Prop) (f : A -> bool) l :
  StronglySorted R l -> StronglySorted R (filter f l).
Proof.
  induction 1 as [|x l Hs IH Hx]; simpl; [ constructor | ].
  destruct (f x); [ | exact IH ].
  constructor; [ exact IH | ].
  apply Forall_forall. intros y Hy. apply filter_In in Hy.
  rewrite Forall_forall in Hx. apply Hx, Hy.
Qed.

Lemma event_le_time a b : event_le a b -> time_value a <= time_value b.
Proof. unfold event_le. lia. Qed.

(** A list sorted by time with ties broken is the only sorted arrangement
    of a list that is strictly increasing in time and tier. *)
Lemma sorted_arrangement_unique F : forall G,
  StronglySorted event_le F -> StronglySorted key_lt G ->
  Permutation F G -> F = G.
Proof.
  induction F as [|x F IH]; intros G HF HG HP.
  - apply Permutation_nil in HP. congruence.
  - destruct G as [|g G].
    { symmetry in HP. apply Permutation_nil in HP. discriminate. }
    inversion HF as [|? ? HF' Hx]; subst.
    inversion HG as [|? ? HG' Hg]; subst.
    rewrite Forall_forall in Hx, Hg.
    assert (x = g) as ->.
    { assert (Hxin : In x (g :: G))
        by (eapply Permutation_in; [ exact HP | left; reflexivity ]).
      assert (Hgin : In g (x :: F))
        by (eapply Permutation_in;
            [ symmetry; exact HP | left; reflexivity ]).
      destruct Hxin as [-> | Hxin]; [ reflexivity | ].
      destruct Hgin as [-> | Hgin]; [ reflexivity | ].
      apply Hg in Hxin. apply Hx in Hgin.
      unfold key_lt in Hxin. unfold event_le in Hgin. lia. }
    f_equal. apply IH; auto. eapply Permutation_cons_inv, HP.
Qed.

Lemma points_from_idx bs : forall i e,
  In e (points_from i bs) ->
  (i <= buffer_idx e < i + length bs)%nat.
Proof.
  induction bs as [|buf bs IH]; intros i e H; [ destruct H | ].
  cbn [points_from] in H. apply in_app_iff in H. destruct H as [H | H].
  - apply buffer_points_idx in H. simpl. lia.
  - apply IH in H. simpl. lia.
Qed.

Lemma last_opt_In {A} (l : list A) x : last_opt l = Some x -> In x l.
Proof.
  induction l as [|y l IH]; simpl; [ discriminate | ].
  destruct l as [|z l]; [ intro H; injection H as <-; auto | ].
  intro H. right. apply IH, H.
Qed.

Lemma strongly_sorted_before {A} (R : A -> A -> Prop) l1 : forall e l2 x,
  StronglySorted R (l1 ++ e :: l2) -> In x l1 -> R x e.
Proof.
  induction l1 as [|y l1 IH]; simpl; intros e l2 x H Hin; [ destruct Hin | ].
  inversion H as [|? ? Hs Hy]; subst. destruct Hin as [<- | Hin].
  - rewrite Forall_forall in Hy. apply Hy, in_elt.
  - eapply IH; eassumption.
Qed.

Lemma key_lt_time a b : key_lt a b -> time_value a <= time_value b.
Proof. unfold key_lt. lia. Qed.

Lemma arranged_points_nonneg idx b e :
  wf_buffer b -> In e (arranged_points idx b) -> 0 <= time_value e.
Proof.
  intros Hw He. pose proof (arranged_points_sorted idx b Hw) as Hs.
  destruct Hw as [H0 Hg]. unfold arranged_points in *.
  assert (Hhead : forall x l, StronglySorted key_lt (x :: l) ->
                    In e (x :: l) -> time_value x = lower (lifespan b) ->
                    0 <= time_value e).
  { intros x l Hxl Hin Hx. inversion Hxl as [|? ? _ Hall]; subst.
    rewrite Forall_forall in Hall. destruct Hin as [<- | Hin]; [ lia | ].
    apply Hall, key_lt_time in Hin. lia. }
  destruct (gaps b) as [|g gs].
  - eapply Hhead; [ exact Hs | exact He | reflexivity ].
  - destruct (lower (gap_lifespan g) =? lower (lifespan b)) eqn:E.
    + apply Z.eqb_eq in E.
      eapply Hhead; [ exact Hs | exact He | exact E ].
    + eapply Hhead; [ exact Hs | exact He | reflexivity ].
Qed.

Section WellFormed.

Variable problem : Problem.
Hypothesis Hwf : wf_problem problem.

Variable pts : list Point.
Hypothesis Hperm : Permutation (make_points problem) pts.
Hypothesis Hsorted : StronglySorted event_le pts.

Lemma sorted_events_of_buffer b :
  filter (of_buffer b) pts =
    match nth_error (buffers problem) b with
    | Some buf => arranged_points b buf
    | None => []
    end.
Proof.
  apply sorted_arrangement_unique.
  - apply filter_strongly_sorted, Hsorted.
  - destruct (nth_error (buffers problem) b) as [buf|] eqn:E;
      [ | constructor ].
    apply arranged_points_sorted.
    unfold wf_problem in Hwf. rewrite Forall_forall in Hwf.
    eapply Hwf, nth_error_In, E.
  - eapply perm_trans.
    + apply filter_perm. symmetry. exact Hperm.
    + rewrite make_points_filter.
      destruct (nth_error (buffers problem) b) as [buf|];
        [ apply arranged_points_perm | apply Permutation_refl ].
Qed.

Lemma event_of_buffer e :
  In e pts ->
  exists buf, nth_error (buffers problem) (buffer_idx e) = Some buf /\
              wf_buffer buf /\ In e (arranged_points (buffer_idx e) buf).
Proof.
  intro Hin.
  assert (H : In e (filter (of_buffer (buffer_idx e)) pts)).
  { apply filter_In. split; [ exact Hin | ].
    unfold of_buffer. apply Nat.eqb_refl. }
  rewrite sorted_events_of_buffer in H.
  destruct (nth_error (buffers problem) (buffer_idx e)) as [buf|] eqn:E;
    [ | destruct H ].
  exists buf. split; [ reflexivity | ]. split; [ | exact H ].
  unfold wf_problem in Hwf. rewrite Forall_forall in Hwf.
  eapply Hwf, nth_error_In, E.
Qed.

Lemma event_nonneg e : In e pts -> 0 <= time_value e.
Proof.
  intro Hin. destruct (event_of_buffer e Hin) as (buf & _ & Hw & He).
  eapply arranged_points_nonneg; eassumption.
Qed.

Lemma wf_protocol : Protocol (length (buffers problem)) pts.
Proof.
  constructor.
  - intros e Hin. destruct (event_of_buffer e Hin) as (buf & E & _).
    apply nth_error_Some. congruence.
  - apply event_nonneg.
  - intros l1 e l2 E. unfold now.
    destruct (last_opt l1) as [x|] eqn:El.
    + apply event_le_time. apply last_opt_In in El.
      eapply strongly_sorted_before; [ rewrite <- E; exact Hsorted | exact El ].
    + assert (0 <= time_value e); [ | lia ].
      apply event_nonneg. rewrite E. apply in_elt.
  - intros l1 e l2 E.
    assert (Hin : In e pts) by (rewrite E; apply in_elt).
    destruct (event_of_buffer e Hin) as (buf & Eb & Hw & _).
    pose proof (sorted_events_of_buffer (buffer_idx e)) as Hf.
    rewrite Eb, E, filter_app in Hf. simpl in Hf.
    unfold of_buffer at 2 in Hf. rewrite Nat.eqb_refl in Hf.
    destruct (arranged_points_legal (buffer_idx e) buf Hw) as (Hl & _).
    rewrite <- Hf in Hl. apply legal_run_app in Hl.
    destruct Hl as (_ & Hl & _). exact Hl.
  - intro b. unfold status_after.
    rewrite sorted_events_of_buffer.
    destruct (nth_error (buffers problem) b) as [buf|] eqn:E;
      [ | split; reflexivity ].
    apply arranged_points_legal.
    unfold wf_problem in Hwf. rewrite Forall_forall in Hwf.
    eapply Hwf, nth_error_In, E.
Qed.

End WellFormed.

(** ** Partitions and spans of well-formed problems *)



(** C4 (code at a failing input): one buffer [0,10) whose windowless gap
    [3,10) lasts to the end of the lifespan.  The sweep records the two
    sections {0} and {}, but the true end at time 10 finds no span open and
    leaves the range of the partition unset, and the gap end at time 10,
    processed after it, opens a second partition: both partitions keep the
    range [0,0) and no section is covered. *)
Theorem gap_to_end_leaves_partitions_open :
  contract_problem gap_to_end_problem /\
  forall es : Buffer -> Buffer -> option Z,
  exists r,
    Sweep es gap_to_end_problem = Some r /\
    sections r = [[0%nat]; []] /\
    partitions r = [ mkPartition [0%nat] (mkInterval 0 0);
                     mkPartition [] (mkInterval 0 0) ] /\
    ~ covers (map section_range (partitions r))
        (Z.of_nat (length (sections r))).
Proof.
  split; [ repeat constructor; simpl; lia | ].
  intro es. eexists. split; [ vm_compute; reflexivity | ].
  split; [ reflexivity | ]. split; [ reflexivity | ].
  intros (_ & _ & Hc).
  destruct (proj1 (Hc 0)) as (q & Hq & Hk); [ simpl; lia | ].
  simpl in Hq. destruct Hq as [<- | [<- | []]]; simpl in Hk; lia.
Qed.







(** ** Comparison and equality operators *)

Lemma list_eqb_spec {A} (eqb : A -> A -> bool) :
  (forall x y, eqb x y = true <-> x = y) ->
  forall l l', list_eqb eqb l l' = true <-> l = l'.
Proof.
  intro H. induction l as [|x l IH]; destruct l' as [|y l']; simpl;
    try (split; [ discriminate | congruence ]); [ tauto | ].
  rewrite andb_true_iff, H, IH. split; [ intros [-> ->] | intro E ].
  - reflexivity.
  - injection E as -> ->. auto.
Qed.

Lemma Interval_eqb_spec a x : Interval_eqb a x = true <-> a = x.
Proof.
  unfold Interval_eqb. destruct a, x; simpl.
  rewrite andb_true_iff, !Z.eqb_eq. split; [ intros [-> ->] | intro E ].
  - reflexivity.
  - injection E as -> ->. auto.
Qed.

Lemma SectionSpan_eqb_spec a x : SectionSpan_eqb a x = true <-> a = x.
Proof.
  unfold SectionSpan_eqb. destruct a, x; simpl.
  rewrite andb_true_iff, !Interval_eqb_spec.
  split; [ intros [-> ->] | intro E ].
  - reflexivity.
  - injection E as -> ->. auto.
Qed.

Lemma Partition_eqb_spec a x : Partition_eqb a x = true <-> a = x.
Proof.
  unfold Partition_eqb. destruct a, x; simpl.
  rewrite andb_true_iff, Interval_eqb_spec,
    (list_eqb_spec Nat.eqb Nat.eqb_eq).
  split; [ intros [-> ->] | intro E ].
  - reflexivity.
  - injection E as -> ->. auto.
Qed.

Lemma Overlap_eqb_spec a x : Overlap_eqb a x = true <-> a = x.
Proof.
  unfold Overlap_eqb. destruct a, x; simpl.
  rewrite andb_true_iff, Nat.eqb_eq, Z.eqb_eq.
  split; [ intros [-> ->] | intro E ].
  - reflexivity.
  - injection E as -> ->. auto.
Qed.

Lemma BufferData_eqb_spec a x : BufferData_eqb a x = true <-> a = x.
Proof.
  unfold BufferData_eqb. destruct a, x; simpl.
  rewrite andb_true_iff, (list_eqb_spec _ SectionSpan_eqb_spec),
    (list_eqb_spec _ Overlap_eqb_spec).
  split; [ intros [-> ->] | intro E ].
  - reflexivity.
  - injection E as -> ->. auto.
Qed.

(** The equality operator of results holds exactly of results whose
    sections, partitions (members and range) and buffer data (spans with
    their windows, overlaps) are the same, element for element. *)
Theorem SweepResult_eqb_iff (a x : SweepResult) :
  SweepResult_eqb a x = true <-> a = x.
Proof.
  unfold SweepResult_eqb. destruct a, x; simpl.
  rewrite !andb_true_iff, (list_eqb_spec _ Partition_eqb_spec),
    (list_eqb_spec _ BufferData_eqb_spec),
    (list_eqb_spec _ (list_eqb_spec Nat.eqb Nat.eqb_eq)).
  split; [ intros [[-> ->] ->] | intro E ].
  - reflexivity.
  - injection E as -> -> ->. auto.
Qed.

(** [Point::operator<] is a strict weak order: irreflexive and transitive,
    and two points are unordered exactly when they agree on time, kind and
    buffer index; the window plays no part. *)
Theorem Point_lt_strict_weak_order :
  (forall a, Point_lt a a = false) /\
  (forall a b c, Point_lt a b = true -> Point_lt b c = true ->
                 Point_lt a c = true) /\
  (forall a b, Point_lt a b = false /\ Point_lt b a = false <->
               time_value a = time_value b /\
               point_type a = point_type b /\
               buffer_idx a = buffer_idx b).
Proof.
  assert (Hv : forall s t, PointType_value s = PointType_value t -> s = t)
    by (intros [] []; simpl; intros; congruence || lia).
  assert (Hlt : forall a b, Point_lt a b = true <->
            time_value a < time_value b \/
            (time_value a = time_value b /\
             (PointType_value (point_type a) < PointType_value (point_type b)
              \/ (PointType_value (point_type a)
                    = PointType_value (point_type b) /\
                  (buffer_idx a < buffer_idx b)%nat)))).
  { intros a b. unfold Point_lt.
    destruct (time_value a =? time_value b) eqn:E1; simpl;
      [ apply Z.eqb_eq in E1 | apply Z.eqb_neq in E1; rewrite Z.ltb_lt; lia ].
    destruct (PointType_value (point_type a)
                =? PointType_value (point_type b)) eqn:E2; simpl;
      [ apply Z.eqb_eq in E2; rewrite Nat.ltb_lt
      | apply Z.eqb_neq in E2; rewrite Z.ltb_lt ]; lia. }
  split; [ | split ].
  - intro a. destruct (Point_lt a a) eqn:E; [ | reflexivity ].
    apply Hlt in E. lia.
  - intros a b c H1 H2. apply Hlt in H1, H2. apply Hlt. lia.
  - intros a b. split.
    + intros [H1 H2].
      assert (N1 : ~ Point_lt a b = true) by congruence.
      assert (N2 : ~ Point_lt b a = true) by congruence.
      rewrite Hlt in N1, N2.
      assert (time_value a = time_value b) by lia.
      assert (PointType_value (point_type a)
                = PointType_value (point_type b)) by lia.
      split; [ assumption | ]. split; [ apply Hv; assumption | lia ].
    + intros (H1 & H2 & H3).
      split; apply not_true_is_false; rewrite Hlt, H2; lia.
Qed.

(** [Overlap::operator<] is a strict total order with respect to
    [Overlap::operator==]: irreflexive, transitive, and of two overlaps
    that are not equal one is less than the other. *)
Theorem Overlap_lt_strict_total_order :
  (forall a, Overlap_lt a a = false) /\
  (forall a b c, Overlap_lt a b = true -> Overlap_lt b c = true ->
                 Overlap_lt a c = true) /\
  (forall a b, Overlap_lt a b = false /\ Overlap_lt b a = false <->
               Overlap_eqb a b = true).
Proof.
  assert (Hlt : forall a b, Overlap_lt a b = true <->
            (overlap_idx a < overlap_idx b)%nat \/
            (overlap_idx a = overlap_idx b /\ effective a < effective b)).
  { intros a b. unfold Overlap_lt.
    destruct (overlap_idx a =? overlap_idx b)%nat eqn:E; simpl;
      [ apply Nat.eqb_eq in E; rewrite Z.ltb_lt
      | apply Nat.eqb_neq in E; rewrite Nat.ltb_lt ]; lia. }
  split; [ | split ].
  - intro a. destruct (Overlap_lt a a) eqn:E; [ | reflexivity ].
    apply Hlt in E. lia.
  - intros a b c H1 H2. apply Hlt in H1, H2. apply Hlt. lia.
  - intros a b. rewrite Overlap_eqb_spec. split.
    + intros [H1 H2]. apply Overlap_lt_neither; assumption.
    + intros <-. split; apply not_true_is_false; rewrite Hlt; lia.
Qed.

(** ** The number of events *)

Lemma points_from_length bs : forall i,
  length (points_from i bs) =
    (2 * length bs + 2 * list_sum (map (fun b => length (gaps b)) bs))%nat.
Proof.
  induction bs as [|b bs IH]; intro i; [ reflexivity | ].
  cbn [points_from]. rewrite length_app, IH. unfold buffer_points.
  cbn [length map list_sum]. rewrite length_app. cbn [length].
  assert (H : forall gs, length (flat_map (gap_points i) gs)
                         = (2 * length gs)%nat).
  { induction gs as [|g gs IHg]; simpl in *; lia. }
  rewrite H. simpl. lia.
Qed.

(** The loop of the sweep runs once per buffer end and once per gap end:
    [2 * (buffers + gaps)] iterations. *)
Theorem sorted_points_length (problem : Problem) :
  length (sorted_points problem) =
    (2 * (length (buffers problem) + gap_count problem))%nat.
Proof.
  unfold sorted_points.
  rewrite <- (Permutation_length (sort_points_perm (make_points problem))).
  unfold make_points, gap_count. rewrite points_from_length. lia.
Qed.

(** ** The effect of the parts of an iteration on the state *)

Lemma vec_upd_nth {A} (l l' : list A) i f :
  vec_upd l i f = Some l' ->
  length l' = length l /\
  forall j x', nth_error l' j = Some x' ->
    (j = i /\ exists x, nth_error l i = Some x /\ x' = f x) \/
    (j <> i /\ nth_error l j = Some x').
Proof.
  intro H. apply vec_upd_inv in H. destruct H as (y & Hy & -> & Hi).
  split; [ apply vec_set_length | ].
  intros j x' Hx'. destruct (Nat.eq_dec i j) as [<- | Hne].
  - rewrite vec_set_nth_error_eq in Hx' by exact Hi. injection Hx' as <-.
    left. eauto.
  - rewrite vec_set_nth_error_neq in Hx' by exact Hne. right. auto.
Qed.

Lemma close_partition_effect st st' :
  close_partition st = Some st' ->
  buffer_idx_to_section_start st' = buffer_idx_to_section_start st /\
  buffer_data (result st') = buffer_data (result st) /\
  members (result st') = members (result st) /\
  length (partitions (result st')) = length (partitions (result st)).
Proof.
  unfold close_partition. intro H.
  destruct (alive st); [ | injection H as <-; auto ].
  destruct (upd_back _ _) as [ps|] eqn:E; [ | discriminate ].
  injection H as <-. simpl.
  apply upd_back_inv in E. destruct E as (ps0 & q & E1 & ->).
  unfold members. simpl. rewrite E1, !map_app, !concat_app, !length_app.
  auto.
Qed.

(** What closing a span changes: nothing, or one span pushed for the
    buffer of the point and its span start cleared. *)
Lemma close_span_effect p st st' :
  close_span p st = Some st' ->
  members (result st') = members (result st) /\
  length (partitions (result st')) = length (partitions (result st)) /\
  ((buffer_data (result st') = buffer_data (result st) /\
    buffer_idx_to_section_start st' = buffer_idx_to_section_start st) \/
   (exists start w,
      closes p = true /\
      nth_error (buffer_idx_to_section_start st) (buffer_idx p)
        = Some start /\ start <> -1 /\
      nth_error (buffer_idx_to_window st) (buffer_idx p) = Some w /\
      vec_upd (buffer_data (result st)) (buffer_idx p)
        (push_span
           (mkSectionSpan
              (mkInterval start (to_int (length (sections (result st)))))
              w))
        = Some (buffer_data (result st')) /\
      buffer_idx_to_section_start st'
        = vec_set (buffer_idx_to_section_start st) (buffer_idx p) (-1))).
Proof.
  unfold close_span. intro H.
  destruct (closes p); [ | injection H as <-; auto ].
  destruct (nth_error (buffer_idx_to_section_start st) (buffer_idx p))
    as [start|] eqn:Es; [ | discriminate ].
  destruct (start =? -1) eqn:E1; simpl in H; [ injection H as <-; auto | ].
  apply Z.eqb_neq in E1.
  destruct (nth_error (buffer_idx_to_window st) (buffer_idx p))
    as [w|] eqn:Ew; [ | discriminate ].
  destruct (vec_upd _ _ _) as [d|] eqn:Ed; [ | discriminate ].
  destruct (close_partition _) as [st1|] eqn:Ec; [ | discriminate ].
  injection H as <-. simpl.
  apply close_partition_effect in Ec. simpl in Ec.
  destruct Ec as (C1 & C2 & C3 & C4).
  split; [ exact C3 | ]. split; [ exact C4 | ].
  right. exists start, w. rewrite C1, C2.
  repeat split; auto.
Qed.














(** ** Overlap sets *)







(** ** Soundness along the loop *)








(** ** Every result of the sweep *)












(** ** The members of the partitions *)




Lemma flush_section_partitions p st :
  partitions (result (flush_section p st)) = partitions (result st).
Proof.
  unfold flush_section. destruct (closes p); [ | reflexivity ].
  destruct (last_section_time st <? time_value p); reflexivity.
Qed.

Lemma erase_buffer_result p st : result (erase_buffer p st) = result st.
Proof.
  unfold erase_buffer.
  destruct (isRight p || isEmptyRightGap p), (isRight p); reflexivity.
Qed.

Lemma init_time_result p st : result (init_time p st) = result st.
Proof.
  unfold init_time. destruct (last_section_time st =? -1); reflexivity.
Qed.






(** ** Spans lie within the sections *)

Lemma push_overlap_spans d i o d' :
  vec_upd d i (push_overlap o) = Some d' -> same_spans d d'.
Proof.
  intro H. pose proof (vec_upd_inv _ _ _ _ H) as (y & _ & _ & Hi).
  destruct (push_overlap_same_spans d i o Hi) as (d'' & E & S).
  rewrite H in E. injection E as <-. exact S.
Qed.

Lemma pair_with_spans es problem idx buffer d a d' :
  pair_with es problem idx buffer d a = Some d' -> same_spans d d'.
Proof.
  unfold pair_with. intro H.
  destruct (nth_error (buffers problem) a) as [active|]; [ | discriminate ].
  destruct (es active buffer) as [s1|].
  - destruct (vec_upd d a _) as [d1|] eqn:U1; [ | discriminate ].
    apply push_overlap_spans in U1.
    destruct (es buffer active) as [s2|].
    + apply push_overlap_spans in H. eapply same_spans_trans; eassumption.
    + injection H as <-. exact U1.
  - destruct (es buffer active) as [s2|].
    + apply push_overlap_spans in H. exact H.
    + injection H as <-. apply same_spans_refl.
Qed.

Lemma pair_all_spans es problem idx buffer acts : forall d d',
  pair_all es problem idx buffer d acts = Some d' -> same_spans d d'.
Proof.
  induction acts as [|a acts IH]; simpl; intros d d' H.
  - injection H as <-. apply same_spans_refl.
  - destruct (pair_with es problem idx buffer d a) as [d1|] eqn:E;
      [ | discriminate ].
    eapply same_spans_trans; [ eapply pair_with_spans, E | apply IH, H ].
Qed.












(** ** Cut counts of results with a buffer without spans *)

Lemma cut_all_none ds :
  Exists (fun d => section_spans d = []) ds ->
  forall cuts, cut_all cuts ds = None.
Proof.
  induction 1 as [d ds Hd | d ds _ IH]; intro cuts; simpl.
  - unfold cut_buffer, front_lower. rewrite Hd. reflexivity.
  - destruct (cut_buffer cuts d); [ apply IH | reflexivity ].
Qed.

(** [CalculateCuts] reads the first and the last span of every buffer: on a
    result in which some buffer has no span it is undefined. *)
Theorem cuts_undefined_without_spans (r : SweepResult) :
  Exists (fun d => section_spans d = []) (buffer_data r) ->
  CalculateCuts r = None.
Proof. intro H. apply cut_all_none, H. Qed.

(** A buffer with an empty lifespan is left without a span by the sweep, and
    the cut counts of the result are undefined. *)
Lemma cuts_undefined_without_spans_witness :
  Sweep no_conflict empty_lifespan_problem = Some empty_lifespan_result /\
  Exists (fun d => section_spans d = []) (buffer_data empty_lifespan_result) /\
  CalculateCuts empty_lifespan_result = None.
Proof.
  split; [ vm_compute; reflexivity | ].
  assert (H : Exists (fun d => section_spans d = [])
                (buffer_data empty_lifespan_result)).
  { apply Exists_cons_tl, Exists_cons_hd. reflexivity. }
  split; [ exact H | ].
  apply (cuts_undefined_without_spans empty_lifespan_result H).
Defined.

(** ** Spans and members along one iteration *)

Lemma close_span_spans p st st' :
  close_span p st = Some st' ->
  forall i d', nth_error (buffer_data (result st')) i = Some d' ->
    exists d l,
      nth_error (buffer_data (result st)) i = Some d /\
      section_spans d' = section_spans d ++ l /\
      (i = buffer_idx p -> closes p = true ->
       forall s, nth_error (buffer_idx_to_section_start st) i = Some s ->
                 s <> -1 -> l <> []).
Proof.
  unfold close_span. intros H i d' Hd'.
  assert (Hsame : forall x : SweepState, Some st = Some x ->
            (closes p = true ->
             forall s, nth_error (buffer_idx_to_section_start st)
                         (buffer_idx p) = Some s -> s = -1) ->
            nth_error (buffer_data (result x)) i = Some d' ->
            exists d l,
              nth_error (buffer_data (result st)) i = Some d /\
              section_spans d' = section_spans d ++ l /\
              (i = buffer_idx p -> closes p = true ->
               forall s, nth_error (buffer_idx_to_section_start st) i
                           = Some s -> s <> -1 -> l <> [])).
  { intros x Hx Hno Hi. injection Hx as <-. exists d', [].
    rewrite app_nil_r. split; [ exact Hi | ]. split; [ reflexivity | ].
    intros -> Hc s Hs Hne. exfalso. apply Hne. eapply Hno; eassumption. }
  destruct (closes p) eqn:Ec;
    [ | apply (Hsame st' H); [ discriminate | exact Hd' ] ].
  destruct (nth_error (buffer_idx_to_section_start st) (buffer_idx p))
    as [start|] eqn:Es; [ | discriminate ].
  destruct (start =? -1) eqn:E1; simpl in H.
  { apply Z.eqb_eq in E1. apply (Hsame st' H); [ | exact Hd' ].
    intros _ s Hs. congruence. }
  destruct (nth_error (buffer_idx_to_window st) (buffer_idx p))
    as [w|] eqn:Ew; [ | discriminate ].
  destruct (vec_upd _ _ _) as [d|] eqn:Ed; [ | discriminate ].
  destruct (close_partition _) as [st1|] eqn:Ecp; [ | discriminate ].
  injection H as <-. simpl in Hd'.
  apply close_partition_effect in Ecp. simpl in Ecp.
  destruct Ecp as (_ & C2 & _). rewrite C2 in Hd'.
  destruct (vec_upd_nth _ _ _ _ Ed) as [_ Hv].
  destruct (Hv i d' Hd') as [(-> & x & Hx & ->) | (Hne & Hi)].
  - exists x, [mkSectionSpan
                 (mkInterval start (to_int (length (sections (result st)))))
                 w].
    split; [ exact Hx | ]. split; [ reflexivity | ]. intros; discriminate.
  - exists d', []. rewrite app_nil_r. split; [ exact Hi | ].
    split; [ reflexivity | ]. intros; congruence.
Qed.

Lemma close_span_idxs p st st' :
  close_span p st = Some st' ->
  map buffer_idxs (partitions (result st'))
    = map buffer_idxs (partitions (result st)).
Proof.
  unfold close_span. intro H.
  destruct (closes p); [ | injection H as <-; reflexivity ].
  destruct (nth_error (buffer_idx_to_section_start st) (buffer_idx p))
    as [start|]; [ | discriminate ].
  destruct (start =? -1); simpl in H; [ injection H as <-; reflexivity | ].
  destruct (nth_error (buffer_idx_to_window st) (buffer_idx p)) as [w|];
    [ | discriminate ].
  destruct (vec_upd _ _ _) as [d|]; [ | discriminate ].
  destruct (close_partition _) as [st1|] eqn:Ecp; [ | discriminate ].
  injection H as <-. simpl.
  unfold close_partition in Ecp. simpl in Ecp.
  destruct (alive st); [ | injection Ecp as <-; reflexivity ].
  destruct (upd_back _ _) as [ps|] eqn:E; [ | discriminate ].
  injection Ecp as <-. simpl. apply upd_back_inv in E.
  destruct E as (ps0 & q & -> & ->). rewrite !map_app. reflexivity.
Qed.

Lemma open_join_idxs p st st' :
  join_partition p (open_partition p st) = Some st' ->
  (isLeft p = false -> activates p = true -> alive st <> []) ->
  Forall (fun q => buffer_idxs q <> []) (partitions (result st)) ->
  Forall (fun q => buffer_idxs q <> []) (partitions (result st')).
Proof.
  unfold join_partition, open_partition. intros H Ha HF.
  assert (Hpush : forall ps ps',
            upd_back ps (push_idx (buffer_idx p)) = Some ps' ->
            (forall ps0 q, ps = ps0 ++ [q] ->
               Forall (fun q => buffer_idxs q <> []) ps0) ->
            Forall (fun q => buffer_idxs q <> []) ps').
  { intros ps ps' E Hps. apply upd_back_inv in E.
    destruct E as (ps0 & q & E1 & ->). apply Forall_app. split.
    - eapply Hps, E1.
    - repeat constructor. simpl. intro E. apply app_eq_nil in E.
      destruct E; discriminate. }
  destruct (isLeft p) eqn:EL.
  - assert (Eact : activates p = true) by (unfold activates; rewrite EL; auto).
    rewrite Eact in H.
    destruct (upd_back _ _) as [ps|] eqn:E; [ | discriminate ].
    injection H as <-. simpl. eapply Hpush; [ exact E | ].
    intros ps0 q E1. destruct (alive st); simpl in E1.
    + apply app_inj_tail in E1. destruct E1 as [<- _]. exact HF.
    + rewrite E1 in HF. apply Forall_app in HF. apply HF.
  - injection H as <-. destruct (activates p); [ | exact HF ].
    destruct (alive st); [ exfalso; apply Ha; reflexivity | exact HF ].
Qed.

Lemma activating_alive st p st3 buffer st1 st2 :
  activates p = true ->
  reset_window p buffer (init_time p st) = Some st1 ->
  close_span p (erase_buffer p (flush_section p st1)) = Some st2 ->
  override_window p st2 = Some st3 ->
  alive st3 = alive st.
Proof.
  intros Ha H1 H2 H3.
  destruct (kind_facts p) as (_ & K2 & _).
  destruct (K2 Ha) as (Kc & _ & Kr & _).
  rewrite (override_window_frame _ _ _ H3). simpl.
  destruct (close_span_frame _ _ _ H2) as (_ & -> & _).
  unfold erase_buffer, flush_section. rewrite Kc, Kr.
  rewrite (reset_window_frame _ _ _ _ H1). unfold init_time.
  destruct (false || isEmptyRightGap p), (last_section_time st =? -1);
    reflexivity.
Qed.

Lemma step_partition_idxs es problem st p st' :
  step es problem st p = Some st' ->
  (isLeft p = false -> activates p = true -> alive st <> []) ->
  Forall (fun q => buffer_idxs q <> []) (partitions (result st)) ->
  Forall (fun q => buffer_idxs q <> []) (partitions (result st')).
Proof.
  intros H Ha HF. apply step_inv in H.
  destruct H as (b & st1 & st2 & st3 & st4 & st5 & Hb & H1 & H2 & H3 & H4
                 & H5 & H6).
  rewrite (open_span_frame _ _ _ H6). simpl. rewrite insert_buffer_result.
  rewrite (record_overlaps_frame _ _ _ _ _ _ H5). simpl.
  eapply open_join_idxs; [ exact H4 | | ].
  - intros EL Eact.
    rewrite (activating_alive st p st3 b st1 st2); auto.
  - rewrite (override_window_frame _ _ _ H3). simpl.
    assert (E : map buffer_idxs (partitions (result st2))
                = map buffer_idxs (partitions (result st))).
    { rewrite (close_span_idxs _ _ _ H2), erase_buffer_result,
        flush_section_partitions, (reset_window_frame _ _ _ _ H1).
      simpl. rewrite init_time_result. reflexivity. }
    rewrite Forall_forall in *. intros q Hq.
    assert (Hin : In (buffer_idxs q)
                    (map buffer_idxs (partitions (result st))))
      by (rewrite <- E; apply in_map, Hq).
    apply in_map_iff in Hin. destruct Hin as (q' & <- & Hq'). auto.
Qed.

Lemma step_spans es problem st p st' :
  step es problem st p = Some st' ->
  forall i d', nth_error (buffer_data (result st')) i = Some d' ->
    exists d l,
      nth_error (buffer_data (result st)) i = Some d /\
      section_spans d' = section_spans d ++ l /\
      (i = buffer_idx p -> closes p = true ->
       forall s, nth_error (buffer_idx_to_section_start st) i = Some s ->
                 s <> -1 -> l <> []).
Proof.
  intros H i d' Hd'. apply step_inv in H.
  destruct H as (b & st1 & st2 & st3 & st4 & st5 & Hb & H1 & H2 & H3 & H4
                 & H5 & H6).
  rewrite (open_span_frame _ _ _ H6) in Hd'. simpl in Hd'.
  rewrite insert_buffer_result in Hd'.
  assert (S45 : same_spans (buffer_data (result st4))
                  (buffer_data (result st5))).
  { unfold record_overlaps in H5. destruct (activates p).
    - destruct (pair_all _ _ _ _ _ _) as [d|] eqn:E; [ | discriminate ].
      injection H5 as <-. simpl. eapply pair_all_spans, E.
    - injection H5 as <-. apply same_spans_refl. }
  destruct S45 as [_ S45]. destruct (S45 i d' Hd') as (x & Hx & Ex).
  rewrite (join_partition_frame _ _ _ H4) in Hx. simpl in Hx.
  assert (E3 : buffer_data (result (open_partition p st3))
               = buffer_data (result st2)).
  { rewrite (override_window_frame _ _ _ H3). unfold open_partition.
    destruct (activates p); [ | reflexivity ].
    destruct (alive _); reflexivity. }
  rewrite E3 in Hx.
  destruct (close_span_spans _ _ _ H2 i x Hx) as (d & l & Hd & El & Hl).
  rewrite erase_buffer_result in Hd.
  assert (E1 : result (flush_section p st1)
               = mkSweepResult (sections (result (flush_section p st1)))
                   (partitions (result st)) (buffer_data (result st))).
  { unfold flush_section. rewrite (reset_window_frame _ _ _ _ H1).
    unfold init_time.
    destruct (closes p), (last_section_time st =? -1); simpl;
      try destruct (_ <? _); simpl; destruct st as [? ? ? ? ? ? []];
      reflexivity. }
  rewrite E1 in Hd. simpl in Hd.
  exists d, l. split; [ exact Hd | ]. split; [ congruence | ].
  intros Ei Hc s Hs Hne. apply (Hl Ei Hc s); [ | exact Hne ].
  assert (Es : buffer_idx_to_section_start
                 (erase_buffer p (flush_section p st1))
               = buffer_idx_to_section_start st).
  { unfold erase_buffer, flush_section.
    rewrite (reset_window_frame _ _ _ _ H1). unfold init_time.
    destruct (isRight p || isEmptyRightGap p), (isRight p), (closes p),
      (last_section_time st =? -1); simpl;
      try destruct (_ <? _); reflexivity. }
  rewrite Es. exact Hs.
Qed.

(** ** Ended buffers have spans, partitions have members *)

Lemma step_settled es problem n sigma N t st e st' :
  length (buffers problem) = n ->
  Inv n sigma N t st -> Settled sigma st ->
  legal (sigma (buffer_idx e)) e ->
  step es problem st e = Some st' ->
  Settled (upd_status sigma (buffer_idx e)
             (next_status (sigma (buffer_idx e)) e)) st'.
Proof.
  intros Hlen HI [HS HP] Hleg H.
  assert (Hn : (buffer_idx e < n)%nat).
  { apply step_inv in H. destruct H as (b & _ & _ & _ & _ & _ & Hb & _).
    rewrite <- Hlen. apply nth_error_Some. congruence. }
  split.
  - intros b' d' Hd' He.
    destruct (step_spans _ _ _ _ _ H b' d' Hd') as (d & l & Hd & El & Hl).
    rewrite El. intro Hnil. apply app_eq_nil in Hnil.
    destruct Hnil as [Hnil1 Hnil2].
    destruct (Nat.eq_dec b' (buffer_idx e)) as [-> | Hne].
    + rewrite upd_status_same in He.
      assert (Hc : point_type e = kRight \/
                   ended (sigma (buffer_idx e)) = true).
      { unfold next_status in He.
        destruct (point_type e), (window e), (sigma (buffer_idx e));
          simpl in He; try discriminate; auto. }
      destruct Hc as [Ept | Hend]; [ | apply (HS _ _ Hd Hend Hnil1) ].
      assert (Hcl : closes e = true)
        by (unfold closes, isRight; rewrite Ept; reflexivity).
      assert (Hop : exists t0, sigma (buffer_idx e) = Opened t0).
      { destruct (sigma (buffer_idx e)); simpl in Hleg;
          unfold isEmptyLeftGap, isWindowedLeftGap in Hleg;
          rewrite ?Ept in Hleg; simpl in Hleg; try discriminate; eauto;
          try (destruct Hleg; discriminate). }
      destruct Hop as (t0 & Es).
      destruct (nth_error (buffer_idx_to_section_start st) (buffer_idx e))
        as [s|] eqn:Est.
      2: { apply nth_error_None in Est.
           rewrite (inv_len_starts _ _ _ _ _ HI) in Est. lia. }
      pose proof (inv_start _ _ _ _ _ HI _ _ Est) as Hst.
      rewrite Es in Hst.
      apply (Hl eq_refl Hcl s eq_refl); [ lia | exact Hnil2 ].
    + rewrite upd_status_other in He by exact Hne.
      apply (HS _ _ Hd He Hnil1).
  - eapply step_partition_idxs; [ exact H | | exact HP ].
    intros EL Ea Hnil.
    assert (HG : isEmptyLeftGap e = true).
    { unfold activates in Ea. rewrite EL in Ea. exact Ea. }
    assert (Hlive : live (sigma (buffer_idx e)) = true).
    { destruct (isEmptyLeftGap_inv e HG) as (Ept & Ew).
      destruct (sigma (buffer_idx e)); simpl in Hleg |- *;
        try reflexivity; try contradiction;
        unfold isWindowedLeftGap in Hleg; rewrite ?Ept, ?Ew in Hleg;
        simpl in Hleg; try discriminate; destruct Hleg; discriminate. }
    apply (inv_alive _ _ _ _ _ HI) in Hlive. rewrite Hnil in Hlive.
    exact Hlive.
Qed.

Lemma Settled_ext sigma sigma' st :
  (forall b, sigma b = sigma' b) -> Settled sigma st -> Settled sigma' st.
Proof.
  intros E [H1 H2]. split; [ | exact H2 ].
  intros b d Hd He. rewrite <- E in He. eauto.
Qed.

Lemma run_settled es problem n pts :
  length (buffers problem) = n ->
  Protocol n pts ->
  Z.of_nat (length pts) < 2 ^ 31 ->
  forall rest prefix st,
    pts = prefix ++ rest ->
    Inv n (status_after prefix) (Z.of_nat (length prefix)) (now prefix) st ->
    Settled (status_after prefix) st ->
    exists st',
      run es problem st rest = Some st' /\
      Inv n (status_after pts) (Z.of_nat (length pts)) (now pts) st' /\
      Settled (status_after pts) st'.
Proof.
  intros Hlen HP Hsz.
  induction rest as [|e rest IH]; intros prefix st Hpts HI HS.
  - rewrite app_nil_r in Hpts. subst prefix. exists st. auto.
  - assert (Hin : In e pts) by (rewrite Hpts; apply in_elt).
    destruct (nth_error (buffers problem) (buffer_idx e)) as [buffer|] eqn:Eb.
    2: { apply nth_error_None in Eb.
         pose proof (proto_idx _ _ HP e Hin). lia. }
    assert (Hl : Z.of_nat (length prefix) + 1 < 2 ^ 31).
    { rewrite Hpts, length_app in Hsz. simpl in Hsz. lia. }
    pose proof (proto_legal _ _ HP prefix e rest Hpts) as Hleg.
    destruct (step_preserves es problem n _ _ _ st e buffer HI Hlen Eb)
      as (st1 & Hst & HI1); auto.
    + apply (proto_time _ _ HP prefix e rest Hpts).
    + apply (proto_nonneg _ _ HP), Hin.
    + pose proof (step_settled es problem n _ _ _ st e st1 Hlen HI HS Hleg Hst)
        as HS1.
      simpl. rewrite Hst.
      apply (IH (prefix ++ [e]) st1).
      * rewrite <- app_assoc. exact Hpts.
      * rewrite now_app, length_app. simpl length.
        replace (Z.of_nat (length prefix + 1)) with
          (Z.of_nat (length prefix) + 1) by lia.
        eapply Inv_ext; [ | exact HI1 ].
        intro b'. symmetry. apply status_after_app.
      * eapply Settled_ext; [ | exact HS1 ].
        intro b'. symmetry. apply status_after_app.
Qed.

Lemma run_status_begun l : forall s, l <> [] -> run_status s l <> Fresh.
Proof.
  assert (Hn : forall s e, next_status s e <> Fresh).
  { intros s e. unfold next_status.
    destruct (point_type e), (window e), s; discriminate. }
  induction l as [|e l IH]; intros s Hl; [ congruence | ].
  simpl. destruct l as [|e' l]; [ apply Hn | ].
  apply IH. discriminate.
Qed.

Lemma arranged_points_not_nil idx b : arranged_points idx b <> [].
Proof.
  unfold arranged_points. destruct (gaps b); [ discriminate | ].
  destruct (_ =? _); discriminate.
Qed.

(** The sweep of a well-formed problem: it returns, every buffer has a
    span, every partition has a member, and the guarantees of the
    invariant hold of the result. *)
Lemma Sweep_settled es problem :
  wf_problem problem ->
  Z.of_nat (length (make_points problem)) < 2 ^ 31 ->
  exists r,
    Sweep es problem = Some r /\
    length (buffer_data r) = length (buffers problem) /\
    Forall (fun d => section_spans d <> []) (buffer_data r) /\
    Forall (fun q => buffer_idxs q <> []) (partitions r).
Proof.
  intros Hwf Hsz.
  pose proof (sort_points_perm (make_points problem)) as Hperm.
  pose proof (sort_points_sorted (make_points problem)) as Hsorted.
  fold (sorted_points problem) in Hperm, Hsorted.
  pose proof (wf_protocol problem Hwf _ Hperm Hsorted) as HP.
  assert (Hlen : Z.of_nat (length (sorted_points problem)) < 2 ^ 31)
    by (rewrite <- (Permutation_length Hperm); exact Hsz).
  assert (HS0 : Settled (status_after []) (initial_state problem)).
  { split; [ | constructor ]. intros b d Hd He. discriminate. }
  destruct (run_settled es problem _ (sorted_points problem) eq_refl HP Hlen
              (sorted_points problem) [] (initial_state problem) eq_refl
              (initial_inv problem) HS0)
    as (st & Hrun & HI & HS & HQ).
  - unfold Sweep, sweep_points. rewrite Hrun. exists (result st).
    split; [ reflexivity | ].
    split; [ apply (inv_len_data _ _ _ _ _ HI) | ].
    split; [ | exact HQ ].
    apply Forall_forall. intros d Hd. apply In_nth_error in Hd.
    destruct Hd as (b & Hb). apply (HS b d Hb).
    assert (Hlt : (b < length (buffers problem))%nat).
    { rewrite <- (inv_len_data _ _ _ _ _ HI). apply nth_error_Some.
      congruence. }
    destruct (proto_end _ _ HP b) as (Hlive & Hpend).
    assert (Hbegun : status_after (sorted_points problem) b <> Fresh).
    { unfold status_after.
      rewrite (sorted_events_of_buffer problem Hwf _ Hperm Hsorted).
      destruct (nth_error (buffers problem) b) as [buf|] eqn:E.
      - apply run_status_begun, arranged_points_not_nil.
      - apply nth_error_None in E. lia. }
    destruct (status_after (sorted_points problem) b); simpl in *;
      congruence.
Qed.



(** For a well-formed problem with fewer than 2^31 events the sweep
    returns, and every partition of the result has at least one member. *)
Theorem Sweep_partitions_inhabited es problem :
  wf_problem problem ->
  Z.of_nat (length (make_points problem)) < 2 ^ 31 ->
  exists r,
    Sweep es problem = Some r /\
    Forall (fun q => buffer_idxs q <> []) (partitions r).
Proof.
  intros Hwf Hsz.
  destruct (Sweep_settled es problem Hwf Hsz) as (r & Hr & _ & _ & Hq).
  exists r. auto.
Qed.

Lemma Sweep_partitions_inhabited_witness :
  exists r,
    Sweep size_sum edge_gaps_problem = Some r /\
    Forall (fun q => buffer_idxs q <> []) (partitions r).
Proof.
  apply (Sweep_partitions_inhabited size_sum edge_gaps_problem).
  - unfold wf_problem, wf_buffer. simpl.
    repeat (apply Forall_cons || apply Forall_nil); simpl; repeat split;
      try lia; try (left; lia); right; split; [ lia | discriminate ].
  - vm_compute. reflexivity.
Defined.





(** ** The active set and the overlaps along one iteration *)

Lemma step_actives es problem st p st' :
  step es problem st p = Some st' ->
  actives st' =
    let s := if isRight p || isEmptyRightGap p
             then set_erase (buffer_idx p) (actives st) else actives st in
    if activates p then set_insert (buffer_idx p) s else s.
Proof.
  intro H. apply step_inv in H.
  destruct H as (b & st1 & st2 & st3 & st4 & st5 & Hb & H1 & H2 & H3 & H4
                 & H5 & H6).
  rewrite (open_span_frame _ _ _ H6). simpl.
  assert (E5 : actives st5 = actives st3).
  { rewrite (record_overlaps_frame _ _ _ _ _ _ H5). simpl.
    rewrite (join_partition_frame _ _ _ H4). simpl.
    unfold open_partition. destruct (activates p); [ | reflexivity ].
    destruct (alive st3); reflexivity. }
  assert (E3 : actives st3 =
               if isRight p || isEmptyRightGap p
               then set_erase (buffer_idx p) (actives st) else actives st).
  { rewrite (override_window_frame _ _ _ H3). simpl.
    destruct (close_span_frame _ _ _ H2) as (-> & _).
    unfold erase_buffer, flush_section.
    rewrite (reset_window_frame _ _ _ _ H1). unfold init_time.
    destruct (isRight p || isEmptyRightGap p), (isRight p), (closes p),
      (last_section_time st =? -1); simpl;
      try destruct (_ <? _); reflexivity. }
  cbv zeta. rewrite <- E3, <- E5. unfold insert_buffer.
  destruct (activates p), (isLeft p); reflexivity.
Qed.

(** An activating iteration pairs the buffer with the active set it finds
    and changes the buffer data in no other way. *)
Lemma step_activating es problem st p st' :
  activates p = true ->
  step es problem st p = Some st' ->
  exists buffer,
    nth_error (buffers problem) (buffer_idx p) = Some buffer /\
    pair_all es problem (buffer_idx p) buffer (buffer_data (result st))
      (actives st) = Some (buffer_data (result st')).
Proof.
  intros Ha H.
  destruct (kind_facts p) as (_ & K2 & _).
  destruct (K2 Ha) as (Kc & _ & _ & Kwr & Kwl).
  unfold step in H.
  destruct (nth_error (buffers problem) (buffer_idx p)) as [buffer|];
    [ | discriminate ].
  exists buffer. split; [ reflexivity | ].
  rewrite (reset_window_noop _ _ _ Kwr), (closing_noop _ _ Kc),
    (override_window_noop _ _ Kwl) in H.
  destruct (join_partition _ _) as [st4|] eqn:E4; [ | discriminate ].
  destruct (record_overlaps _ _ _ _ _) as [st5|] eqn:E5; [ | discriminate ].
  rewrite (open_span_frame _ _ _ H). simpl. rewrite insert_buffer_result.
  unfold record_overlaps in E5. rewrite Ha in E5.
  destruct (pair_all _ _ _ _ _ _) as [d|] eqn:Ep; [ | discriminate ].
  injection E5 as <-. simpl. rewrite <- Ep.
  rewrite (join_partition_frame _ _ _ E4). simpl.
  unfold open_partition, init_time. rewrite Ha.
  destruct (alive _), (last_section_time st =? -1); reflexivity.
Qed.

(** An iteration that does not activate leaves every overlap set as it
    is. *)
Lemma step_not_activating es problem st p st' :
  activates p = false ->
  step es problem st p = Some st' ->
  forall j, overlaps_of (buffer_data (result st')) j
            = overlaps_of (buffer_data (result st)) j.
Proof.
  intros Ha H j. apply step_inv in H.
  destruct H as (b & st1 & st2 & st3 & st4 & st5 & Hb & H1 & H2 & H3 & H4
                 & H5 & H6).
  rewrite (open_span_frame _ _ _ H6). simpl. rewrite insert_buffer_result.
  unfold record_overlaps in H5. rewrite Ha in H5. injection H5 as <-.
  rewrite (join_partition_frame _ _ _ H4). simpl.
  unfold open_partition. rewrite Ha.
  rewrite (override_window_frame _ _ _ H3). simpl.
  assert (E1 : buffer_data (result (erase_buffer p (flush_section p st1)))
               = buffer_data (result st)).
  { rewrite erase_buffer_result. unfold flush_section.
    rewrite (reset_window_frame _ _ _ _ H1). unfold init_time.
    destruct (closes p), (last_section_time st =? -1); simpl;
      try destruct (_ <? _); reflexivity. }
  destruct (close_span_effect _ _ _ H2) as (_ & _ & [[E _] | E]).
  - rewrite E, E1. reflexivity.
  - destruct E as (start & w & _ & _ & _ & _ & Hd & _).
    rewrite E1 in Hd. apply vec_upd_inv in Hd.
    destruct Hd as (y & Hy & -> & Hi). unfold overlaps_of.
    destruct (Nat.eq_dec (buffer_idx p) j) as [<- | Hne].
    + rewrite vec_set_nth_error_eq by exact Hi. rewrite Hy. reflexivity.
    + rewrite vec_set_nth_error_neq by exact Hne. reflexivity.
Qed.

Lemma step_act es problem sigma st e st' :
  Act sigma st ->
  legal (sigma (buffer_idx e)) e ->
  step es problem st e = Some st' ->
  Act (upd_status sigma (buffer_idx e)
         (next_status (sigma (buffer_idx e)) e)) st'.
Proof.
  intros [Hs HA] Hleg H. unfold Act.
  rewrite (step_actives _ _ _ _ _ H). cbv zeta.
  assert (Hs1 : StronglySorted lt
            (if isRight e || isEmptyRightGap e
             then set_erase (buffer_idx e) (actives st) else actives st)).
  { destruct (isRight e || isEmptyRightGap e); [ | exact Hs ].
    apply set_erase_sorted, Hs. }
  split.
  { destruct (activates e); [ apply set_insert_sorted | ]; exact Hs1. }
  intro a. destruct (Nat.eq_dec a (buffer_idx e)) as [-> | Hne].
  - rewrite upd_status_same. specialize (HA (buffer_idx e)).
    unfold next_status, activates, isLeft, isRight, isEmptyLeftGap,
      isEmptyRightGap.
    destruct (point_type e) eqn:Ept; destruct (window e) eqn:Ew; simpl;
      rewrite ?set_insert_In, ?set_erase_In by exact Hs;
      destruct (sigma (buffer_idx e)); simpl in Hleg, HA |- *;
      unfold closes, isRight, isEmptyRightGap, isWindowedRightGap,
        isWindowedLeftGap, isEmptyLeftGap in Hleg;
      rewrite ?Ept, ?Ew in Hleg; simpl in Hleg;
      intuition (congruence || discriminate).
  - rewrite upd_status_other by exact Hne. rewrite <- HA.
    destruct (activates e), (isRight e || isEmptyRightGap e);
      rewrite ?set_insert_In, ?set_erase_In by exact Hs; tauto.
Qed.

Lemma run_app es problem l1 : forall l2 st st',
  run es problem st (l1 ++ l2) = Some st' <->
  exists st1, run es problem st l1 = Some st1 /\
              run es problem st1 l2 = Some st'.
Proof.
  induction l1 as [|p l1 IH]; simpl; intros l2 st st'.
  - split; [ eauto | intros (st1 & E & H); injection E as <-; exact H ].
  - destruct (step es problem st p) as [st0|].
    + apply IH.
    + split; [ discriminate | intros (st1 & E & _); discriminate ].
Qed.

(** Along the events of a protocol the active set holds the buffers with a
    span open. *)
Lemma run_act es problem pts :
  (forall l1 e l2, pts = l1 ++ e :: l2 ->
                   legal (status_after l1 (buffer_idx e)) e) ->
  forall prefix rest st,
    pts = prefix ++ rest ->
    run es problem (initial_state problem) prefix = Some st ->
    Act (status_after prefix) st.
Proof.
  intros Hleg prefix. induction prefix as [|e prefix IH] using rev_ind;
    intros rest st Hpts H.
  - simpl in H. injection H as <-. split; [ constructor | ].
    intro a. simpl. split; [ intros [] | discriminate ].
  - apply run_app in H. destruct H as (st1 & H1 & H2). simpl in H2.
    destruct (step es problem st1 e) as [st2|] eqn:E; [ | discriminate ].
    injection H2 as <-. rewrite <- app_assoc in Hpts. simpl in Hpts.
    specialize (IH (e :: rest) st1 Hpts H1).
    pose proof (step_act es problem _ _ _ _ IH
                  (Hleg prefix e rest Hpts) E) as HA.
    destruct HA as [Hs HA]. split; [ exact Hs | ].
    intro a. rewrite status_after_app. apply HA.
Qed.

(** ** Where overlaps come from *)

Lemma step_overlaps es problem st p st' :
  step es problem st p = Some st' ->
  forall j x, In x (overlaps_of (buffer_data (result st')) j) <->
    (activates p = true /\
     exists a active buffer s,
       In a (actives st) /\
       nth_error (buffers problem) a = Some active /\
       nth_error (buffers problem) (buffer_idx p) = Some buffer /\
       ((j = a /\ es active buffer = Some s /\
         x = mkOverlap (buffer_idx p) s) \/
        (j = buffer_idx p /\ es buffer active = Some s /\
         x = mkOverlap a s))) \/
    In x (overlaps_of (buffer_data (result st)) j).
Proof.
  intros H j x. destruct (activates p) eqn:Ha.
  - destruct (step_activating _ _ _ _ _ Ha H) as (buffer & Hb & Hp).
    rewrite (pair_all_spec _ _ _ _ _ _ _ Hp). split.
    + intros [(a & active & s & Hin & Hn & Hc) | Hx]; [ | auto ].
      left. split; [ reflexivity | ]. exists a, active, buffer, s. auto.
    + intros [(_ & a & active & buffer' & s & Hin & Hn & Hb' & Hc) | Hx];
        [ | auto ].
      rewrite Hb in Hb'. injection Hb' as <-.
      left. exists a, active, s. auto.
  - rewrite (step_not_activating _ _ _ _ _ Ha H). split; [ auto | ].
    intros [(E & _) | Hx]; [ discriminate | exact Hx ].
Qed.

Lemma run_overlaps_grow es problem pts : forall st st',
  run es problem st pts = Some st' ->
  forall j x, In x (overlaps_of (buffer_data (result st)) j) ->
              In x (overlaps_of (buffer_data (result st')) j).
Proof.
  induction pts as [|p pts IH]; simpl; intros st st' H j x Hx.
  - injection H as <-. exact Hx.
  - destruct (step es problem st p) as [st1|] eqn:E; [ | discriminate ].
    apply (IH _ _ H). apply (step_overlaps _ _ _ _ _ E). auto.
Qed.



(** An activating event records, in both directions, what the collaborator
    answers for its buffer and each active buffer; the entries are still
    there at the end of the run. *)
Lemma pairing_recorded es problem e l2 st1 st a A B :
  run es problem st1 (e :: l2) = Some st ->
  activates e = true -> In a (actives st1) ->
  nth_error (buffers problem) a = Some A ->
  nth_error (buffers problem) (buffer_idx e) = Some B ->
  (forall s, es A B = Some s ->
     In (mkOverlap (buffer_idx e) s)
        (overlaps_of (buffer_data (result st)) a)) /\
  (forall s, es B A = Some s ->
     In (mkOverlap a s)
        (overlaps_of (buffer_data (result st)) (buffer_idx e))).
Proof.
  intros H Ha Hin HA HB. simpl in H.
  destruct (step es problem st1 e) as [st2|] eqn:E; [ | discriminate ].
  split; intros s Hs; apply (run_overlaps_grow _ _ _ _ _ H);
    apply (step_overlaps _ _ _ _ _ E); left; (split; [ exact Ha | ]);
    exists a, A, B, s; (split; [ exact Hin | ]); (split; [ exact HA | ]);
    (split; [ exact HB | ]); [ left | right ]; auto.
Qed.

(** ** Events and statuses against the lifespans *)








Section SweptWellFormed.

Variable problem : Problem.
Hypothesis Hwf : wf_problem problem.

Variable pts : list Point.
Hypothesis Hperm : Permutation (make_points problem) pts.
Hypothesis Hsorted : StronglySorted event_le pts.



End SweptWellFormed.

(** ** Overlaps against the lifespans *)

Lemma Sweep_run es problem r :
  Sweep es problem = Some r ->
  exists st,
    run es problem (initial_state problem) (sorted_points problem) = Some st /\
    result st = r.
Proof.
  unfold Sweep, sweep_points. intro H.
  destruct (run _ _ _ _) as [st|]; [ | discriminate ].
  injection H as <-. eauto.
Qed.

Lemma sorted_points_legal problem :
  wf_problem problem ->
  forall l1 e l2, sorted_points problem = l1 ++ e :: l2 ->
                  legal (status_after l1 (buffer_idx e)) e.
Proof.
  intro Hwf.
  apply (proto_legal _ _ (wf_protocol problem Hwf _
           (sort_points_perm (make_points problem))
           (sort_points_sorted (make_points problem)))).
Qed.



Section GaplessPairs.

Variable problem : Problem.
Hypothesis Hwf : wf_problem problem.

Variable pts : list Point.
Hypothesis Hperm : Permutation (make_points problem) pts.
Hypothesis Hsorted : StronglySorted event_le pts.

Lemma gapless_events a A :
  nth_error (buffers problem) a = Some A -> gaps A = [] ->
  filter (of_buffer a) pts =
    [true_start a A; true_end a (upper (lifespan A))].
Proof.
  intros HA Hg.
  rewrite (sorted_events_of_buffer problem Hwf pts Hperm Hsorted a), HA.
  unfold arranged_points. rewrite Hg. reflexivity.
Qed.

(** A gapless buffer whose true start has been processed has a span open
    until its true end. *)
Lemma gapless_opened l1 e l2 a A :
  pts = l1 ++ e :: l2 ->
  nth_error (buffers problem) a = Some A -> gaps A = [] ->
  In (true_start a A) l1 ->
  time_value e < upper (lifespan A) ->
  opened (status_after l1 a) = true.
Proof.
  intros Hpts HA Hg Hin Ht.
  pose proof (gapless_events a A HA Hg) as Hf.
  rewrite Hpts, filter_app in Hf. unfold status_after.
  assert (Hs : In (true_start a A) (filter (of_buffer a) l1)).
  { apply filter_In. split; [ exact Hin | ].
    unfold of_buffer. simpl. apply Nat.eqb_refl. }
  assert (Hr : ~ In (true_end a (upper (lifespan A)))
                 (filter (of_buffer a) l1)).
  { intro Hr. apply filter_In in Hr. destruct Hr as [Hr _].
    pose proof (strongly_sorted_before event_le l1 e l2 _
                  ltac:(rewrite <- Hpts; exact Hsorted) Hr) as Hle.
    apply event_le_time in Hle. simpl in Hle. lia. }
  destruct (filter (of_buffer a) l1) as [|x [|y f]]; simpl in Hf.
  - destruct Hs.
  - injection Hf as -> _. reflexivity.
  - injection Hf as -> -> _.
    exfalso. apply Hr. right. left. reflexivity.
Qed.

End GaplessPairs.

(** For a well-formed problem, whenever the sweep returns: two distinct
    buffers without gaps whose lifespans share a time are paired, and the
    effective size the collaborator answers for the first with the second
    is recorded among the overlaps of the first. *)
Theorem Sweep_gapless_overlap_recorded es problem r a b A B s :
  wf_problem problem ->
  Sweep es problem = Some r ->
  nth_error (buffers problem) a = Some A ->
  nth_error (buffers problem) b = Some B ->
  a <> b -> gaps A = [] -> gaps B = [] ->
  lifespans_meet A B ->
  es A B = Some s ->
  In (mkOverlap b s) (overlaps_of (buffer_data r) a).
Proof.
  intros Hwf Hr HA HB Hab HgA HgB [M1 M2] Hs.
  destruct (Sweep_run _ _ _ Hr) as (st & Hrun & <-).
  pose proof (sort_points_perm (make_points problem)) as Hperm.
  pose proof (sort_points_sorted (make_points problem)) as Hsorted.
  fold (sorted_points problem) in Hperm, Hsorted.
  assert (Hstart : forall c C,
            nth_error (buffers problem) c = Some C -> gaps C = [] ->
            In (true_start c C) (sorted_points problem)).
  { intros c C HC Hg.
    eapply proj1. apply (filter_In (of_buffer c)).
    rewrite (gapless_events problem Hwf _ Hperm Hsorted c C HC Hg).
    left. reflexivity. }
  assert (Hcase : forall c C d D l1 l2,
            nth_error (buffers problem) c = Some C -> gaps C = [] ->
            nth_error (buffers problem) d = Some D ->
            lower (lifespan D) < upper (lifespan C) ->
            sorted_points problem = l1 ++ true_start d D :: l2 ->
            In (true_start c C) l1 ->
            exists st1,
              run es problem st1 (true_start d D :: l2) = Some st /\
              In c (actives st1)).
  { intros c C d D l1 l2 HC Hg HD Hlt Hpts Hin.
    rewrite Hpts in Hrun. apply run_app in Hrun.
    destruct Hrun as (st1 & H1 & H2). exists st1. split; [ exact H2 | ].
    pose proof (run_act es problem _ (sorted_points_legal problem Hwf)
                  l1 _ st1 Hpts H1) as [_ HAct].
    apply HAct.
    apply (gapless_opened problem Hwf _ Hperm Hsorted l1 _ l2 c C Hpts HC Hg
             Hin).
    exact Hlt. }
  pose proof (Hstart b B HB HgB) as Hb.
  apply in_split in Hb. destruct Hb as (l1 & l2 & Hpts).
  pose proof (Hstart a A HA HgA) as Ha.
  rewrite Hpts in Ha. apply in_app_iff in Ha.
  destruct Ha as [Ha | [Ha | Ha]].
  - destruct (Hcase a A b B l1 l2 HA HgA HB M2 Hpts Ha) as (st1 & H2 & Hin).
    destruct (pairing_recorded es problem _ _ _ _ a A B H2 eq_refl Hin HA HB)
      as [P1 _].
    apply P1, Hs.
  - exfalso. apply Hab. injection Ha as E. symmetry. exact E.
  - apply in_split in Ha. destruct Ha as (l2a & l2b & ->).
    assert (Hpts' : sorted_points problem
                    = (l1 ++ true_start b B :: l2a) ++ true_start a A :: l2b).
    { rewrite Hpts, <- app_assoc. reflexivity. }
    destruct (Hcase b B a A _ l2b HB HgB HA M1 Hpts') as (st1 & H2 & Hin).
    { apply in_elt. }
    destruct (pairing_recorded es problem _ _ _ _ b B A H2 eq_refl Hin HB HA)
      as [_ P2].
    apply P2, Hs.
Qed.

Lemma Sweep_gapless_overlap_recorded_witness :
  Sweep size_sum two_overlapping_problem = Some two_overlapping_sum_result /\
  In (mkOverlap 1%nat 8)
     (overlaps_of (buffer_data two_overlapping_sum_result) 0%nat).
Proof.
  split; [ vm_compute; reflexivity | ].
  apply (Sweep_gapless_overlap_recorded size_sum two_overlapping_problem
           two_overlapping_sum_result 0%nat 1%nat
           (mkBuffer (mkInterval 0 10) 4 [])
           (mkBuffer (mkInterval 5 15) 4 []) 8).
  - unfold wf_problem, wf_buffer. simpl.
    repeat (apply Forall_cons || apply Forall_nil); simpl; repeat split; lia.
  - vm_compute. reflexivity.
  - reflexivity.
  - reflexivity.
  - discriminate.
  - reflexivity.
  - reflexivity.
  - unfold lifespans_meet. simpl. lia.
  - reflexivity.
Defined.

(** ** The effect of an iteration on the partitions *)

Lemma step_alive es problem st p st' :
  step es problem st p = Some st' ->
  alive st' =
    let s := if isRight p then set_erase (buffer_idx p) (alive st)
             else alive st in
    if isLeft p then set_insert (buffer_idx p) s else s.
Proof.
  intro H. apply step_inv in H.
  destruct H as (b & st1 & st2 & st3 & st4 & st5 & Hb & H1 & H2 & H3 & H4
                 & H5 & H6).
  rewrite (open_span_frame _ _ _ H6). simpl.
  assert (E5 : alive st5 = alive st3).
  { rewrite (record_overlaps_frame _ _ _ _ _ _ H5). simpl.
    rewrite (join_partition_frame _ _ _ H4). simpl.
    unfold open_partition. destruct (activates p); [ | reflexivity ].
    destruct (alive st3) eqn:Ea; simpl; auto. }
  assert (E3 : alive st3 =
               if isRight p then set_erase (buffer_idx p) (alive st)
               else alive st).
  { rewrite (override_window_frame _ _ _ H3). simpl.
    destruct (close_span_frame _ _ _ H2) as (_ & -> & _).
    unfold erase_buffer, flush_section.
    rewrite (reset_window_frame _ _ _ _ H1). unfold init_time.
    destruct (isRight p || isEmptyRightGap p), (isRight p), (closes p),
      (last_section_time st =? -1); simpl;
      try destruct (_ <? _); reflexivity. }
  cbv zeta. rewrite <- E3, <- E5. unfold insert_buffer.
  destruct (activates p), (isLeft p); reflexivity.
Qed.

(** An activating iteration: a partition is pushed when no buffer is alive,
    and a true start joins the last partition; the sections and the index
    of the last closed section stay. *)
Lemma step_activating_partitions es problem st p st' :
  activates p = true ->
  step es problem st p = Some st' ->
  sections (result st') = sections (result st) /\
  last_section_idx st' = last_section_idx st /\
  let ps2 := match alive st with
             | [] => partitions (result st) ++ [mkPartition [] (mkInterval 0 0)]
             | _ :: _ => partitions (result st)
             end in
  (isLeft p = true ->
   exists ps0 q, ps2 = ps0 ++ [q] /\
     partitions (result st') = ps0 ++ [push_idx (buffer_idx p) q]) /\
  (isLeft p = false -> partitions (result st') = ps2).
Proof.
  intros Ha H.
  destruct (kind_facts p) as (_ & K2 & _).
  destruct (K2 Ha) as (Kc & _ & _ & Kwr & Kwl).
  pose proof (step_sections _ _ _ _ _ H) as Hsec. rewrite Kc in Hsec.
  split; [ exact Hsec | ].
  unfold step in H.
  destruct (nth_error (buffers problem) (buffer_idx p)) as [buffer|];
    [ | discriminate ].
  rewrite (reset_window_noop _ _ _ Kwr), (closing_noop _ _ Kc),
    (override_window_noop _ _ Kwl) in H.
  destruct (join_partition _ _) as [st4|] eqn:E4; [ | discriminate ].
  destruct (record_overlaps _ _ _ _ _) as [st5|] eqn:E5; [ | discriminate ].
  rewrite (open_span_frame _ _ _ H). simpl. rewrite insert_buffer_result.
  rewrite (record_overlaps_frame _ _ _ _ _ _ E5). simpl.
  assert (E0 : partitions (result (open_partition p (init_time p st))) =
               match alive st with
               | [] => partitions (result st)
                         ++ [mkPartition [] (mkInterval 0 0)]
               | _ :: _ => partitions (result st)
               end /\
               last_section_idx (open_partition p (init_time p st))
               = last_section_idx st).
  { unfold open_partition, init_time. rewrite Ha.
    destruct (last_section_time st =? -1); simpl;
      destruct (alive st); simpl; auto. }
  destruct E0 as [E0 E0'].
  split.
  { unfold insert_buffer. rewrite Ha.
    rewrite (record_overlaps_frame _ _ _ _ _ _ E5).
    rewrite (join_partition_frame _ _ _ E4).
    destruct (isLeft p); simpl; exact E0'. }
  cbv zeta. unfold join_partition in E4. split.
  - intro EL. rewrite EL in E4.
    destruct (upd_back _ _) as [ps|] eqn:Eu; [ | discriminate ].
    injection E4 as <-. simpl. apply upd_back_inv in Eu.
    destruct Eu as (ps0 & q & E1 & ->). rewrite E0 in E1. eauto.
  - intro EL. rewrite EL in E4. injection E4 as <-. exact E0.
Qed.

(** A closing iteration leaves the partitions as they are, or, when it
    closes the span of the last alive buffer, sets the range of the last
    partition to the sections recorded since the partition before. *)
Lemma step_closing_partitions es problem st p st' :
  closes p = true ->
  step es problem st p = Some st' ->
  (partitions (result st') = partitions (result st) /\
   last_section_idx st' = last_section_idx st /\
   (nth_error (buffer_idx_to_section_start st) (buffer_idx p) = Some (-1) \/
    alive st' <> [])) \/
  (alive st' = [] /\
   (exists s, nth_error (buffer_idx_to_section_start st) (buffer_idx p)
                = Some s /\ s <> -1) /\
   exists ps0 q,
     partitions (result st) = ps0 ++ [q] /\
     partitions (result st') =
       ps0 ++ [set_range
                 (mkInterval (last_section_idx st)
                    (to_int (length (sections (result st'))))) q] /\
     last_section_idx st' = to_int (length (sections (result st')))).
Proof.
  intros Hc H. pose proof (step_alive _ _ _ _ _ H) as Hal.
  destruct (kind_facts p) as (K1 & _ & _ & _ & _ & K6).
  pose proof (K1 Hc) as Ka. pose proof (K6 Ka) as EL.
  rewrite EL in Hal. cbv zeta in Hal.
  apply step_inv in H.
  destruct H as (b & st1 & st2 & st3 & st4 & st5 & Hb & H1 & H2 & H3 & H4
                 & H5 & H6).
  destruct (activation_noop es problem p b st3 Ka) as (A1 & A2 & A3).
  rewrite A1 in H4. injection H4 as <-.
  rewrite A2 in H5. injection H5 as <-.
  rewrite A3 in H6.
  assert (E' : partitions (result st') = partitions (result st2) /\
               last_section_idx st' = last_section_idx st2 /\
               sections (result st') = sections (result st2)).
  { rewrite (open_span_frame _ _ _ H6). simpl.
    rewrite (override_window_frame _ _ _ H3). simpl. auto. }
  destruct E' as (-> & -> & ->).
  set (se := erase_buffer p (flush_section p st1)) in *.
  assert (Ese : partitions (result se) = partitions (result st) /\
                last_section_idx se = last_section_idx st /\
                buffer_idx_to_section_start se
                  = buffer_idx_to_section_start st /\
                alive se = alive st').
  { unfold se. rewrite erase_buffer_result, flush_section_partitions.
    rewrite (reset_window_frame _ _ _ _ H1). simpl.
    rewrite init_time_result. rewrite Hal.
    unfold erase_buffer, flush_section, init_time. rewrite Hc.
    destruct (isRight p || isEmptyRightGap p), (isRight p),
      (last_section_time st =? -1); simpl;
      try destruct (_ <? _); simpl; auto. }
  destruct Ese as (P1 & P2 & P3 & P4).
  pose proof (close_span_frame _ _ _ H2) as (_ & _ & _ & _ & F5).
  unfold close_span in H2. rewrite Hc in H2. rewrite P3 in H2.
  destruct (nth_error (buffer_idx_to_section_start st) (buffer_idx p))
    as [start|] eqn:Es; [ | discriminate ].
  destruct (start =? -1) eqn:E1; simpl in H2.
  { apply Z.eqb_eq in E1. subst start. injection H2 as <-. left. auto. }
  apply Z.eqb_neq in E1.
  destruct (nth_error (buffer_idx_to_window se) (buffer_idx p)) as [w|];
    [ | discriminate ].
  destruct (vec_upd _ _ _) as [d|]; [ | discriminate ].
  destruct (close_partition _) as [sc|] eqn:Ecp; [ | discriminate ].
  injection H2 as <-. simpl in *.
  unfold close_partition in Ecp. simpl in Ecp. rewrite P4 in Ecp.
  destruct (alive st') eqn:Eal.
  - destruct (upd_back _ _) as [ps|] eqn:Eu; [ | discriminate ].
    injection Ecp as <-. simpl in *. right.
    split; [ reflexivity | ]. split; [ eauto | ].
    apply upd_back_inv in Eu. destruct Eu as (ps0 & q & E2 & ->).
    rewrite P1 in E2. exists ps0, q. rewrite P2. auto.
  - injection Ecp as <-. simpl. left.
    split; [ exact P1 | ]. split; [ exact P2 | ]. right. discriminate.
Qed.

(** ** Sections hold only members of their partition *)

Lemma sec_in_idxs secs lo hi idxs idxs' :
  (forall a, In a idxs -> In a idxs') ->
  sec_in secs lo hi idxs -> sec_in secs lo hi idxs'.
Proof. intros Hi H k s a Hk Hs Ha. eauto. Qed.

Lemma sec_in_app secs lo hi idxs s :
  hi <= Z.of_nat (length secs) ->
  sec_in secs lo hi idxs -> sec_in (secs ++ [s]) lo hi idxs.
Proof.
  intros Hhi H k x a Hk Hx Ha.
  rewrite nth_error_app1 in Hx by lia. eauto.
Qed.

Lemma sec_in_push secs lo idxs s :
  (forall a, In a s -> In a idxs) ->
  sec_in secs lo (Z.of_nat (length secs)) idxs ->
  sec_in (secs ++ [s]) lo (Z.of_nat (length (secs ++ [s]))) idxs.
Proof.
  intros Hs H k x a Hk Hx Ha. rewrite length_app in Hk. simpl in Hk.
  destruct (Nat.lt_ge_cases k (length secs)) as [Hlt | Hge].
  - rewrite nth_error_app1 in Hx by exact Hlt.
    apply (H k x a); [ lia | exact Hx | exact Ha ].
  - assert (k = length secs) by lia. subst k.
    rewrite nth_error_app2, Nat.sub_diag in Hx by lia.
    injection Hx as <-. auto.
Qed.

Lemma closed_ok_app secs s q :
  closed_ok secs q -> closed_ok (secs ++ [s]) q.
Proof.
  intros [H1 H2]. split.
  - rewrite length_app. simpl. lia.
  - apply sec_in_app; assumption.
Qed.

Lemma not_activates_closes p : activates p = false -> closes p = true.
Proof.
  unfold activates, closes, isLeft, isRight, isEmptyLeftGap, isEmptyRightGap,
    isWindowedRightGap, isWindowedLeftGap.
  destruct (point_type p), (window p); simpl; congruence.
Qed.

(** What the invariant and the protocol give at an event. *)
Lemma legal_facts n sigma N t st e :
  Inv n sigma N t st -> (buffer_idx e < n)%nat ->
  legal (sigma (buffer_idx e)) e ->
  (isEmptyLeftGap e = true -> In (buffer_idx e) (alive st)) /\
  (closes e = true ->
   forall s, nth_error (buffer_idx_to_section_start st) (buffer_idx e)
               = Some s -> s <> -1 -> In (buffer_idx e) (alive st)) /\
  (isRight e = true ->
   nth_error (buffer_idx_to_section_start st) (buffer_idx e) <> Some (-1)).
Proof.
  intros HI Hn Hleg.
  assert (Hlive : forall x, live (sigma x) = true -> In x (alive st))
    by (intro x; apply (inv_alive _ _ _ _ _ HI)).
  split; [ | split ].
  - intro HG. apply Hlive. destruct (isEmptyLeftGap_inv e HG) as (Ept & Ew).
    destruct (sigma (buffer_idx e)); simpl in Hleg |- *;
      try reflexivity; try contradiction;
      unfold isWindowedLeftGap in Hleg; rewrite ?Ept, ?Ew in Hleg;
      simpl in Hleg; try discriminate; destruct Hleg; discriminate.
  - intros Hc s Hs Hne. apply Hlive.
    pose proof (inv_start _ _ _ _ _ HI _ _ Hs) as Hst.
    pose proof (activates_not_closes e) as Hna.
    destruct (sigma (buffer_idx e)); simpl in Hleg |- *;
      try reflexivity; try contradiction; try congruence;
      exfalso; unfold closes, isRight, isEmptyRightGap, isWindowedRightGap,
        isWindowedLeftGap in Hc; rewrite Hleg in Hc; discriminate.
  - intros HR Hs.
    pose proof (inv_start _ _ _ _ _ HI _ _ Hs) as Hst.
    unfold isRight in HR.
    destruct (point_type e) eqn:Ept; try discriminate.
    destruct (sigma (buffer_idx e)); simpl in Hleg;
      unfold isEmptyLeftGap, isWindowedLeftGap in Hleg;
      rewrite ?Ept in Hleg; simpl in Hleg; try discriminate;
      try (destruct Hleg; discriminate); try contradiction.
    lia.
Qed.

Lemma step_indep es problem n sigma N t st e st' :
  Inv n sigma N t st -> (buffer_idx e < n)%nat -> N + 1 < 2 ^ 31 ->
  Indep st ->
  legal (sigma (buffer_idx e)) e ->
  step es problem st e = Some st' ->
  Indep st'.
Proof.
  intros HI Hn HN (ps0 & cur & I1 & I2 & I3 & I0 & I4 & I5) Hleg H.
  destruct (legal_facts n sigma N t st e HI Hn Hleg) as (F1 & F2 & F3).
  pose proof (step_alive _ _ _ _ _ H) as Eal.
  pose proof (step_actives _ _ _ _ _ H) as Eac.
  pose proof (inv_alive_sorted _ _ _ _ _ HI) as Hsa.
  cbv zeta in Eal, Eac.
  destruct (activates e) eqn:Ha.
  - (* an activating event *)
    assert (Hk : isLeft e = true \/ isEmptyLeftGap e = true).
    { unfold activates in Ha. apply orb_true_iff in Ha. exact Ha. }
    destruct (activates_kinds e Hk) as (_ & Kr & Kre & _).
    rewrite Kr in Eal. rewrite Kr, Kre in Eac. simpl in Eac.
    destruct (step_activating_partitions _ _ _ _ _ Ha H)
      as (Esec & Eidx & PL & PG).
    assert (Hcur : exists q0,
              match alive st with
              | [] => partitions (result st)
                        ++ [mkPartition [] (mkInterval 0 0)]
              | _ :: _ => partitions (result st)
              end = ps0 ++ [q0] /\ buffer_idxs q0 = cur).
    { destruct I1 as [(E1 & E2 & E3) | (E1 & q & E2 & E3)].
      - rewrite E1, E2, E3. eauto.
      - destruct (alive st); [ congruence | ]. eauto. }
    destruct Hcur as (q0 & Eps & Ecur).
    destruct (isLeft e) eqn:EL.
    + destruct (PL eq_refl) as (ps0' & q' & E1 & E2).
      rewrite Eps in E1. apply app_inj_tail in E1. destruct E1 as [<- <-].
      exists ps0, (cur ++ [buffer_idx e]).
      rewrite Eal, Eac, Esec, Eidx, E2.
      split; [ right; split; [ apply set_insert_not_nil | ];
               exists (push_idx (buffer_idx e) q0); simpl;
               rewrite Ecur; auto | ].
      split; [ exact I2 | ].
      split; [ intros a Hin; apply set_insert_In in Hin; apply in_or_app;
               destruct Hin as [-> | Hin]; [ right; left | left ]; auto | ].
      split; [ apply set_insert_sorted, I0 | ].
      split; [ intros a Hin; apply set_insert_In in Hin;
               apply set_insert_In; destruct Hin; auto | ].
      eapply sec_in_idxs; [ | exact I5 ]. intros a Hin. apply in_or_app. auto.
    + assert (Hb : In (buffer_idx e) (alive st)).
      { apply F1. destruct Hk; [ discriminate | assumption ]. }
      exists ps0, cur. rewrite Eal, Eac, Esec, Eidx, (PG eq_refl).
      split.
      { destruct I1 as [(E1 & _) | I1]; [ rewrite E1 in Hb; destruct Hb | ].
        right. destruct I1 as (E1 & q & E2 & E3).
        split; [ exact E1 | ]. exists q.
        destruct (alive st); [ congruence | ]. auto. }
      split; [ exact I2 | ]. split; [ exact I3 | ].
      split; [ apply set_insert_sorted, I0 | ].
      split; [ | exact I5 ].
      intros a Hin. apply set_insert_In in Hin.
      destruct Hin as [-> | Hin]; auto.
  - (* a closing event *)
    pose proof (not_activates_closes e Ha) as Hc.
    destruct (kind_facts e) as (_ & _ & _ & _ & _ & K6).
    rewrite (K6 Ha) in Eal.
    pose proof (step_sections _ _ _ _ _ H) as Esec.
    set (secs' := sections (result st')) in *.
    assert (Hnsec : Z.of_nat (length secs') < 2 ^ 31).
    { pose proof (inv_secs _ _ _ _ _ HI). rewrite Esec.
      destruct (closes e && _); [ rewrite length_app; simpl | ]; lia. }
    assert (C1 : forall a, In a (actives st') -> In a (alive st')).
    { intros a Hin. rewrite Eac in Hin. rewrite Eal.
      destruct (isRight e) eqn:ER; simpl in Hin.
      - apply set_erase_In in Hin; [ | exact I0 ].
        apply set_erase_In; [ exact Hsa | ]. destruct Hin. auto.
      - destruct (isEmptyRightGap e); auto.
        apply set_erase_subset in Hin. auto. }
    assert (C2 : forall a, In a (alive st') -> In a (alive st)).
    { intros a Hin. rewrite Eal in Hin. destruct (isRight e); auto.
      eapply set_erase_subset, Hin. }
    assert (C0 : StronglySorted lt (actives st')).
    { rewrite Eac. destruct (isRight e || isEmptyRightGap e); auto.
      apply set_erase_sorted, I0. }
    assert (C4 : sec_in secs' (last_section_idx st)
                   (Z.of_nat (length secs')) cur).
    { rewrite Esec. destruct (closes e && _); [ | exact I5 ].
      apply sec_in_push; [ | exact I5 ]. auto. }
    assert (C5 : Forall (closed_ok secs') ps0).
    { rewrite Esec. destruct (closes e && _); [ | exact I2 ].
      eapply Forall_impl; [ | exact I2 ]. intros q. apply closed_ok_app. }
    destruct (step_closing_partitions _ _ _ _ _ Hc H)
      as [(P1 & P2 & P3) | (P0 & (s & Hs & Hne) & ps1 & q & P1 & P2 & P3)].
    + exists ps0, cur. fold secs'. rewrite P1, P2.
      split.
      { destruct I1 as [(E1 & E2 & E3) | (E1 & q & E2 & E3)].
        - left. split; [ | auto ].
          destruct (alive st') as [|a l]; [ reflexivity | ].
          specialize (C2 a (or_introl eq_refl)). rewrite E1 in C2.
          destruct C2.
        - right. split; [ | eauto ]. intro E'.
          destruct P3 as [P3 | P3]; [ | auto ].
          destruct (isRight e) eqn:ER; [ apply (F3 eq_refl P3) | ].
          rewrite Eal in E'. auto. }
      split; [ exact C5 | ]. split; [ auto | ].
      split; [ exact C0 | ]. split; [ exact C1 | exact C4 ].
    + assert (Hal : alive st <> []).
      { intro E'. pose proof (F2 Hc s Hs Hne) as Hb. rewrite E' in Hb.
        exact Hb. }
      destruct I1 as [(E1 & _) | (_ & q0 & E2 & E3)]; [ congruence | ].
      rewrite E2 in P1. apply app_inj_tail in P1. destruct P1 as [<- <-].
      rewrite to_int_small in P2, P3 by exact Hnsec.
      exists (ps0 ++ [set_range
                        (mkInterval (last_section_idx st)
                           (Z.of_nat (length secs'))) q0]), [].
      split; [ left; auto | ].
      split.
      { apply Forall_app. split; [ exact C5 | ].
        constructor; [ | constructor ]. split; simpl; [ fold secs'; lia | ].
        fold secs'. rewrite <- E3. exact C4. }
      split; [ rewrite P0; intros a [] | ].
      split; [ exact C0 | ]. split; [ exact C1 | ].
      intros k x a Hk. rewrite P3 in Hk. lia.
Qed.

Lemma run_indep es problem n pts :
  length (buffers problem) = n ->
  Protocol n pts ->
  Z.of_nat (length pts) < 2 ^ 31 ->
  forall rest prefix st,
    pts = prefix ++ rest ->
    Inv n (status_after prefix) (Z.of_nat (length prefix)) (now prefix) st ->
    Indep st ->
    exists st',
      run es problem st rest = Some st' /\
      Inv n (status_after pts) (Z.of_nat (length pts)) (now pts) st' /\
      Indep st'.
Proof.
  intros Hlen HP Hsz.
  induction rest as [|e rest IH]; intros prefix st Hpts HI HS.
  - rewrite app_nil_r in Hpts. subst prefix. exists st. auto.
  - assert (Hin : In e pts) by (rewrite Hpts; apply in_elt).
    pose proof (proto_idx _ _ HP e Hin) as Hidx.
    destruct (nth_error (buffers problem) (buffer_idx e)) as [buffer|] eqn:Eb.
    2: { apply nth_error_None in Eb. lia. }
    assert (Hl : Z.of_nat (length prefix) + 1 < 2 ^ 31).
    { rewrite Hpts, length_app in Hsz. simpl in Hsz. lia. }
    pose proof (proto_legal _ _ HP prefix e rest Hpts) as Hleg.
    destruct (step_preserves es problem n _ _ _ st e buffer HI Hlen Eb)
      as (st1 & Hst & HI1); auto.
    + apply (proto_time _ _ HP prefix e rest Hpts).
    + apply (proto_nonneg _ _ HP), Hin.
    + pose proof (step_indep es problem n _ _ _ st e st1 HI Hidx Hl HS Hleg
                    Hst) as HS1.
      simpl. rewrite Hst.
      apply (IH (prefix ++ [e]) st1).
      * rewrite <- app_assoc. exact Hpts.
      * rewrite now_app, length_app. simpl length.
        replace (Z.of_nat (length prefix + 1)) with
          (Z.of_nat (length prefix) + 1) by lia.
        eapply Inv_ext; [ | exact HI1 ].
        intro b'. symmetry. apply status_after_app.
      * exact HS1.
Qed.

Lemma initial_indep problem : Indep (initial_state problem).
Proof.
  exists [], []. simpl. split; [ left; auto | ].
  split; [ constructor | ]. split; [ intros a [] | ].
  split; [ constructor | ]. split; [ intros a [] | ].
  intros k s a Hk. lia.
Qed.

(** For a well-formed problem with fewer than 2^31 events the sweep
    returns, and every section in the range of a partition holds only
    members of that partition. *)
Theorem Sweep_sections_within_partitions es problem :
  wf_problem problem ->
  Z.of_nat (length (make_points problem)) < 2 ^ 31 ->
  exists r,
    Sweep es problem = Some r /\
    forall q, In q (partitions r) ->
      forall (k : nat) s a,
        lower (section_range q) <= Z.of_nat k < upper (section_range q) ->
        nth_error (sections r) k = Some s -> In a s ->
        In a (buffer_idxs q).
Proof.
  intros Hwf Hsz.
  pose proof (sort_points_perm (make_points problem)) as Hperm.
  pose proof (sort_points_sorted (make_points problem)) as Hsorted.
  fold (sorted_points problem) in Hperm, Hsorted.
  pose proof (wf_protocol problem Hwf _ Hperm Hsorted) as HP.
  assert (Hlen : Z.of_nat (length (sorted_points problem)) < 2 ^ 31)
    by (rewrite <- (Permutation_length Hperm); exact Hsz).
  destruct (run_indep es problem _ (sorted_points problem) eq_refl HP Hlen
              (sorted_points problem) [] (initial_state problem) eq_refl
              (initial_inv problem) (initial_indep problem))
    as (st & Hrun & HI & (ps0 & cur & I1 & I2 & _)).
  unfold Sweep, sweep_points. rewrite Hrun. exists (result st).
  split; [ reflexivity | ].
  assert (Hal : alive st = []).
  { destruct (alive st) as [|a al] eqn:E; [ reflexivity | ].
    assert (Hl : live (status_after (sorted_points problem) a) = true)
      by (apply (inv_alive _ _ _ _ _ HI); rewrite E; left; reflexivity).
    rewrite (proj1 (proto_end _ _ HP a)) in Hl. discriminate. }
  destruct I1 as [(_ & E2 & _) | (E1 & _)]; [ | congruence ].
  rewrite E2. intros q Hq. rewrite Forall_forall in I2.
  apply (I2 q Hq).
Qed.

Lemma Sweep_sections_within_partitions_witness :
  exists r,
    Sweep size_sum edge_gaps_problem = Some r /\
    forall q, In q (partitions r) ->
      forall (k : nat) s a,
        lower (section_range q) <= Z.of_nat k < upper (section_range q) ->
        nth_error (sections r) k = Some s -> In a s ->
        In a (buffer_idxs q).
Proof.
  apply (Sweep_sections_within_partitions size_sum edge_gaps_problem).
  - unfold wf_problem, wf_buffer. simpl.
    repeat (apply Forall_cons || apply Forall_nil); simpl; repeat split;
      try lia; try (left; lia); right; split; [ lia | discriminate ].
  - vm_compute. reflexivity.
Defined.

(** ** The exact effect of an iteration on spans and span starts *)








(** ** Spans lie within the range of their partition *)






